(** * BitVector and GrowableBitVector (src/bit-vector.h)

    A shallow embedding of V8's zone-allocated bit vectors and of the
    growable wrapper around them, followed by the properties stated for
    them.

    The embedding keeps the shape of the C++ code:
    - a [Zone] is a store with two kinds of cells, word arrays (what
      [zone->NewArray<uintptr_t>(n)] returns) and [BitVector] objects; a
      pointer is the index of its cell;
    - a [uintptr_t] is a [Z] in [[0, 2^kDataBits)], with the wrap-around
      written where an operator can leave that range ([<<] and [~]);
    - an [int] is a [Z]; the one place where the code can overflow an [int]
      on well-formed input, the doubling in [EnsureCapacity], checks the
      range explicitly;
    - [/] and [%] on [int] are [Z.quot] and [Z.rem] (C++ truncates);
    - a method is a function from the store to a result [Res]: it returns,
      or it stops on a failed [DCHECK] or on a bad memory access, or the
      loop budget of the model runs out. *)

From stdpp Require Import base list.
From Stdlib Require Import ZArith Lia Sorting.Sorted.

Local Open Scope Z_scope.

(** ** Results of calls *)

Inductive Res (A : Type) : Type :=
| Ret (a : A)
| Fatal
| OutOfFuel.

Arguments Ret {A} a.
Arguments Fatal {A}.
Arguments OutOfFuel {A}.

Definition Res_bind {A B : Type} (m : Res A) (k : A → Res B) : Res B :=
  match m with
  | Ret a => k a
  | Fatal => Fatal
  | OutOfFuel => OutOfFuel
  end.

Notation "x <- m ;; k" := (Res_bind m (fun x => k))
  (at level 20, m at level 99, k at level 200, right associativity).
Notation "' pat <- m ;; k" :=
  (Res_bind m (fun x => match x with pat => k end))
  (at level 20, pat pattern, m at level 99, k at level 200,
   right associativity).

(** [for (int i = lo; i < hi; i++) body] over a state [S]. *)
Fixpoint for_loop {S : Type} (n : nat) (i : Z) (body : Z → S → Res S) (s : S)
  : Res S :=
  match n with
  | O => Ret s
  | S n' => s' <- body i s ;; for_loop n' (i + 1) body s'
  end.

Definition for_int {S : Type} (lo hi : Z) (body : Z → S → Res S) (s : S)
  : Res S :=
  for_loop (Z.to_nat (hi - lo)) lo body s.

(** ** The platform

    [kPointerSize] comes from V8's globals, outside this header: 4 on a
    32-bit target and 8 on a 64-bit one. *)

Inductive Arch : Set := ia32 | x64.
Existing Class Arch.

Definition kPointerSize {arch : Arch} : Z :=
  match arch with ia32 => 4 | x64 => 8 end.

Definition INT_MAX : Z := 2147483647.
Definition INT_MIN : Z := -2147483648.

(** ** The zone *)

Record BitVector : Set := mkBitVector {
  length_ : Z;
  data_length_ : Z;
  data_ : nat
}.

(** A word of an array is [None] until it is first written. *)
Record Zone : Set := mkZone {
  arrays : list (list (option Z));
  objects : list BitVector
}.

Definition empty_zone : Zone := mkZone [] [].

Definition NewArray (n : Z) (z : Zone) : nat * Zone :=
  (length (arrays z),
   mkZone (arrays z ++ [replicate (Z.to_nat n) None]) (objects z)).

Definition load (p : nat) (i : Z) (z : Zone) : Res Z :=
  if i <? 0 then Fatal else
  match arrays z !! p with
  | Some a => match a !! Z.to_nat i with
              | Some (Some w) => Ret w
              | _ => Fatal
              end
  | None => Fatal
  end.

Definition store (p : nat) (i : Z) (w : Z) (z : Zone) : Res Zone :=
  if i <? 0 then Fatal else
  match arrays z !! p with
  | Some a =>
      if bool_decide (Z.to_nat i < length a)%nat
      then Ret (mkZone (<[p := <[Z.to_nat i := Some w]> a]> (arrays z))
                       (objects z))
      else Fatal
  | None => Fatal
  end.

Definition new_object (o : BitVector) (z : Zone) : nat * Zone :=
  (length (objects z), mkZone (arrays z) (objects z ++ [o])).

Definition deref (this : nat) (z : Zone) : Res BitVector :=
  match objects z !! this with
  | Some o => Ret o
  | None => Fatal
  end.

Definition assign (this : nat) (o : BitVector) (z : Zone) : Zone :=
  mkZone (arrays z) (<[this := o]> (objects z)).

(** ** class BitVector *)

Module BitVector.
Section WithArch.
Context {arch : Arch}.

Definition kDataBits : Z := kPointerSize * 8.
Definition kDataBitShift : Z := if kPointerSize =? 8 then 6 else 5.
Definition kOne : Z := 1.

(** Conversion to [uintptr_t]. *)
Definition uintptr (x : Z) : Z := x mod 2 ^ kDataBits.

Definition SizeFor (length : Z) : Z :=
  if length =? 0 then 1 else 1 + (length - 1) ÷ kDataBits.

Definition length (this : nat) (z : Zone) : Res Z :=
  o <- deref this z ;; Ret (length_ o).

Definition Clear (this : nat) (z : Zone) : Res Zone :=
  o <- deref this z ;;
  for_int 0 (data_length_ o) (fun i z => store (data_ o) i 0 z) z.

(** [BitVector(int length, Zone* zone)], called as [new (zone) BitVector]. *)
Definition new (length : Z) (z : Zone) : Res (nat * Zone) :=
  let '(d, z) := NewArray (SizeFor length) z in
  let '(this, z) := new_object (mkBitVector length (SizeFor length) d) z in
  if 0 <=? length then z <- Clear this z ;; Ret (this, z) else Fatal.

(** The private [CopyFrom(uintptr_t* other_data, int other_data_length)]. *)
Definition CopyFrom_data (this : nat) (other_data : nat)
    (other_data_length : Z) (z : Zone) : Res Zone :=
  o <- deref this z ;;
  if other_data_length <=? data_length_ o then
    z <- for_int 0 other_data_length
           (fun i z => w <- load other_data i z ;; store (data_ o) i w z) z ;;
    for_int other_data_length (data_length_ o)
      (fun i z => store (data_ o) i 0 z) z
  else Fatal.

Definition CopyFrom (this other : nat) (z : Zone) : Res Zone :=
  o <- deref this z ;;
  oo <- deref other z ;;
  if length_ oo <=? length_ o
  then CopyFrom_data this (data_ oo) (data_length_ oo) z
  else Fatal.

(** [BitVector(const BitVector& other, Zone* zone)]. *)
Definition new_copy (other : nat) (z : Zone) : Res (nat * Zone) :=
  oo <- deref other z ;;
  let '(d, z) := NewArray (SizeFor (length_ oo)) z in
  let '(this, z) :=
    new_object (mkBitVector (length_ oo) (SizeFor (length_ oo)) d) z in
  z <- CopyFrom this other z ;; Ret (this, z).

Definition Resize (this : nat) (new_length : Z) (z : Zone) : Res Zone :=
  o <- deref this z ;;
  if new_length >? length_ o then
    let new_data_length := SizeFor new_length in
    z <- (if new_data_length >? data_length_ o then
            let old_data := data_ o in
            let old_data_length := data_length_ o in
            let '(d, z) := NewArray new_data_length z in
            let z := assign this (mkBitVector (length_ o) new_data_length d) z in
            CopyFrom_data this old_data old_data_length z
          else Ret z) ;;
    o <- deref this z ;;
    Ret (assign this (mkBitVector new_length (data_length_ o) (data_ o)) z)
  else Fatal.

Definition Contains (this : nat) (i : Z) (z : Zone) : Res bool :=
  o <- deref this z ;;
  if (0 <=? i) && (i <? length_ o) then
    block <- load (data_ o) (i ÷ kDataBits) z ;;
    Ret (negb (Z.land block (uintptr (Z.shiftl kOne (Z.rem i kDataBits))) =? 0))
  else Fatal.

Definition Add (this : nat) (i : Z) (z : Zone) : Res Zone :=
  o <- deref this z ;;
  if (0 <=? i) && (i <? length_ o) then
    block <- load (data_ o) (i ÷ kDataBits) z ;;
    store (data_ o) (i ÷ kDataBits)
      (Z.lor block (uintptr (Z.shiftl kOne (Z.rem i kDataBits)))) z
  else Fatal.

(** [memset(data_, -1, ...)]: every byte, so every word, becomes all ones. *)
Definition AddAll (this : nat) (z : Zone) : Res Zone :=
  o <- deref this z ;;
  for_int 0 (data_length_ o) (fun i z => store (data_ o) i (uintptr (-1)) z) z.

Definition Remove (this : nat) (i : Z) (z : Zone) : Res Zone :=
  o <- deref this z ;;
  if (0 <=? i) && (i <? length_ o) then
    block <- load (data_ o) (i ÷ kDataBits) z ;;
    store (data_ o) (i ÷ kDataBits)
      (Z.land block
         (uintptr (Z.lnot (uintptr (Z.shiftl kOne (Z.rem i kDataBits)))))) z
  else Fatal.

(** The body shared by [Union], [Intersect] and [Subtract]:
    [data_[i] = op(data_[i], other.data_[i])] for every word. *)
Definition combine_words (op : Z → Z → Z) (this other : nat) (z : Zone)
  : Res Zone :=
  o <- deref this z ;;
  oo <- deref other z ;;
  if length_ oo =? length_ o then
    for_int 0 (data_length_ o)
      (fun i z =>
         a <- load (data_ o) i z ;;
         b <- load (data_ oo) i z ;;
         store (data_ o) i (op a b) z) z
  else Fatal.

(** The body shared by [UnionIsChanged] and [IntersectIsChanged]. *)
Definition combine_words_changed (op : Z → Z → Z) (this other : nat)
    (z : Zone) : Res (bool * Zone) :=
  o <- deref this z ;;
  oo <- deref other z ;;
  if length_ oo =? length_ o then
    for_int 0 (data_length_ o)
      (fun i '(changed, z) =>
         old_data <- load (data_ o) i z ;;
         b <- load (data_ oo) i z ;;
         z <- store (data_ o) i (op old_data b) z ;;
         new_data <- load (data_ o) i z ;;
         Ret (if new_data =? old_data then changed else true, z))
      (false, z)
  else Fatal.

Definition Union : nat → nat → Zone → Res Zone := combine_words Z.lor.
Definition UnionIsChanged : nat → nat → Zone → Res (bool * Zone) :=
  combine_words_changed Z.lor.
Definition Intersect : nat → nat → Zone → Res Zone := combine_words Z.land.
Definition IntersectIsChanged : nat → nat → Zone → Res (bool * Zone) :=
  combine_words_changed Z.land.
Definition Subtract : nat → nat → Zone → Res Zone :=
  combine_words (fun a b => Z.land a (uintptr (Z.lnot b))).

Fixpoint IsEmpty_loop (n : nat) (i : Z) (data : nat) (z : Zone) : Res bool :=
  match n with
  | O => Ret true
  | S n' =>
      w <- load data i z ;;
      if w =? 0 then IsEmpty_loop n' (i + 1) data z else Ret false
  end.

Definition IsEmpty (this : nat) (z : Zone) : Res bool :=
  o <- deref this z ;;
  IsEmpty_loop (Z.to_nat (data_length_ o)) 0 (data_ o) z.

Fixpoint Equals_loop (n : nat) (i : Z) (data other_data : nat) (z : Zone)
  : Res bool :=
  match n with
  | O => Ret true
  | S n' =>
      a <- load data i z ;;
      b <- load other_data i z ;;
      if a =? b then Equals_loop n' (i + 1) data other_data z else Ret false
  end.

Definition Equals (this other : nat) (z : Zone) : Res bool :=
  o <- deref this z ;;
  oo <- deref other z ;;
  Equals_loop (Z.to_nat (data_length_ o)) 0 (data_ o) (data_ oo) z.

(** Modelled from the spec: the per-word popcount that [Count] sums; the
    function the missing body of [Count] calls is not in bit-vector.h.
    [popcount n w] counts the ones among the low [n] bits of [w]. *)
Fixpoint popcount (n : nat) (w : Z) : Z :=
  match n with
  | O => 0
  | S n' => (if Z.odd w then 1 else 0) + popcount n' (Z.div2 w)
  end.

(** Modelled from the spec: the popcount of one [uintptr_t]. *)
Definition CountPopulation (w : Z) : Z := popcount (Z.to_nat kDataBits) w.

(** Modelled from the spec: [Count] is declared in bit-vector.h and its body
    is missing. The spec has it return the "population count (number of set
    bits in [0, wordCount*WordBits)); implemented by summing per-word
    popcount". *)
Definition Count (this : nat) (z : Zone) : Res Z :=
  o <- deref this z ;;
  for_int 0 (data_length_ o)
    (fun i count => w <- load (data_ o) i z ;; Ret (count + CountPopulation w))
    0.

End WithArch.

(** *** class BitVector::Iterator

    An iterator is a value of the caller (BASE_EMBEDDED); it holds a pointer
    to its target and reads the target's words from the zone as it goes. *)

Module Iterator.

Record t : Set := mk {
  target_ : nat;
  current_index_ : Z;
  current_value_ : Z;
  current_ : Z
}.

Section WithArch.
Context {arch : Arch}.

Definition Done (it : t) (z : Zone) : Res bool :=
  o <- deref (target_ it) z ;;
  Ret (current_index_ it >=? data_length_ o).

Definition Current (it : t) (z : Zone) : Res Z :=
  d <- Done it z ;;
  if d then Fatal else Ret (current_ it).

Definition add_current (k : Z) (it : t) : t :=
  mk (target_ it) (current_index_ it) (current_value_ it) (current_ it + k).

(** [while ((val & 0xFF) == 0) { val >>= 8; current_ += 8; }] *)
Fixpoint SkipZeroBytes (fuel : nat) (val : Z) (it : t) : Res (Z * t) :=
  if Z.land val 255 =? 0 then
    match fuel with
    | O => OutOfFuel
    | S fuel' => SkipZeroBytes fuel' (Z.shiftr val 8) (add_current 8 it)
    end
  else Ret (val, it).

(** [while ((val & 0x1) == 0) { val >>= 1; current_++; }] *)
Fixpoint SkipZeroBits (fuel : nat) (val : Z) (it : t) : Res (Z * t) :=
  if Z.land val 1 =? 0 then
    match fuel with
    | O => OutOfFuel
    | S fuel' => SkipZeroBits fuel' (Z.shiftr val 1) (add_current 1 it)
    end
  else Ret (val, it).

(** Modelled from the spec: step 1 of [Advance], whose body is missing from
    bit-vector.h. "If the remaining word value is zero, move to the next word
    (incrementing the word index and the running bit-index counter by
    WordBits), repeating until either a non-zero word is found or all words
    are exhausted": the counter goes to the first bit of the word moved to,
    WordBits past the first bit of the word left. The result is [None] when
    the words are exhausted and [Advance] returns from inside the loop. *)
Fixpoint next_word (fuel : nat) (val : Z) (it : t) (z : Zone)
  : Res (option Z * t) :=
  if val =? 0 then
    match fuel with
    | O => OutOfFuel
    | S fuel' =>
        let it := mk (target_ it) (current_index_ it + 1) (current_value_ it)
                     (current_ it) in
        d <- Done it z ;;
        if d then Ret (None, it) else
        o <- deref (target_ it) z ;;
        val <- load (data_ o) (current_index_ it) z ;;
        next_word fuel' val
          (mk (target_ it) (current_index_ it) (current_value_ it)
              (current_index_ it * BitVector.kDataBits)) z
    end
  else Ret (Some val, it).

(** Modelled from the spec: [Advance] is declared in bit-vector.h and its
    body is missing. The spec's algorithm keeps "a running bit-index counter"
    ([current_]) and "the remaining bits of the current word shifted so bit 0
    is the next unexamined bit" ([current_value_]); the constructor of the
    header fixes the start: counter -1, first word loaded, one [Advance]. So
    the counter first steps to the next unexamined bit; step 1 is
    [next_word]; step 2 skips zero bytes and then zero bits ([SkipZeroBytes]
    and [SkipZeroBits] are in the header); step 3 leaves the counter on the
    bit found, and the value kept is shifted right once more, so that the bit
    reported is consumed. *)
Definition Advance (fuel : nat) (it : t) (z : Zone) : Res t :=
  let it := add_current 1 it in
  '(found, it) <- next_word fuel (current_value_ it) it z ;;
  match found with
  | None => Ret it
  | Some val =>
      '(val, it) <- SkipZeroBytes fuel val it ;;
      '(val, it) <- SkipZeroBits fuel val it ;;
      Ret (mk (target_ it) (current_index_ it) (Z.shiftr val 1) (current_ it))
  end.

(** [explicit Iterator(BitVector* target)] *)
Definition new (target : nat) (fuel : nat) (z : Zone) : Res t :=
  o <- deref target z ;;
  first <- load (data_ o) 0 z ;;
  if data_length_ o >? 0
  then Advance fuel (mk target 0 first (-1)) z
  else Fatal.

(** [for (; !it.Done(); it.Advance()) visit(it.Current())], the indices
    visited in order. *)
Fixpoint elements_from (steps fuel : nat) (it : t) (z : Zone)
  : Res (list Z) :=
  d <- Done it z ;;
  if d then Ret [] else
  match steps with
  | O => OutOfFuel
  | S steps' =>
      i <- Current it z ;;
      it <- Advance fuel it z ;;
      rest <- elements_from steps' fuel it z ;;
      Ret (i :: rest)
  end.

(** A full traversal: construct, then read and advance until done. *)
Definition elements (target : nat) (fuel : nat) (z : Zone) : Res (list Z) :=
  it <- new target fuel z ;;
  elements_from fuel fuel it z.

End WithArch.
End Iterator.
End BitVector.

(** ** class GrowableBitVector

    A [GrowableBitVector] is a value of its owner (BASE_EMBEDDED); [bits_]
    is null or points to a [BitVector] of the zone. *)

Module GrowableBitVector.

Record t : Set := mk { bits_ : option nat }.

Section WithArch.
Context {arch : Arch}.

Definition kInitialLength : Z := 1024.

(** [GrowableBitVector()] *)
Definition empty : t := mk None.

(** [GrowableBitVector(int length, Zone* zone)] *)
Definition new (length : Z) (z : Zone) : Res (t * Zone) :=
  '(b, z) <- BitVector.new length z ;; Ret (mk (Some b), z).

Definition InBitsRange (this : t) (value : Z) (z : Zone) : Res bool :=
  match bits_ this with
  | None => Ret false
  | Some b => len <- BitVector.length b z ;; Ret (len >? value)
  end.

Definition Contains (this : t) (value : Z) (z : Zone) : Res bool :=
  r <- InBitsRange this value z ;;
  if r then
    match bits_ this with
    | Some b => BitVector.Contains b value z
    | None => Fatal
    end
  else Ret false.

(** [while (new_length <= value) new_length *= 2;] on [int]: a product
    outside the range of [int] is undefined behaviour, here [Fatal]. *)
Fixpoint double_until (fuel : nat) (new_length value : Z) : Res Z :=
  if new_length <=? value then
    match fuel with
    | O => OutOfFuel
    | S fuel' =>
        if (INT_MIN <=? new_length * 2) && (new_length * 2 <=? INT_MAX)
        then double_until fuel' (new_length * 2) value
        else Fatal
    end
  else Ret new_length.

Definition EnsureCapacity (this : t) (value : Z) (fuel : nat) (z : Zone)
  : Res (t * Zone) :=
  r <- InBitsRange this value z ;;
  if r then Ret (this, z) else
  new_length <- match bits_ this with
                | None => Ret kInitialLength
                | Some b => BitVector.length b z
                end ;;
  new_length <- double_until fuel new_length value ;;
  match bits_ this with
  | None => '(b, z) <- BitVector.new new_length z ;; Ret (mk (Some b), z)
  | Some b => z <- BitVector.Resize b new_length z ;; Ret (this, z)
  end.

Definition Add (this : t) (value : Z) (fuel : nat) (z : Zone)
  : Res (t * Zone) :=
  '(this, z) <- EnsureCapacity this value fuel z ;;
  match bits_ this with
  | Some b => z <- BitVector.Add b value z ;; Ret (this, z)
  | None => Fatal
  end.

(** [Iterator(const GrowableBitVector* target, Zone* zone)] *)
Definition Iterator_new (target : t) (fuel : nat) (z : Zone)
  : Res (BitVector.Iterator.t * Zone) :=
  '(b, z) <- match bits_ target with
             | None => BitVector.new 1 z
             | Some b => Ret (b, z)
             end ;;
  it <- BitVector.Iterator.new b fuel z ;;
  Ret (it, z).

Fixpoint Union_loop (steps fuel : nat) (it : BitVector.Iterator.t) (this : t)
    (z : Zone) : Res (t * Zone) :=
  d <- BitVector.Iterator.Done it z ;;
  if d then Ret (this, z) else
  match steps with
  | O => OutOfFuel
  | S steps' =>
      i <- BitVector.Iterator.Current it z ;;
      '(this, z) <- Add this i fuel z ;;
      it <- BitVector.Iterator.Advance fuel it z ;;
      Union_loop steps' fuel it this z
  end.

Definition Union (this other : t) (fuel : nat) (z : Zone) : Res (t * Zone) :=
  '(it, z) <- Iterator_new other fuel z ;;
  Union_loop fuel fuel it this z.

Definition Clear (this : t) (z : Zone) : Res Zone :=
  match bits_ this with
  | Some b => BitVector.Clear b z
  | None => Ret z
  end.

End WithArch.
End GrowableBitVector.

(** ** The logical view of a BitVector

    What the properties below are stated over: the length and the list of
    words an object of the zone stands for, and the bits of that list. *)

Abbreviation kDataBits := BitVector.kDataBits.

Section Views.
Context {arch : Arch}.

Definition word_ok (w : Z) : Prop := 0 ≤ w < 2 ^ kDataBits.

Definition word_at (ws : list Z) (k : Z) : Z := default 0 (ws !! Z.to_nat k).

(** Bit [i] of a word array: bit [i % kDataBits] of word [i / kDataBits]. *)
Definition bit (ws : list Z) (i : Z) : bool :=
  Z.testbit (word_at ws (i / kDataBits)) (i mod kDataBits).

(** Object [this] of zone [z] is a BitVector of length [len] whose array
    [d] holds the words [ws]: the state every constructor establishes. *)
Definition is_bitvector (z : Zone) (this : nat) (len : Z) (d : nat)
    (ws : list Z) : Prop :=
  objects z !! this = Some (mkBitVector len (BitVector.SizeFor len) d) ∧
  arrays z !! d = Some (Some <$> ws) ∧
  Z.of_nat (length ws) = BitVector.SizeFor len ∧
  0 ≤ len ∧
  Forall word_ok ws.

(** The zone with array [d] replaced. *)
Definition with_array (d : nat) (a : list (option Z)) (z : Zone) : Zone :=
  mkZone (<[d := a]> (arrays z)) (objects z).

(** Setting and clearing one bit of a word array. *)
Definition set_bit (ws : list Z) (i : Z) : list Z :=
  <[Z.to_nat (i / kDataBits) :=
      Z.lor (word_at ws (i / kDataBits)) (2 ^ (i mod kDataBits))]> ws.

Definition clear_bit (ws : list Z) (i : Z) : list Z :=
  <[Z.to_nat (i / kDataBits) :=
      Z.ldiff (word_at ws (i / kDataBits)) (2 ^ (i mod kDataBits))]> ws.

(** PaddingZero: every bit of the word array at a position at or past the
    length is zero. *)
Definition PaddingZero (len : Z) (ws : list Z) : Prop :=
  ∀ i, len ≤ i → bit ws i = false.

Definition padding_zerob (len : Z) (ws : list Z) : bool :=
  forallb (fun i => negb (bit ws i))
    (seqZ len (Z.of_nat (length ws) * kDataBits - len)).

(** [a.op(b)] and [b.op(a)], run from the same zone, leave the same words in
    [a] and in [b] respectively. *)
Definition commutes (op : nat → nat → Zone → Res Zone) (z : Zone)
    (a b : nat) (len : Z) (da db : nat) : Prop :=
  ∃ z1 z2 r,
    op a b z = Ret z1 ∧ op b a z = Ret z2 ∧
    is_bitvector z1 a len da r ∧ is_bitvector z2 b len db r.

(** [a.op(b); a.op(c)] and [b.op(c); a.op(b)], run from the same zone, leave
    the same words in [a]. *)
Definition associates (op : nat → nat → Zone → Res Zone) (z : Zone)
    (a b c : nat) (len : Z) (da : nat) : Prop :=
  ∃ z1 z2 z1' z2' r,
    op a b z = Ret z1 ∧ op a c z1 = Ret z2 ∧
    op b c z = Ret z1' ∧ op a b z1' = Ret z2' ∧
    is_bitvector z2 a len da r ∧ is_bitvector z2' a len da r.

(** The indices of the set bits of a word array, in ascending order; from
    index [u] on, and all of them. *)
Definition bits_from (ws : list Z) (u : Z) : list Z :=
  List.filter (bit ws) (seqZ u (Z.of_nat (length ws) * kDataBits - u)).

Definition set_bits (ws : list Z) : list Z := bits_from ws 0.

(** An iterator over [this] whose next unexamined bit is [u]: the counter is
    one behind, the cursor is on the word of [u] (or on the word before, when
    that word is used up), and the value kept is that word shifted down to
    [u]. *)
Definition about_to_examine (this : nat) (ws : list Z)
    (it : BitVector.Iterator.t) (u : Z) : Prop :=
  let ci := BitVector.Iterator.current_index_ it in
  BitVector.Iterator.target_ it = this ∧
  BitVector.Iterator.current_ it = u - 1 ∧
  0 ≤ ci < Z.of_nat (length ws) ∧
  ci * kDataBits ≤ u ≤ (ci + 1) * kDataBits ∧
  BitVector.Iterator.current_value_ it
    = Z.shiftr (word_at ws ci) (u - ci * kDataBits).

(** An iterator over [this] that is done. *)
Definition finished (this : nat) (ws : list Z) (it : BitVector.Iterator.t)
  : Prop :=
  BitVector.Iterator.target_ it = this ∧
  BitVector.Iterator.current_index_ it = Z.of_nat (length ws).

(** The scenario of the spec: a set of length 10 after [Add(2); Add(5);
    Add(9)], traversed and counted. *)
Definition scenario_2_5_9 (fuel : nat) : Res (list Z * Z * bool) :=
  '(b, z) <- BitVector.new 10 empty_zone ;;
  z <- BitVector.Add b 2 z ;;
  z <- BitVector.Add b 5 z ;;
  z <- BitVector.Add b 9 z ;;
  elems <- BitVector.Iterator.elements b fuel z ;;
  count <- BitVector.Count b z ;;
  c3 <- BitVector.Contains b 3 z ;;
  Ret (elems, count, c3).

(** The scenario of the spec: an unallocated GrowableBitVector after
    [Add(2000, zone)]: the length of its backing BitVector, and what
    [Contains] says of 2000 and of 500. *)
Definition scenario_Add_2000 (fuel : nat) : Res (Z * bool * bool) :=
  '(g, z) <- GrowableBitVector.Add GrowableBitVector.empty 2000 fuel
               empty_zone ;;
  len <- match GrowableBitVector.bits_ g with
         | Some b => BitVector.length b z
         | None => Fatal
         end ;;
  c2000 <- GrowableBitVector.Contains g 2000 z ;;
  c500 <- GrowableBitVector.Contains g 500 z ;;
  Ret (len, c2000, c500).

(** A GrowableBitVector constructed with length 0, united with the set
    {0}. *)
Definition union_into_length_0 (fuel : nat)
  : Res (GrowableBitVector.t * Zone) :=
  '(g, z) <- GrowableBitVector.new 0 empty_zone ;;
  '(h, z) <- GrowableBitVector.Add GrowableBitVector.empty 0 1 z ;;
  GrowableBitVector.Union g h fuel z.

(** The same union into a GrowableBitVector constructed with length 1. *)
Definition union_into_length_1 (fuel : nat) : Res bool :=
  '(g, z) <- GrowableBitVector.new 1 empty_zone ;;
  '(h, z) <- GrowableBitVector.Add GrowableBitVector.empty 0 1 z ;;
  '(g, z) <- GrowableBitVector.Union g h fuel z ;;
  GrowableBitVector.Contains g 0 z.

(** The mutating operations of a BitVector. *)
Inductive Mutation : Set :=
| MAdd (i : Z)
| MRemove (i : Z)
| MAddAll
| MClear
| MUnion (other : nat)
| MUnionIsChanged (other : nat)
| MIntersect (other : nat)
| MIntersectIsChanged (other : nat)
| MSubtract (other : nat)
| MCopyFrom (other : nat)
| MResize (new_length : Z).

Definition mutate (this : nat) (m : Mutation) (z : Zone) : Res Zone :=
  match m with
  | MAdd i => BitVector.Add this i z
  | MRemove i => BitVector.Remove this i z
  | MAddAll => BitVector.AddAll this z
  | MClear => BitVector.Clear this z
  | MUnion other => BitVector.Union this other z
  | MUnionIsChanged other =>
      '(_, z) <- BitVector.UnionIsChanged this other z ;; Ret z
  | MIntersect other => BitVector.Intersect this other z
  | MIntersectIsChanged other =>
      '(_, z) <- BitVector.IntersectIsChanged this other z ;; Ret z
  | MSubtract other => BitVector.Subtract this other z
  | MCopyFrom other => BitVector.CopyFrom this other z
  | MResize new_length => BitVector.Resize this new_length z
  end.

Fixpoint mutate_all (this : nat) (ms : list Mutation) (z : Zone) : Res Zone :=
  match ms with
  | [] => Ret z
  | m :: ms => z <- mutate this m z ;; mutate_all this ms z
  end.

(** Zone [z'] differs from [z] at most in array [d]. *)
Definition writes_only (d : nat) (z z' : Zone) : Prop :=
  objects z' = objects z ∧
  length (arrays z') = length (arrays z) ∧
  ∀ d', d' ≠ d → arrays z' !! d' = arrays z !! d'.

(** Zone [z'] differs from [z] at most in object [this], in the array of
    [this], and in arrays allocated since. *)
Definition mutates_only (this : nat) (z z' : Zone) : Prop :=
  (∀ x, x ≠ this → objects z' !! x = objects z !! x) ∧
  (length (arrays z) ≤ length (arrays z'))%nat ∧
  ∃ o o',
    objects z !! this = Some o ∧ objects z' !! this = Some o' ∧
    (data_ o' = data_ o ∨
     (length (arrays z) ≤ data_ o' < length (arrays z'))%nat) ∧
    ∀ d', d' ≠ data_ o → (d' < length (arrays z))%nat →
          arrays z' !! d' = arrays z !! d'.

(** Objects [x] and [y] are distinct and own distinct arrays of the zone. *)
Definition separate (x y : nat) (z : Zone) : Prop :=
  ∃ ox oy,
    objects z !! x = Some ox ∧ objects z !! y = Some oy ∧ x ≠ y ∧
    data_ ox ≠ data_ oy ∧
    (data_ ox < length (arrays z))%nat ∧ (data_ oy < length (arrays z))%nat.

(** Object [x] and its array are the same in [z'] as in [z]. *)
Definition untouched (x : nat) (z z' : Zone) : Prop :=
  ∃ o, objects z !! x = Some o ∧ objects z' !! x = Some o ∧
       arrays z' !! data_ o = arrays z !! data_ o.

(** A BitVector of length 1 after [AddAll()], resized to length 2: what
    [Contains(1)] says. *)
Definition Resize_after_AddAll : Res bool :=
  '(b, z) <- BitVector.new 1 empty_zone ;;
  z <- BitVector.AddAll b z ;;
  z <- BitVector.Resize b 2 z ;;
  BitVector.Contains b 1 z.

(** A copy of a BitVector of length 1 on which [AddAll()] was called: the
    copy, and its [Count()]. *)
Definition copy_after_AddAll : Res (nat * Zone * Z) :=
  '(b, z) <- BitVector.new 1 empty_zone ;;
  z <- BitVector.AddAll b z ;;
  '(b2, z) <- BitVector.new_copy b z ;;
  count <- BitVector.Count b2 z ;;
  Ret (b2, z, count).

(** The array halfway through a loop that rewrites the stretch [old] of it
    with [new], one word per round. *)
Definition midway (pre old post : list (option Z)) (new : list Z) (k : nat)
  : list (option Z) :=
  pre ++ (Some <$> take k new) ++ drop k old ++ post.

(** The zone after [new (zone) BitVector(len, zone)]. *)
Definition zone_after_new (len : Z) (z : Zone) : Zone :=
  mkZone
    (arrays z ++ [Some <$> replicate (Z.to_nat (BitVector.SizeFor len)) 0])
    (objects z ++
       [mkBitVector len (BitVector.SizeFor len) (length (arrays z))]).

(** The zone after [new (zone) BitVector(other, zone)], for [other] of
    length [len] with words [ws]. *)
Definition zone_after_copy (len : Z) (ws : list Z) (z : Zone) : Zone :=
  mkZone (arrays z ++ [Some <$> ws])
         (objects z ++
            [mkBitVector len (BitVector.SizeFor len) (length (arrays z))]).

(** The words after [Resize(new_length)]: the old words, then zero words up
    to the new size. *)
Definition resized_words (len new_length : Z) (ws : list Z) : list Z :=
  ws ++ replicate
          (Z.to_nat (BitVector.SizeFor new_length - BitVector.SizeFor len)) 0.

Definition zone_after_Resize (this : nat) (len new_length : Z) (d : nat)
    (ws : list Z) (z : Zone) : Zone :=
  if BitVector.SizeFor new_length >? BitVector.SizeFor len then
    mkZone (arrays z ++ [Some <$> resized_words len new_length ws])
           (<[this := mkBitVector new_length (BitVector.SizeFor new_length)
                        (length (arrays z))]> (objects z))
  else
    assign this (mkBitVector new_length (BitVector.SizeFor len) d) z.

Definition data_after_Resize (len new_length : Z) (d : nat) (z : Zone) : nat :=
  if BitVector.SizeFor new_length >? BitVector.SizeFor len
  then length (arrays z) else d.

(** The flag of the IsChanged variants after [k] rounds. *)
Definition changed_upto (new ws : list Z) (k : nat) : bool :=
  negb (bool_decide (take k new = take k ws)).

(** The logical view of a GrowableBitVector: nothing allocated and no words,
    or a backing BitVector of positive length with zero padding. A
    GrowableBitVector reaches no other state through its own operations,
    unless it is constructed with length 0. *)
Definition is_growable (z : Zone) (g : GrowableBitVector.t) (len : Z)
    (ws : list Z) : Prop :=
  match GrowableBitVector.bits_ g with
  | None => len = 0 ∧ ws = []
  | Some b =>
      ∃ d, is_bitvector z b len d ws ∧ PaddingZero len ws ∧ 0 < len ≤ INT_MAX
  end.

(** Object [x] is a BitVector of the zone other than the backing set of
    [g], on an array of its own. *)
Definition apart (x : nat) (g : GrowableBitVector.t) (z : Zone) : Prop :=
  match GrowableBitVector.bits_ g with
  | None => ∃ o, objects z !! x = Some o ∧ (data_ o < length (arrays z))%nat
  | Some b => separate x b z
  end.

(** What the checks of a mutating operation on a BitVector of length [len]
    ask of its arguments: an index of the set, an argument of the same
    length, for [CopyFrom] a source that is not longer, for [Resize] a
    greater length. *)
Definition in_contract (z : Zone) (len : Z) (m : Mutation) : Prop :=
  match m with
  | MAdd i | MRemove i => 0 ≤ i < len
  | MAddAll | MClear => True
  | MUnion other | MUnionIsChanged other | MIntersect other
  | MIntersectIsChanged other | MSubtract other =>
      ∃ d' vs, is_bitvector z other len d' vs
  | MCopyFrom other =>
      ∃ len' d' vs, is_bitvector z other len' d' vs ∧ len' ≤ len
  | MResize new_length => len < new_length
  end.

(** The length after a mutating operation. *)
Definition length_after (len : Z) (m : Mutation) : Z :=
  match m with
  | MResize new_length => new_length
  | _ => len
  end.

(** What [Union], [UnionIsChanged] and [CopyFrom] ask of their argument for
    the receiver's padding to stay zero: the bits they or or copy into the
    receiver come from an argument whose own padding is zero. *)
Definition argument_padding (z : Zone) (m : Mutation) : Prop :=
  match m with
  | MUnion other | MUnionIsChanged other | MCopyFrom other =>
      ∀ len' d' vs, is_bitvector z other len' d' vs → PaddingZero len' vs
  | _ => True
  end.

(** The state of a zone in which [AddAll] was never called: every object is
    a well-formed BitVector whose padding is zero, and no two objects share
    an array. *)
Definition all_padding_zero (z : Zone) : Prop :=
  (∀ b o, objects z !! b = Some o →
          ∃ ws, is_bitvector z b (length_ o) (data_ o) ws ∧
                PaddingZero (length_ o) ws) ∧
  (∀ b b' o o', objects z !! b = Some o → objects z !! b' = Some o' →
                b ≠ b' → data_ o ≠ data_ o').

End Views.

(** ** Concrete zones

    [zone_10] holds four BitVectors of length 10 on a 64-bit target:
    {2, 5}, {3, 5}, {9} and the empty set. [zone_all_ones] is what
    [new (zone) BitVector(1, zone)] followed by [AddAll()] leaves, and
    [zone_copy_all_ones] what copy-constructing from that BitVector adds. *)

Definition zone_10 : Zone :=
  mkZone [[Some 36]; [Some 40]; [Some 512]; [Some 0]]
         [mkBitVector 10 1 0; mkBitVector 10 1 1; mkBitVector 10 1 2;
          mkBitVector 10 1 3].

Definition all_ones_64 : Z := 18446744073709551615.


Definition zone_copy_all_ones : Zone :=
  mkZone [[Some all_ones_64]; [Some all_ones_64]]
         [mkBitVector 1 1 0; mkBitVector 1 1 1].

(** [zone_mixed] holds two BitVectors of different lengths on a 64-bit
    target: {0, 2} of length 3 on one word, and {0, 2, 64, 67} of length 100
    on two words. *)
Definition zone_mixed : Zone :=
  mkZone [[Some 5]; [Some 5; Some 9]]
         [mkBitVector 3 1 0; mkBitVector 100 2 1].

(** An iterator on the word 36, before any bit is examined. *)
Definition iterator_36 : BitVector.Iterator.t :=
  BitVector.Iterator.mk 0 0 36 (-1).

(** * Properties *)

(** ** Results and loops *)

Lemma for_loop_S {S : Type} (n : nat) (i : Z) (body : Z → S → Res S) (s : S) :
  for_loop (Datatypes.S n) i body s =
  (s' <- body i s ;; for_loop n (i + 1) body s').
Proof. reflexivity. Qed.

(** ** Words *)

Section Words.
Context {arch : Arch}.

Lemma kDataBits_cases : kDataBits = 32 ∨ kDataBits = 64.
Proof. unfold kDataBits. destruct arch; simpl; lia. Qed.

Lemma kDataBits_pos : 0 < kDataBits.
Proof. destruct kDataBits_cases; lia. Qed.

Lemma kDataBitShift_spec : 2 ^ BitVector.kDataBitShift = kDataBits.
Proof. destruct arch; reflexivity. Qed.

Lemma word_ok_high (w t : Z) : word_ok w → kDataBits ≤ t → Z.testbit w t = false.
Proof.
  intros [H0 H1] Ht. pose proof kDataBits_pos.
  rewrite <- (Z.mod_small w (2 ^ kDataBits)) by lia.
  apply Z.mod_pow2_bits_high. lia.
Qed.

Lemma word_ok_bits (w : Z) :
  0 ≤ w → (∀ t, kDataBits ≤ t → Z.testbit w t = false) → word_ok w.
Proof.
  intros H0 Hhigh. pose proof kDataBits_pos.
  assert (w = w mod 2 ^ kDataBits) as ->.
  { apply Z.bits_inj'. intros t Ht.
    destruct (Z.lt_ge_cases t kDataBits).
    - rewrite Z.mod_pow2_bits_low; auto.
    - rewrite Z.mod_pow2_bits_high by lia. auto. }
  apply Z.mod_pos_bound. apply Z.pow_pos_nonneg; lia.
Qed.

Lemma word_ok_0 : word_ok 0.
Proof. split; [lia|]. apply Z.pow_pos_nonneg; [lia|]. pose proof kDataBits_pos. lia. Qed.

Lemma word_ok_lor (a b : Z) : word_ok a → word_ok b → word_ok (Z.lor a b).
Proof.
  intros Ha Hb. apply word_ok_bits.
  - apply Z.lor_nonneg. unfold word_ok in *. lia.
  - intros t Ht. rewrite Z.lor_spec, !word_ok_high; auto.
Qed.

Lemma word_ok_land (a b : Z) : word_ok a → word_ok (Z.land a b).
Proof.
  intros Ha. apply word_ok_bits.
  - apply Z.land_nonneg. unfold word_ok in *. lia.
  - intros t Ht. rewrite Z.land_spec, word_ok_high; auto.
Qed.

Lemma word_ok_uintptr (x : Z) : word_ok (BitVector.uintptr x).
Proof.
  unfold word_ok, BitVector.uintptr. apply Z.mod_pos_bound.
  apply Z.pow_pos_nonneg; [lia|]. pose proof kDataBits_pos. lia.
Qed.

Lemma uintptr_testbit (x t : Z) :
  0 ≤ t →
  Z.testbit (BitVector.uintptr x) t = (t <? kDataBits) && Z.testbit x t.
Proof.
  intros Ht. unfold BitVector.uintptr.
  destruct (Z.ltb_spec t kDataBits).
  - rewrite Z.mod_pow2_bits_low; auto.
  - rewrite Z.mod_pow2_bits_high; auto. pose proof kDataBits_pos. lia.
Qed.

(** [kOne << s], for a shift below the width, is the single bit [s]. *)
Lemma one_shl (s : Z) :
  0 ≤ s < kDataBits → BitVector.uintptr (Z.shiftl BitVector.kOne s) = 2 ^ s.
Proof.
  intros Hs. unfold BitVector.kOne, BitVector.uintptr.
  rewrite Z.shiftl_1_l. apply Z.mod_small. split.
  - apply Z.pow_nonneg. lia.
  - apply Z.pow_lt_mono_r; lia.
Qed.

Lemma land_pow2_eqb (w s : Z) :
  0 ≤ s → negb (Z.land w (2 ^ s) =? 0) = Z.testbit w s.
Proof.
  intros Hs. destruct (Z.testbit w s) eqn:E.
  - destruct (Z.eqb_spec (Z.land w (2 ^ s)) 0) as [H0|]; auto.
    assert (Z.testbit (Z.land w (2 ^ s)) s = true) as Hb.
    { rewrite Z.land_spec, E, Z.pow2_bits_true; auto. }
    rewrite H0, Z.bits_0 in Hb. discriminate.
  - destruct (Z.eqb_spec (Z.land w (2 ^ s)) 0) as [|Hne]; auto.
    exfalso. apply Hne. apply Z.bits_inj'. intros t Ht.
    rewrite Z.land_spec, Z.bits_0, Z.pow2_bits_eqb by lia.
    destruct (Z.eqb_spec s t); subst; rewrite ?E, ?andb_false_r; auto.
Qed.

(** [~(kOne << s)] as a [uintptr_t] clears bit [s] under [&]. *)
Lemma land_not_pow2 (w s : Z) :
  word_ok w → 0 ≤ s →
  Z.land w (BitVector.uintptr (Z.lnot (2 ^ s))) = Z.ldiff w (2 ^ s).
Proof.
  intros Hw Hs. apply Z.bits_inj'. intros t Ht.
  rewrite Z.land_spec, Z.ldiff_spec, uintptr_testbit, Z.lnot_spec by lia.
  destruct (Z.ltb_spec t kDataBits); simpl; auto.
  rewrite word_ok_high; auto.
Qed.

Lemma land_not_word (a b : Z) :
  word_ok a → Z.land a (BitVector.uintptr (Z.lnot b)) = Z.ldiff a b.
Proof.
  intros Ha. apply Z.bits_inj'. intros t Ht.
  rewrite Z.land_spec, Z.ldiff_spec, uintptr_testbit, Z.lnot_spec by lia.
  destruct (Z.ltb_spec t kDataBits); simpl; auto.
  rewrite word_ok_high; auto.
Qed.

Lemma word_ok_ldiff (a b : Z) : word_ok a → word_ok (Z.ldiff a b).
Proof.
  intros Ha. apply word_ok_bits.
  - apply Z.ldiff_nonneg. unfold word_ok in *. lia.
  - intros t Ht. rewrite Z.ldiff_spec, word_ok_high; auto.
Qed.

Lemma word_ok_pow2 (s : Z) : 0 ≤ s < kDataBits → word_ok (2 ^ s).
Proof.
  intros Hs. split; [apply Z.pow_nonneg; lia | apply Z.pow_lt_mono_r; lia].
Qed.

Lemma uintptr_minus_one : BitVector.uintptr (-1) = Z.ones kDataBits.
Proof.
  unfold BitVector.uintptr.
  destruct kDataBits_cases as [-> | ->]; reflexivity.
Qed.

End Words.

(** ** The store *)

Section Store.
Context {arch : Arch}.

Lemma bind_Ret {A B : Type} (a : A) (k : A → Res B) : (x <- Ret a ;; k x) = k a.
Proof. reflexivity. Qed.

Lemma with_array_id (d : nat) (a : list (option Z)) (z : Zone) :
  arrays z !! d = Some a → with_array d a z = z.
Proof.
  destruct z as [arr objs]. unfold with_array. simpl. intros H.
  f_equal. apply list_insert_id. exact H.
Qed.

Lemma with_array_twice (d : nat) (a b : list (option Z)) (z : Zone) :
  with_array d a (with_array d b z) = with_array d a z.
Proof. unfold with_array. simpl. f_equal. apply list_insert_insert_eq. Qed.

Lemma arrays_with_array_eq (d : nat) (a : list (option Z)) (z : Zone) :
  (d < length (arrays z))%nat → arrays (with_array d a z) !! d = Some a.
Proof. intros H. simpl. apply list_lookup_insert_eq. exact H. Qed.

Lemma arrays_with_array_ne (d d' : nat) (a : list (option Z)) (z : Zone) :
  d ≠ d' → arrays (with_array d a z) !! d' = arrays z !! d'.
Proof. intros H. simpl. apply list_lookup_insert_ne. exact H. Qed.

Lemma objects_with_array (d : nat) (a : list (option Z)) (z : Zone) :
  objects (with_array d a z) = objects z.
Proof. reflexivity. Qed.

Lemma deref_with_array (this d : nat) (a : list (option Z)) (z : Zone) :
  deref this (with_array d a z) = deref this z.
Proof. reflexivity. Qed.

Lemma deref_ok (this : nat) (o : BitVector) (z : Zone) :
  objects z !! this = Some o → deref this z = Ret o.
Proof. unfold deref. intros ->. reflexivity. Qed.

Lemma load_ok (p : nat) (i : Z) (z : Zone) (a : list (option Z)) (w : Z) :
  arrays z !! p = Some a → 0 ≤ i → a !! Z.to_nat i = Some (Some w) →
  load p i z = Ret w.
Proof.
  intros Ha Hi Hw. unfold load.
  destruct (Z.ltb_spec i 0); [lia|]. rewrite Ha, Hw. reflexivity.
Qed.

Lemma store_ok (p : nat) (i w : Z) (z : Zone) (a : list (option Z)) :
  arrays z !! p = Some a → 0 ≤ i → (Z.to_nat i < length a)%nat →
  store p i w z = Ret (with_array p (<[Z.to_nat i := Some w]> a) z).
Proof.
  intros Ha Hi Hlen. unfold store.
  destruct (Z.ltb_spec i 0); [lia|]. rewrite Ha.
  rewrite bool_decide_true by exact Hlen. reflexivity.
Qed.

(** A loop whose round [i] computes a word and stores it at index [i]. *)
Lemma for_loop_store (d : nat) (body : Z → Zone → Res Zone)
    (val : Z → Zone → Res Z) (old : list (option Z)) :
  (∀ i z, body i z = (w <- val i z ;; store d i w z)) →
  ∀ (new : list Z) (pre post : list (option Z)) (z : Zone),
  length new = length old →
  arrays z !! d = Some (pre ++ old ++ post) →
  (∀ k w, new !! k = Some w →
     val (Z.of_nat (length pre + k)) (with_array d (midway pre old post new k) z)
     = Ret w) →
  for_loop (length old) (Z.of_nat (length pre)) body z
  = Ret (with_array d (pre ++ (Some <$> new) ++ post) z).
Proof.
  intros Hbody. induction old as [|o old IH]; intros new pre post z Hlen Harr Hval.
  - destruct new; [|discriminate]. simpl.
    rewrite with_array_id; auto.
  - destruct new as [|w new]; [discriminate|].
    change (length (o :: old)) with (S (length old)).
    rewrite for_loop_S, Hbody.
    pose proof (Hval 0%nat w eq_refl) as H0.
    unfold midway in H0. simpl in H0. rewrite Nat.add_0_r in H0.
    rewrite with_array_id in H0 by exact Harr. rewrite H0, bind_Ret.
    erewrite store_ok; [|exact Harr|lia|].
    2:{ rewrite Nat2Z.id, length_app. simpl. lia. }
    rewrite bind_Ret, Nat2Z.id.
    replace (<[length pre:=Some w]> (pre ++ (o :: old) ++ post))
      with ((pre ++ [Some w]) ++ old ++ post).
    2:{ rewrite <- (Nat.add_0_r (length pre)), insert_app_r. simpl.
        rewrite <- app_assoc. reflexivity. }
    replace (Z.of_nat (length pre) + 1) with (Z.of_nat (length (pre ++ [Some w]))).
    2:{ rewrite length_app. simpl. lia. }
    rewrite (IH new (pre ++ [Some w]) post).
    + rewrite with_array_twice. f_equal. f_equal.
      rewrite <- app_assoc. reflexivity.
    + simpl in Hlen. lia.
    + apply arrays_with_array_eq. apply lookup_lt_Some in Harr. exact Harr.
    + intros k w' Hk. rewrite with_array_twice.
      specialize (Hval (S k) w' Hk).
      replace (length (pre ++ [Some w]) + k)%nat with (length pre + S k)%nat.
      2:{ rewrite length_app. simpl. lia. }
      rewrite <- Hval. f_equal. f_equal. unfold midway. simpl.
      rewrite <- app_assoc. reflexivity.
Qed.

(** The same loop over a whole array. *)
Lemma for_int_store (d : nat) (body : Z → Zone → Res Zone)
    (val : Z → Zone → Res Z) (old : list (option Z)) (new : list Z)
    (n : Z) (z : Zone) :
  (∀ i z, body i z = (w <- val i z ;; store d i w z)) →
  length new = length old →
  n = Z.of_nat (length old) →
  arrays z !! d = Some old →
  (∀ k w, new !! k = Some w →
     val (Z.of_nat k)
       (with_array d ((Some <$> take k new) ++ drop k old) z) = Ret w) →
  for_int 0 n body z = Ret (with_array d (Some <$> new) z).
Proof.
  intros Hbody Hlen -> Harr Hval. unfold for_int.
  rewrite Z.sub_0_r, Nat2Z.id.
  pose proof (for_loop_store d body val old Hbody new [] [] z Hlen) as H.
  simpl in H. rewrite !app_nil_r in H. apply H; auto.
  intros k w Hk. unfold midway. simpl. rewrite app_nil_r. auto.
Qed.

End Store.

(** ** Sizes and indices *)

Section Sizes.
Context {arch : Arch}.

Lemma SizeFor_div (len : Z) :
  0 < len → BitVector.SizeFor len = 1 + (len - 1) / kDataBits.
Proof.
  intros H. unfold BitVector.SizeFor. pose proof kDataBits_pos.
  destruct (Z.eqb_spec len 0); [lia|].
  rewrite Z.quot_div_nonneg by lia. reflexivity.
Qed.

Lemma SizeFor_0 : BitVector.SizeFor 0 = 1.
Proof. reflexivity. Qed.

Lemma SizeFor_pos (len : Z) : 0 ≤ len → 1 ≤ BitVector.SizeFor len.
Proof.
  intros H. pose proof kDataBits_pos.
  destruct (Z.eq_dec len 0) as [->|]; [rewrite SizeFor_0; lia|].
  rewrite SizeFor_div by lia.
  pose proof (Z.div_pos (len - 1) kDataBits). lia.
Qed.

(** The array covers the length ... *)
Lemma SizeFor_covers (len : Z) :
  0 ≤ len → len ≤ BitVector.SizeFor len * kDataBits.
Proof.
  intros H. pose proof kDataBits_pos.
  destruct (Z.eq_dec len 0) as [->|]; [rewrite SizeFor_0; lia|].
  rewrite SizeFor_div by lia.
  pose proof (Z.div_mod (len - 1) kDataBits).
  pose proof (Z.mod_pos_bound (len - 1) kDataBits). lia.
Qed.

(** ... and its last word holds at least one bit below the length, unless the
    length is zero. *)
Lemma SizeFor_tight (len : Z) :
  0 < len → (BitVector.SizeFor len - 1) * kDataBits < len.
Proof.
  intros H. pose proof kDataBits_pos. rewrite SizeFor_div by lia.
  pose proof (Z.div_mod (len - 1) kDataBits).
  pose proof (Z.mod_pos_bound (len - 1) kDataBits). lia.
Qed.

Lemma SizeFor_mono (a b : Z) :
  0 ≤ a ≤ b → BitVector.SizeFor a ≤ BitVector.SizeFor b.
Proof.
  intros H. pose proof kDataBits_pos.
  destruct (Z.eq_dec a 0) as [->|]; [rewrite SizeFor_0; apply SizeFor_pos; lia|].
  rewrite !SizeFor_div by lia.
  pose proof (Z.div_le_mono (a - 1) (b - 1) kDataBits). lia.
Qed.

Lemma word_index_range (len i : Z) :
  0 ≤ i < len → 0 ≤ i / kDataBits < BitVector.SizeFor len.
Proof.
  intros H. pose proof kDataBits_pos. split.
  - apply Z.div_pos; lia.
  - rewrite SizeFor_div by lia.
    pose proof (Z.div_le_mono i (len - 1) kDataBits). lia.
Qed.

Lemma bit_index_range (i : Z) : 0 ≤ i mod kDataBits < kDataBits.
Proof. apply Z.mod_pos_bound. apply kDataBits_pos. Qed.

Lemma quot_rem_index (i : Z) :
  0 ≤ i → i ÷ kDataBits = i / kDataBits ∧ Z.rem i kDataBits = i mod kDataBits.
Proof.
  intros H. pose proof kDataBits_pos. split.
  - apply Z.quot_div_nonneg; lia.
  - apply Z.rem_mod_nonneg; lia.
Qed.

(** Two indices are equal when they name the same bit of the same word. *)
Lemma index_eq (i j : Z) :
  i / kDataBits = j / kDataBits → i mod kDataBits = j mod kDataBits → i = j.
Proof.
  intros Hq Hr. pose proof kDataBits_pos.
  rewrite (Z.div_mod i kDataBits), (Z.div_mod j kDataBits) by lia.
  rewrite Hq, Hr. reflexivity.
Qed.

End Sizes.

(** ** Word arrays *)

Section WordArrays.
Context {arch : Arch}.

Lemma word_at_lookup (ws : list Z) (k w : Z) :
  ws !! Z.to_nat k = Some w → word_at ws k = w.
Proof. unfold word_at. intros ->. reflexivity. Qed.

Lemma word_at_ok (ws : list Z) (k : Z) : Forall word_ok ws → word_ok (word_at ws k).
Proof.
  intros H. unfold word_at. destruct (ws !! Z.to_nat k) as [w|] eqn:E; simpl.
  - rewrite Forall_lookup in H. eauto.
  - apply word_ok_0.
Qed.

Lemma word_at_lt (ws : list Z) (k : Z) :
  0 ≤ k < Z.of_nat (length ws) → ws !! Z.to_nat k = Some (word_at ws k).
Proof.
  intros H. unfold word_at.
  destruct (lookup_lt_is_Some_2 ws (Z.to_nat k)) as [w ->]; [lia|]. reflexivity.
Qed.

Lemma word_at_ge (ws : list Z) (k : Z) :
  Z.of_nat (length ws) ≤ k → word_at ws k = 0.
Proof.
  intros H. unfold word_at. rewrite lookup_ge_None_2; [reflexivity|lia].
Qed.

Lemma word_at_insert (ws : list Z) (k k' w : Z) :
  0 ≤ k < Z.of_nat (length ws) → 0 ≤ k' →
  word_at (<[Z.to_nat k := w]> ws) k' = if k' =? k then w else word_at ws k'.
Proof.
  intros Hk Hk'. unfold word_at. destruct (Z.eqb_spec k' k) as [->|Hne].
  - rewrite list_lookup_insert_eq by lia. reflexivity.
  - rewrite list_lookup_insert_ne by lia. reflexivity.
Qed.

Lemma bit_set_bit (ws : list Z) (i j : Z) :
  0 ≤ i → i / kDataBits < Z.of_nat (length ws) → 0 ≤ j →
  bit (set_bit ws i) j = if j =? i then true else bit ws j.
Proof.
  intros Hi Hlen Hj. pose proof kDataBits_pos.
  pose proof (bit_index_range i). pose proof (bit_index_range j).
  unfold bit, set_bit.
  rewrite word_at_insert; [| split; [apply Z.div_pos|]; lia | apply Z.div_pos; lia].
  destruct (Z.eqb_spec (j / kDataBits) (i / kDataBits)) as [Hq|Hq].
  - rewrite Z.lor_spec, Z.pow2_bits_eqb by lia.
    destruct (Z.eqb_spec (i mod kDataBits) (j mod kDataBits)) as [Hr|Hr].
    + rewrite (index_eq j i) by auto. rewrite Z.eqb_refl, orb_true_r. reflexivity.
    + destruct (Z.eqb_spec j i) as [->|]; [congruence|].
      rewrite orb_false_r, Hq. reflexivity.
  - destruct (Z.eqb_spec j i) as [->|]; [congruence|]. reflexivity.
Qed.

Lemma bit_clear_bit (ws : list Z) (i j : Z) :
  0 ≤ i → i / kDataBits < Z.of_nat (length ws) → 0 ≤ j →
  bit (clear_bit ws i) j = if j =? i then false else bit ws j.
Proof.
  intros Hi Hlen Hj. pose proof kDataBits_pos.
  pose proof (bit_index_range i). pose proof (bit_index_range j).
  unfold bit, clear_bit.
  rewrite word_at_insert; [| split; [apply Z.div_pos|]; lia | apply Z.div_pos; lia].
  destruct (Z.eqb_spec (j / kDataBits) (i / kDataBits)) as [Hq|Hq].
  - rewrite Z.ldiff_spec, Z.pow2_bits_eqb by lia.
    destruct (Z.eqb_spec (i mod kDataBits) (j mod kDataBits)) as [Hr|Hr].
    + rewrite (index_eq j i) by auto. rewrite Z.eqb_refl, andb_false_r. reflexivity.
    + destruct (Z.eqb_spec j i) as [->|]; [congruence|].
      simpl. rewrite andb_true_r, Hq. reflexivity.
  - destruct (Z.eqb_spec j i) as [->|]; [congruence|]. reflexivity.
Qed.

Lemma Forall_word_ok_insert (ws : list Z) (k : nat) (w : Z) :
  Forall word_ok ws → word_ok w → Forall word_ok (<[k := w]> ws).
Proof. intros. apply Forall_insert; auto. Qed.

End WordArrays.

(** ** Single-bit operations *)

Section SingleBit.
Context {arch : Arch}.

Lemma is_bitvector_update (z : Zone) (this : nat) (len : Z) (d : nat)
    (ws ws' : list Z) :
  is_bitvector z this len d ws → length ws' = length ws → Forall word_ok ws' →
  is_bitvector (with_array d (Some <$> ws') z) this len d ws'.
Proof.
  intros (Hobj & Harr & Hlen & H0 & Hok) Hlen' Hok'.
  repeat split; auto; try lia.
  apply arrays_with_array_eq. apply lookup_lt_Some in Harr. exact Harr.
Qed.

Lemma is_bitvector_word (z : Zone) (this : nat) (len : Z) (d : nat)
    (ws : list Z) (i : Z) :
  is_bitvector z this len d ws → 0 ≤ i < len →
  (Some <$> ws) !! Z.to_nat (i / kDataBits)
    = Some (Some (word_at ws (i / kDataBits))) ∧
  (Z.to_nat (i / kDataBits) < length (Some <$> ws))%nat.
Proof.
  intros (Hobj & Harr & Hlen & H0 & Hok) Hi.
  pose proof (word_index_range len i Hi).
  rewrite list_lookup_fmap, word_at_lt by lia.
  split; [reflexivity|]. rewrite length_fmap. lia.
Qed.

Lemma Contains_spec (z : Zone) (this : nat) (len : Z) (d : nat)
    (ws : list Z) (i : Z) :
  is_bitvector z this len d ws → 0 ≤ i < len →
  BitVector.Contains this i z = Ret (bit ws i).
Proof.
  intros Hbv Hi. pose proof (is_bitvector_word _ _ _ _ _ _ Hbv Hi) as [Hw _].
  destruct Hbv as (Hobj & Harr & Hlen & H0 & Hok).
  pose proof (word_index_range len i Hi). pose proof (bit_index_range i).
  destruct (quot_rem_index i) as [Hq Hr]; [lia|].
  unfold BitVector.Contains. rewrite (deref_ok _ _ _ Hobj), bind_Ret. simpl.
  destruct (Z.leb_spec 0 i); [|lia]. destruct (Z.ltb_spec i len); [|lia]. simpl.
  rewrite Hq, Hr. erewrite load_ok; [|exact Harr|lia|exact Hw].
  rewrite bind_Ret, one_shl, land_pow2_eqb by lia. reflexivity.
Qed.

Lemma Add_spec (z : Zone) (this : nat) (len : Z) (d : nat) (ws : list Z)
    (i : Z) :
  is_bitvector z this len d ws → 0 ≤ i < len →
  BitVector.Add this i z = Ret (with_array d (Some <$> set_bit ws i) z).
Proof.
  intros Hbv Hi. pose proof (is_bitvector_word _ _ _ _ _ _ Hbv Hi) as [Hw Hl].
  destruct Hbv as (Hobj & Harr & Hlen & H0 & Hok).
  pose proof (word_index_range len i Hi). pose proof (bit_index_range i).
  destruct (quot_rem_index i) as [Hq Hr]; [lia|].
  unfold BitVector.Add. rewrite (deref_ok _ _ _ Hobj), bind_Ret. simpl.
  destruct (Z.leb_spec 0 i); [|lia]. destruct (Z.ltb_spec i len); [|lia]. simpl.
  rewrite Hq, Hr. erewrite load_ok; [|exact Harr|lia|exact Hw].
  rewrite bind_Ret, one_shl by lia.
  erewrite store_ok; [|exact Harr|lia|exact Hl].
  unfold set_bit. rewrite list_fmap_insert. reflexivity.
Qed.

Lemma Remove_spec (z : Zone) (this : nat) (len : Z) (d : nat) (ws : list Z)
    (i : Z) :
  is_bitvector z this len d ws → 0 ≤ i < len →
  BitVector.Remove this i z = Ret (with_array d (Some <$> clear_bit ws i) z).
Proof.
  intros Hbv Hi. pose proof (is_bitvector_word _ _ _ _ _ _ Hbv Hi) as [Hw Hl].
  destruct Hbv as (Hobj & Harr & Hlen & H0 & Hok).
  pose proof (word_index_range len i Hi). pose proof (bit_index_range i).
  destruct (quot_rem_index i) as [Hq Hr]; [lia|].
  unfold BitVector.Remove. rewrite (deref_ok _ _ _ Hobj), bind_Ret. simpl.
  destruct (Z.leb_spec 0 i); [|lia]. destruct (Z.ltb_spec i len); [|lia]. simpl.
  rewrite Hq, Hr. erewrite load_ok; [|exact Harr|lia|exact Hw].
  rewrite bind_Ret, one_shl by lia.
  rewrite land_not_pow2; [| apply word_at_ok; exact Hok | lia].
  erewrite store_ok; [|exact Harr|lia|exact Hl].
  unfold clear_bit. rewrite list_fmap_insert. reflexivity.
Qed.

Lemma set_bit_ok (ws : list Z) (i : Z) :
  Forall word_ok ws → length (set_bit ws i) = length ws ∧ Forall word_ok (set_bit ws i).
Proof.
  intros Hok. unfold set_bit. rewrite length_insert. split; [reflexivity|].
  apply Forall_insert; auto. apply word_ok_lor.
  - apply word_at_ok; auto.
  - apply word_ok_pow2. apply bit_index_range.
Qed.

Lemma clear_bit_ok (ws : list Z) (i : Z) :
  Forall word_ok ws →
  length (clear_bit ws i) = length ws ∧ Forall word_ok (clear_bit ws i).
Proof.
  intros Hok. unfold clear_bit. rewrite length_insert. split; [reflexivity|].
  apply Forall_insert; auto. apply word_ok_ldiff. apply word_at_ok; auto.
Qed.

Lemma is_bitvector_set_bit (z : Zone) (this : nat) (len : Z) (d : nat)
    (ws : list Z) (i : Z) :
  is_bitvector z this len d ws →
  is_bitvector (with_array d (Some <$> set_bit ws i) z) this len d (set_bit ws i).
Proof.
  intros Hbv. destruct (set_bit_ok ws i) as [Hl Hok]; [apply Hbv|].
  eapply is_bitvector_update; eauto.
Qed.

Lemma is_bitvector_clear_bit (z : Zone) (this : nat) (len : Z) (d : nat)
    (ws : list Z) (i : Z) :
  is_bitvector z this len d ws →
  is_bitvector (with_array d (Some <$> clear_bit ws i) z) this len d
    (clear_bit ws i).
Proof.
  intros Hbv. destruct (clear_bit_ok ws i) as [Hl Hok]; [apply Hbv|].
  eapply is_bitvector_update; eauto.
Qed.

(** C1. For a BitVector of length [len] and an index [0 <= i < len]: after
    [Add(i)], [Contains(i)] is true; after [Remove(i)], [Contains(i)] is
    false; and for every other valid index [j], [Contains(j)] returns what it
    returned before the [Add(i)] or [Remove(i)]. *)
Theorem Add_Remove_Contains (z : Zone) (this : nat) (len : Z) (d : nat)
    (ws : list Z) (i : Z) :
  is_bitvector z this len d ws → 0 ≤ i < len →
  (∃ z', BitVector.Add this i z = Ret z' ∧
         BitVector.Contains this i z' = Ret true ∧
         ∀ j, 0 ≤ j < len → j ≠ i →
              BitVector.Contains this j z' = BitVector.Contains this j z) ∧
  (∃ z', BitVector.Remove this i z = Ret z' ∧
         BitVector.Contains this i z' = Ret false ∧
         ∀ j, 0 ≤ j < len → j ≠ i →
              BitVector.Contains this j z' = BitVector.Contains this j z).
Proof.
  intros Hbv Hi.
  assert (i / kDataBits < Z.of_nat (length ws)) as Hw.
  { destruct Hbv as (_ & _ & Hlen & _). pose proof (word_index_range len i Hi). lia. }
  split; eexists; (split; [eauto using Add_spec, Remove_spec|]).
  - pose proof (is_bitvector_set_bit _ _ _ _ _ i Hbv) as Hbv'. split.
    + rewrite (Contains_spec _ _ _ _ _ _ Hbv' Hi), bit_set_bit, Z.eqb_refl by lia.
      reflexivity.
    + intros j Hj Hne.
      rewrite (Contains_spec _ _ _ _ _ _ Hbv' Hj), (Contains_spec _ _ _ _ _ _ Hbv Hj).
      rewrite bit_set_bit by lia. destruct (Z.eqb_spec j i); [lia|reflexivity].
  - pose proof (is_bitvector_clear_bit _ _ _ _ _ i Hbv) as Hbv'. split.
    + rewrite (Contains_spec _ _ _ _ _ _ Hbv' Hi), bit_clear_bit, Z.eqb_refl by lia.
      reflexivity.
    + intros j Hj Hne.
      rewrite (Contains_spec _ _ _ _ _ _ Hbv' Hj), (Contains_spec _ _ _ _ _ _ Hbv Hj).
      rewrite bit_clear_bit by lia. destruct (Z.eqb_spec j i); [lia|reflexivity].
Qed.

End SingleBit.

(** ** Whole-array operations *)

Section WholeArray.
Context {arch : Arch}.

Lemma midway_lookup (new : list Z) (old : list (option Z)) (k : nat) :
  length new = length old → (k < length old)%nat →
  ((Some <$> take k new) ++ drop k old) !! k = old !! k.
Proof.
  intros Hlen Hk. rewrite lookup_app_r; rewrite length_fmap, length_take; [|lia].
  rewrite lookup_drop. f_equal. lia.
Qed.

Lemma midway_length (new : list Z) (old : list (option Z)) (k : nat) :
  length new = length old →
  length ((Some <$> take k new) ++ drop k old) = length old.
Proof.
  intros Hlen. rewrite length_app, length_fmap, length_take, length_drop. lia.
Qed.

(** A loop that stores the same word everywhere ([Clear], [AddAll]). *)
Lemma fill_spec (c : Z) (d : nat) (a : list (option Z)) (n : Z) (z : Zone) :
  arrays z !! d = Some a → n = Z.of_nat (length a) →
  for_int 0 n (fun i z => store d i c z) z
  = Ret (with_array d (Some <$> replicate (length a) c) z).
Proof.
  intros Harr Hn.
  apply (for_int_store d _ (fun _ _ => Ret c) a); auto.
  - rewrite length_replicate. reflexivity.
  - intros k w Hk. apply lookup_replicate in Hk as [-> _]. reflexivity.
Qed.

Lemma Clear_spec (z : Zone) (this : nat) (o : BitVector) (a : list (option Z)) :
  objects z !! this = Some o → arrays z !! data_ o = Some a →
  data_length_ o = Z.of_nat (length a) →
  BitVector.Clear this z
  = Ret (with_array (data_ o) (Some <$> replicate (length a) 0) z).
Proof.
  intros Hobj Harr Hlen. unfold BitVector.Clear.
  rewrite (deref_ok _ _ _ Hobj), bind_Ret. apply fill_spec; auto.
Qed.

Lemma AddAll_spec (z : Zone) (this : nat) (o : BitVector) (a : list (option Z)) :
  objects z !! this = Some o → arrays z !! data_ o = Some a →
  data_length_ o = Z.of_nat (length a) →
  BitVector.AddAll this z
  = Ret (with_array (data_ o)
           (Some <$> replicate (length a) (Z.ones kDataBits)) z).
Proof.
  intros Hobj Harr Hlen. unfold BitVector.AddAll.
  rewrite (deref_ok _ _ _ Hobj), bind_Ret, uintptr_minus_one.
  apply fill_spec; auto.
Qed.

Lemma word_ok_ones : word_ok (Z.ones kDataBits).
Proof.
  unfold word_ok. rewrite Z.ones_equiv. pose proof kDataBits_pos.
  assert (0 < 2 ^ kDataBits) by (apply Z.pow_pos_nonneg; lia). lia.
Qed.

Lemma insert_last {A : Type} (l : list A) (x y : A) :
  <[length l := y]> (l ++ [x]) = l ++ [y].
Proof.
  rewrite <- (Nat.add_0_r (length l)), insert_app_r. reflexivity.
Qed.

Lemma lookup_last {A : Type} (l : list A) (x : A) :
  (l ++ [x]) !! length l = Some x.
Proof.
  rewrite lookup_app_r by lia. rewrite Nat.sub_diag. reflexivity.
Qed.

Lemma new_spec (len : Z) (z : Zone) :
  0 ≤ len →
  BitVector.new len z = Ret (length (objects z), zone_after_new len z).
Proof.
  intros Hlen. unfold BitVector.new, NewArray, new_object. simpl.
  destruct (Z.leb_spec 0 len); [|lia].
  rewrite (Clear_spec _ _
             (mkBitVector len (BitVector.SizeFor len) (length (arrays z)))
             (replicate (Z.to_nat (BitVector.SizeFor len)) None)).
  - rewrite bind_Ret. unfold with_array, zone_after_new. simpl.
    rewrite insert_last, length_replicate. reflexivity.
  - simpl. apply lookup_last.
  - simpl. apply lookup_last.
  - simpl. rewrite length_replicate.
    pose proof (SizeFor_pos len Hlen). lia.
Qed.

Lemma Forall_word_ok_replicate (n : nat) (w : Z) :
  word_ok w → Forall word_ok (replicate n w).
Proof. intros H. apply Forall_replicate. exact H. Qed.

Lemma is_bitvector_new (len : Z) (z : Zone) :
  0 ≤ len →
  is_bitvector (zone_after_new len z) (length (objects z)) len
    (length (arrays z)) (replicate (Z.to_nat (BitVector.SizeFor len)) 0).
Proof.
  intros Hlen. pose proof (SizeFor_pos len Hlen).
  unfold zone_after_new. repeat split; simpl; try lia.
  - apply lookup_last.
  - apply lookup_last.
  - rewrite length_replicate. lia.
  - apply Forall_word_ok_replicate, word_ok_0.
Qed.

(** Cells that exist keep their contents when a BitVector is constructed. *)
Lemma objects_after_new (len : Z) (z : Zone) (b : nat) (o : BitVector) :
  objects z !! b = Some o → objects (zone_after_new len z) !! b = Some o.
Proof. intros H. simpl. apply lookup_app_l_Some. exact H. Qed.

Lemma arrays_after_new (len : Z) (z : Zone) (d : nat) (a : list (option Z)) :
  arrays z !! d = Some a → arrays (zone_after_new len z) !! d = Some a.
Proof. intros H. simpl. apply lookup_app_l_Some. exact H. Qed.

Lemma is_bitvector_after_new (len : Z) (z : Zone) (b : nat) (l : Z) (d : nat)
    (ws : list Z) :
  is_bitvector z b l d ws → is_bitvector (zone_after_new len z) b l d ws.
Proof.
  intros (Hobj & Harr & H). repeat split; try apply H.
  - apply objects_after_new; auto.
  - apply arrays_after_new; auto.
Qed.

Lemma bit_zeros (n : nat) (i : Z) : bit (replicate n 0) i = false.
Proof.
  unfold bit, word_at.
  destruct (replicate n 0 !! Z.to_nat (i / kDataBits)) as [w|] eqn:E; simpl.
  - apply lookup_replicate in E as [-> _]. apply Z.bits_0.
  - apply Z.bits_0.
Qed.

Lemma bit_app_zeros (ws : list Z) (n : nat) (i : Z) :
  bit (ws ++ replicate n 0) i = bit ws i.
Proof.
  unfold bit, word_at. set (k := Z.to_nat (i / kDataBits)).
  destruct (decide (k < length ws)%nat).
  - rewrite lookup_app_l by lia. reflexivity.
  - rewrite lookup_app_r by lia. rewrite (lookup_ge_None_2 ws) by lia.
    destruct (replicate n 0 !! (k - length ws)%nat) as [w|] eqn:E; simpl.
    + apply lookup_replicate in E as [-> _]. reflexivity.
    + reflexivity.
Qed.

Lemma bit_ones (n : nat) (i : Z) :
  0 ≤ i < Z.of_nat n * kDataBits →
  bit (replicate n (Z.ones kDataBits)) i = true.
Proof.
  intros Hi. pose proof kDataBits_pos. pose proof (bit_index_range i).
  assert (0 ≤ i / kDataBits < Z.of_nat n).
  { split; [apply Z.div_pos; lia | apply Z.div_lt_upper_bound; lia]. }
  unfold bit, word_at. rewrite lookup_replicate_2 by lia. simpl.
  apply Z.ones_spec_low. lia.
Qed.

End WholeArray.

(** ** Copying and resizing *)

Section Copying.
Context {arch : Arch}.

Lemma load_with_array_ne (d src : nat) (a : list (option Z)) (i : Z) (z : Zone) :
  d ≠ src → load src i (with_array d a z) = load src i z.
Proof.
  intros Hne. unfold load. rewrite arrays_with_array_ne by exact Hne. reflexivity.
Qed.

Lemma CopyFrom_data_spec (z : Zone) (this : nat) (o : BitVector)
    (a : list (option Z)) (src : nat) (vs : list Z) (n : Z) :
  objects z !! this = Some o → arrays z !! data_ o = Some a →
  data_length_ o = Z.of_nat (length a) →
  arrays z !! src = Some (Some <$> vs) → src ≠ data_ o →
  n = Z.of_nat (length vs) → (length vs ≤ length a)%nat →
  BitVector.CopyFrom_data this src n z
  = Ret (with_array (data_ o)
           (Some <$> (vs ++ replicate (length a - length vs) 0)) z).
Proof.
  intros Hobj Harr Hdl Hsrc Hne -> Hle. unfold BitVector.CopyFrom_data.
  rewrite (deref_ok _ _ _ Hobj), bind_Ret.
  destruct (Z.leb_spec (Z.of_nat (length vs)) (data_length_ o)); [|lia].
  set (d := data_ o) in *.
  (* the copy loop *)
  unfold for_int at 1.
  replace (Z.to_nat (Z.of_nat (length vs) - 0))
    with (length (take (length vs) a)) by (rewrite length_take; lia).
  change 0 with (Z.of_nat (length (@nil (option Z)))) at 1.
  rewrite (for_loop_store d _ (fun i z => load src i z) (take (length vs) a)
             (fun _ _ => eq_refl) vs [] (drop (length vs) a)).
  2:{ rewrite length_take. lia. }
  2:{ simpl. rewrite take_drop. exact Harr. }
  2:{ intros k w Hk. rewrite load_with_array_ne by auto. simpl.
      eapply load_ok; [exact Hsrc|lia|].
      rewrite Nat2Z.id, list_lookup_fmap, Hk. reflexivity. }
  rewrite bind_Ret. simpl.
  (* the zero-fill loop *)
  unfold for_int.
  replace (Z.to_nat (data_length_ o - Z.of_nat (length vs)))
    with (length (drop (length vs) a)) by (rewrite length_drop; lia).
  replace (Z.of_nat (length vs))
    with (Z.of_nat (length (Some <$> vs))) by (rewrite length_fmap; reflexivity).
  rewrite (for_loop_store d _ (fun _ _ => Ret 0) (drop (length vs) a)
             (fun _ _ => eq_refl) (replicate (length a - length vs) 0)
             (Some <$> vs) []).
  - rewrite with_array_twice, app_nil_r, fmap_app. reflexivity.
  - rewrite length_replicate, length_drop. reflexivity.
  - rewrite app_nil_r. apply arrays_with_array_eq.
    apply lookup_lt_Some in Harr. exact Harr.
  - intros k w Hk. apply lookup_replicate in Hk as [-> _]. reflexivity.
Qed.

Lemma new_copy_spec (z : Zone) (other : nat) (len : Z) (d : nat)
    (ws : list Z) :
  is_bitvector z other len d ws →
  BitVector.new_copy other z
  = Ret (length (objects z), zone_after_copy len ws z).
Proof.
  intros (Hobj & Harr & Hlen & H0 & Hok). unfold BitVector.new_copy.
  rewrite (deref_ok _ _ _ Hobj), bind_Ret. simpl.
  unfold BitVector.CopyFrom. unfold deref at 1. simpl.
  rewrite lookup_last, bind_Ret.
  unfold deref at 1. simpl. rewrite (lookup_app_l_Some _ _ _ _ Hobj), bind_Ret.
  simpl. destruct (Z.leb_spec len len); [|lia].
  pose proof (lookup_lt_Some _ _ _ Harr) as Hd.
  rewrite (CopyFrom_data_spec _ _
             (mkBitVector len (BitVector.SizeFor len) (length (arrays z)))
             (replicate (Z.to_nat (BitVector.SizeFor len)) None) d ws).
  - rewrite bind_Ret. unfold with_array, zone_after_copy. simpl.
    rewrite insert_last, length_replicate.
    replace (Z.to_nat (BitVector.SizeFor len) - length ws)%nat with 0%nat by lia.
    simpl. rewrite app_nil_r. reflexivity.
  - simpl. apply lookup_last.
  - simpl. apply lookup_last.
  - simpl. rewrite length_replicate. lia.
  - simpl. apply lookup_app_l_Some. exact Harr.
  - simpl. lia.
  - lia.
  - rewrite length_replicate. lia.
Qed.

Lemma is_bitvector_copy (z : Zone) (other : nat) (len : Z) (d : nat)
    (ws : list Z) :
  is_bitvector z other len d ws →
  is_bitvector (zone_after_copy len ws z) (length (objects z)) len
    (length (arrays z)) ws ∧
  is_bitvector (zone_after_copy len ws z) other len d ws.
Proof.
  intros (Hobj & Harr & Hlen & H0 & Hok). split.
  - repeat split; simpl; auto using lookup_last.
  - repeat split; simpl; auto using lookup_app_l_Some.
Qed.

Lemma Resize_spec (z : Zone) (this : nat) (len : Z) (d : nat) (ws : list Z)
    (new_length : Z) :
  is_bitvector z this len d ws → len < new_length →
  BitVector.Resize this new_length z
  = Ret (zone_after_Resize this len new_length d ws z).
Proof.
  intros (Hobj & Harr & Hlen & H0 & Hok) Hnew. unfold BitVector.Resize.
  rewrite (deref_ok _ _ _ Hobj), bind_Ret. simpl.
  destruct (Z.gtb_spec new_length len); [|lia].
  pose proof (SizeFor_mono len new_length ltac:(lia)) as Hmono.
  pose proof (lookup_lt_Some _ _ _ Harr) as Hd.
  pose proof (lookup_lt_Some _ _ _ Hobj) as Hthis.
  unfold zone_after_Resize.
  destruct (Z.gtb_spec (BitVector.SizeFor new_length) (BitVector.SizeFor len)).
  - unfold NewArray.
    rewrite (CopyFrom_data_spec _ _
               (mkBitVector len (BitVector.SizeFor new_length) (length (arrays z)))
               (replicate (Z.to_nat (BitVector.SizeFor new_length)) None) d ws).
    + rewrite bind_Ret. unfold deref, with_array, assign. simpl.
      rewrite list_lookup_insert_eq by exact Hthis. rewrite bind_Ret. simpl.
      rewrite insert_last, list_insert_insert_eq, length_replicate.
      unfold resized_words.
      replace (Z.to_nat (BitVector.SizeFor new_length) - length ws)%nat
        with (Z.to_nat (BitVector.SizeFor new_length - BitVector.SizeFor len))
        by lia.
      reflexivity.
    + simpl. apply list_lookup_insert_eq. exact Hthis.
    + simpl. apply lookup_last.
    + simpl. rewrite length_replicate. lia.
    + simpl. apply lookup_app_l_Some. exact Harr.
    + simpl. lia.
    + lia.
    + rewrite length_replicate. lia.
  - rewrite bind_Ret, (deref_ok _ _ _ Hobj), bind_Ret. reflexivity.
Qed.

Lemma is_bitvector_Resize (z : Zone) (this : nat) (len : Z) (d : nat)
    (ws : list Z) (new_length : Z) :
  is_bitvector z this len d ws → len < new_length →
  is_bitvector (zone_after_Resize this len new_length d ws z) this new_length
    (data_after_Resize len new_length d z) (resized_words len new_length ws).
Proof.
  intros (Hobj & Harr & Hlen & H0 & Hok) Hnew.
  pose proof (SizeFor_mono len new_length ltac:(lia)) as Hmono.
  pose proof (lookup_lt_Some _ _ _ Hobj) as Hthis.
  unfold zone_after_Resize, data_after_Resize, resized_words.
  destruct (Z.gtb_spec (BitVector.SizeFor new_length) (BitVector.SizeFor len)).
  - repeat split; simpl; try lia.
    + apply list_lookup_insert_eq. exact Hthis.
    + apply lookup_last.
    + rewrite length_app, length_replicate. lia.
    + apply Forall_app. split; [exact Hok|].
      apply Forall_word_ok_replicate, word_ok_0.
  - replace (Z.to_nat (BitVector.SizeFor new_length - BitVector.SizeFor len))
      with 0%nat by lia.
    simpl. rewrite app_nil_r.
    assert (BitVector.SizeFor new_length = BitVector.SizeFor len) as Heq by lia.
    repeat split; simpl; try lia; auto.
    rewrite Heq. apply list_lookup_insert_eq. exact Hthis.
Qed.

Lemma bit_resized_words (len new_length : Z) (ws : list Z) (i : Z) :
  bit (resized_words len new_length ws) i = bit ws i.
Proof. apply bit_app_zeros. Qed.

End Copying.

(** ** Padding and Resize *)

Section Padding.
Context {arch : Arch}.

Lemma bit_beyond (ws : list Z) (i : Z) :
  Z.of_nat (length ws) * kDataBits ≤ i → bit ws i = false.
Proof.
  intros Hi. pose proof kDataBits_pos. unfold bit.
  rewrite word_at_ge; [apply Z.bits_0|].
  apply Z.div_le_lower_bound; lia.
Qed.

Lemma padding_zerob_spec (len : Z) (ws : list Z) :
  padding_zerob len ws = true ↔ PaddingZero len ws.
Proof.
  unfold padding_zerob, PaddingZero. rewrite forallb_forall. split.
  - intros H i Hi.
    destruct (Z.lt_ge_cases i (Z.of_nat (length ws) * kDataBits)).
    + apply negb_true_iff, H. apply list_elem_of_In, elem_of_seqZ. lia.
    + apply bit_beyond. lia.
  - intros H i Hi. apply list_elem_of_In, elem_of_seqZ in Hi.
    apply negb_true_iff, H. lia.
Qed.

Lemma PaddingZero_zeros (len : Z) (n : nat) : PaddingZero len (replicate n 0).
Proof. intros i _. apply bit_zeros. Qed.

Lemma PaddingZero_resized (len new_length : Z) (ws : list Z) :
  len ≤ new_length → PaddingZero len ws →
  PaddingZero new_length (resized_words len new_length ws).
Proof.
  intros Hle H i Hi. rewrite bit_resized_words. apply H. lia.
Qed.


(** C3. For a BitVector of length [len], not a multiple of the word width:
    [AddAll()] sets the padding bits, those from [len] to the end of the last
    word; a [Resize(new_length)] after it keeps the whole old word array,
    padding included, as the prefix of the new one; so right after the resize
    [Contains(i)] is true for every [i] from [len] up to the smaller of
    [new_length] and the old word count times the word width. *)
Theorem AddAll_then_Resize_keeps_padding (z : Zone) (this : nat) (len : Z)
    (d : nat) (ws : list Z) (new_length : Z) :
  is_bitvector z this len d ws → len mod kDataBits ≠ 0 → len < new_length →
  len < BitVector.SizeFor len * kDataBits ∧
  ∃ z1 ws1,
    BitVector.AddAll this z = Ret z1 ∧
    is_bitvector z1 this len d ws1 ∧
    (∀ i, len ≤ i < BitVector.SizeFor len * kDataBits → bit ws1 i = true) ∧
    ∃ z2 d2,
      BitVector.Resize this new_length z1 = Ret z2 ∧
      is_bitvector z2 this new_length d2 (resized_words len new_length ws1) ∧
      ∀ i, len ≤ i < Z.min new_length (BitVector.SizeFor len * kDataBits) →
           BitVector.Contains this i z2 = Ret true.
Proof.
  intros Hbv Hmod Hnew. pose proof kDataBits_pos.
  assert (0 ≤ len) as H0 by apply Hbv.
  split.
  { pose proof (SizeFor_covers len H0).
    destruct (Z.eq_dec len (BitVector.SizeFor len * kDataBits)) as [E|]; [|lia].
    rewrite E, Z.mod_mul in Hmod by lia. congruence. }
  set (ws1 := replicate (length ws) (Z.ones kDataBits)).
  assert (is_bitvector (with_array d (Some <$> ws1) z) this len d ws1) as Hbv1.
  { eapply is_bitvector_update; [exact Hbv| |].
    - apply length_replicate.
    - apply Forall_word_ok_replicate, word_ok_ones. }
  assert (∀ i, 0 ≤ i < BitVector.SizeFor len * kDataBits → bit ws1 i = true)
    as Hones.
  { intros i Hi. apply bit_ones. destruct Hbv as (_ & _ & Hlen & _). lia. }
  exists (with_array d (Some <$> ws1) z), ws1. split; [|split; [exact Hbv1|split]].
  - destruct Hbv as (Hobj & Harr & Hlen & _ & _).
    erewrite AddAll_spec; [|exact Hobj|exact Harr|].
    + rewrite length_fmap. reflexivity.
    + simpl. rewrite length_fmap. lia.
  - intros i Hi. apply Hones. lia.
  - eexists _, _. split; [apply (Resize_spec _ _ _ _ _ _ Hbv1 Hnew)|].
    pose proof (is_bitvector_Resize _ _ _ _ _ _ Hbv1 Hnew) as Hbv2.
    split; [exact Hbv2|]. intros i Hi.
    rewrite (Contains_spec _ _ _ _ _ i Hbv2) by lia.
    rewrite bit_resized_words. f_equal. apply Hones. lia.
Qed.

End Padding.

(** ** Union, Intersect, Subtract *)

Section SetAlgebra.
Context {arch : Arch}.

Lemma is_bitvector_inj (z : Zone) (a b : nat) (len len' : Z) (d : nat)
    (ws vs : list Z) :
  is_bitvector z a len d ws → is_bitvector z b len' d vs → ws = vs.
Proof.
  intros (_ & Ha & _) (_ & Hb & _). rewrite Ha in Hb.
  injection Hb as Hb. revert Hb. apply (inj (fmap Some)).
Qed.

Lemma is_bitvector_length (z : Zone) (a b : nat) (len : Z) (d d' : nat)
    (ws vs : list Z) :
  is_bitvector z a len d ws → is_bitvector z b len d' vs →
  length vs = length ws.
Proof. intros (_ & _ & Ha & _) (_ & _ & Hb & _). lia. Qed.

(** What a load sees in the middle of a loop over array [d]: in [d], the new
    words below [k] and the old ones from [k] on; elsewhere, what was there. *)
Lemma load_midway (z : Zone) (d d' : nat) (ws vs new : list Z) (k : nat) (b : Z) :
  arrays z !! d = Some (Some <$> ws) → arrays z !! d' = Some (Some <$> vs) →
  length new = length ws → vs !! k = Some b → (k < length ws)%nat →
  load d' (Z.of_nat k)
    (with_array d ((Some <$> take k new) ++ drop k (Some <$> ws)) z) = Ret b.
Proof.
  intros Hd Hd' Hlen Hb Hk.
  destruct (decide (d = d')) as [<-|Hne].
  - assert (vs = ws) as ->.
    { rewrite Hd in Hd'. injection Hd' as Hd'. symmetry. revert Hd'.
      apply (inj (fmap Some)). }
    eapply load_ok; [|lia|].
    + apply arrays_with_array_eq. apply lookup_lt_Some in Hd. exact Hd.
    + rewrite Nat2Z.id, midway_lookup by (rewrite ?length_fmap; lia).
      rewrite list_lookup_fmap, Hb. reflexivity.
  - rewrite load_with_array_ne by exact Hne.
    eapply load_ok; [exact Hd'|lia|].
    rewrite Nat2Z.id, list_lookup_fmap, Hb. reflexivity.
Qed.

Lemma combine_words_spec (op : Z → Z → Z) (z : Zone) (this other : nat)
    (len : Z) (d d' : nat) (ws vs : list Z) :
  is_bitvector z this len d ws → is_bitvector z other len d' vs →
  BitVector.combine_words op this other z
  = Ret (with_array d (Some <$> zip_with op ws vs) z).
Proof.
  intros Hthis Hother.
  pose proof (is_bitvector_length _ _ _ _ _ _ _ _ Hthis Hother) as Hlen.
  destruct Hthis as (Hobj & Harr & Hn & H0 & Hok).
  destruct Hother as (Hobj' & Harr' & Hn' & _ & Hok').
  unfold BitVector.combine_words.
  rewrite (deref_ok _ _ _ Hobj), bind_Ret, (deref_ok _ _ _ Hobj'), bind_Ret.
  simpl. rewrite Z.eqb_refl.
  apply (for_int_store d _
           (fun i z => a <- load d i z ;; b <- load d' i z ;; Ret (op a b))
           (Some <$> ws)).
  - intros i z0. destruct (load d i z0); simpl; try reflexivity.
    destruct (load d' i z0); reflexivity.
  - rewrite length_zip_with, length_fmap. lia.
  - rewrite length_fmap. lia.
  - exact Harr.
  - intros k w Hk. apply lookup_zip_with_Some in Hk as (a & b & -> & Ha & Hb).
    pose proof (lookup_lt_Some _ _ _ Ha) as Hlt.
    assert (length (zip_with op ws vs) = length ws) as Hl
      by (rewrite length_zip_with; lia).
    rewrite (load_midway z d d ws ws _ k a), bind_Ret; auto.
    rewrite (load_midway z d d' ws vs _ k b), bind_Ret; auto.
Qed.

(** A loop whose states are known in advance. *)
Lemma for_loop_steps {S : Type} (body : Z → S → Res S) (st : nat → S) (n : nat) :
  (∀ k, (k < n)%nat → body (Z.of_nat k) (st k) = Ret (st (Datatypes.S k))) →
  for_loop n 0 body (st 0%nat) = Ret (st n).
Proof.
  intros Hstep.
  assert (∀ m k, (k + m = n)%nat →
            for_loop m (Z.of_nat k) body (st k) = Ret (st n)) as H.
  { induction m as [|m IH]; intros k Hk.
    - simpl. f_equal. f_equal. lia.
    - rewrite for_loop_S, Hstep, bind_Ret by lia.
      replace (Z.of_nat k + 1) with (Z.of_nat (Datatypes.S k)) by lia.
      apply IH. lia. }
  apply (H n 0%nat). lia.
Qed.

Lemma insert_midway (new : list Z) (old : list (option Z)) (k : nat) (w : Z) :
  length new = length old → new !! k = Some w →
  <[k := Some w]> ((Some <$> take k new) ++ drop k old)
  = (Some <$> take (Datatypes.S k) new) ++ drop (Datatypes.S k) old.
Proof.
  intros Hlen Hk. pose proof (lookup_lt_Some _ _ _ Hk) as Hlt.
  destruct (lookup_lt_is_Some_2 old k) as [o Ho]; [lia|].
  rewrite insert_app_r_alt; rewrite length_fmap, length_take; [|lia].
  replace (k - k `min` length new)%nat with 0%nat by lia.
  rewrite (drop_S _ _ _ Ho). simpl.
  rewrite (take_S_r _ _ _ Hk), fmap_app, <- app_assoc. reflexivity.
Qed.

Lemma changed_upto_S (new ws : list Z) (k : nat) (w a : Z) :
  new !! k = Some w → ws !! k = Some a →
  changed_upto new ws (Datatypes.S k)
  = (if w =? a then changed_upto new ws k else true).
Proof.
  intros Hw Ha. unfold changed_upto.
  rewrite (take_S_r _ _ _ Hw), (take_S_r _ _ _ Ha).
  assert (length (take k new) = length (take k ws)) as Hl.
  { apply lookup_lt_Some in Hw, Ha. rewrite !length_take. lia. }
  destruct (Z.eqb_spec w a) as [->|Hne].
  - f_equal. apply bool_decide_ext. split.
    + intros H. apply app_inj_2 in H as [H _]; auto.
    + intros ->. reflexivity.
  - rewrite bool_decide_false; [reflexivity|].
    intros H. apply app_inj_2 in H as [_ H]; auto. congruence.
Qed.

Lemma combine_words_changed_spec (op : Z → Z → Z) (z : Zone)
    (this other : nat) (len : Z) (d d' : nat) (ws vs : list Z) :
  is_bitvector z this len d ws → is_bitvector z other len d' vs →
  BitVector.combine_words_changed op this other z
  = Ret (negb (bool_decide (zip_with op ws vs = ws)),
         with_array d (Some <$> zip_with op ws vs) z).
Proof.
  intros Hthis Hother.
  pose proof (is_bitvector_length _ _ _ _ _ _ _ _ Hthis Hother) as Hlen.
  destruct Hthis as (Hobj & Harr & Hn & H0 & Hok).
  destruct Hother as (Hobj' & Harr' & Hn' & _ & Hok').
  pose proof (lookup_lt_Some _ _ _ Harr) as Hd.
  unfold BitVector.combine_words_changed.
  rewrite (deref_ok _ _ _ Hobj), bind_Ret, (deref_ok _ _ _ Hobj'), bind_Ret.
  simpl. rewrite Z.eqb_refl. unfold for_int. rewrite Z.sub_0_r.
  set (new := zip_with op ws vs).
  assert (length new = length ws) as Hl
    by (unfold new; rewrite length_zip_with; lia).
  set (st := fun k : nat =>
     (changed_upto new ws k,
      with_array d ((Some <$> take k new) ++ drop k (Some <$> ws)) z)).
  replace (false, z) with (st 0%nat).
  2:{ unfold st, changed_upto. simpl. rewrite drop_0, with_array_id by auto.
      reflexivity. }
  rewrite (for_loop_steps _ st).
  - unfold st, changed_upto.
    rewrite !take_ge, drop_ge by (rewrite ?length_fmap; lia).
    rewrite app_nil_r. reflexivity.
  - intros k Hk. unfold st.
    destruct (lookup_lt_is_Some_2 ws k) as [a Ha]; [lia|].
    destruct (lookup_lt_is_Some_2 vs k) as [b Hb]; [lia|].
    assert (new !! k = Some (op a b)) as Hw.
    { unfold new. apply lookup_zip_with_Some. eauto. }
    rewrite (load_midway z d d ws ws _ k a), bind_Ret by (auto; lia).
    rewrite (load_midway z d d' ws vs _ k b), bind_Ret by (auto; lia).
    erewrite store_ok;
      [|apply arrays_with_array_eq; exact Hd|lia
       |rewrite midway_length by (rewrite length_fmap; lia);
        rewrite length_fmap; lia].
    rewrite bind_Ret, with_array_twice, Nat2Z.id.
    rewrite (insert_midway new (Some <$> ws) k (op a b))
      by (rewrite ?length_fmap; auto; lia).
    erewrite load_ok;
      [|apply arrays_with_array_eq; exact Hd|lia|].
    2:{ rewrite Nat2Z.id, lookup_app_l.
        - rewrite list_lookup_fmap, lookup_take_lt by lia. rewrite Hw. reflexivity.
        - rewrite length_fmap, length_take. lia. }
    rewrite bind_Ret, (changed_upto_S _ _ _ _ _ Hw Ha). reflexivity.
Qed.

End SetAlgebra.

(** ** IsEmpty, Equals and the algebra of the word-wise operations *)

Section Comparisons.
Context {arch : Arch}.

Lemma IsEmpty_loop_spec (z : Zone) (d : nat) (ws pre : list Z) :
  arrays z !! d = Some (Some <$> (pre ++ ws)) →
  BitVector.IsEmpty_loop (length ws) (Z.of_nat (length pre)) d z
  = Ret (forallb (fun w => w =? 0) ws).
Proof.
  revert pre. induction ws as [|w ws IH]; intros pre Harr; [reflexivity|].
  simpl. erewrite load_ok; [|exact Harr|lia|].
  2:{ rewrite Nat2Z.id, list_lookup_fmap, lookup_app_r, Nat.sub_diag by lia.
      reflexivity. }
  rewrite bind_Ret. destruct (w =? 0); [|reflexivity]. simpl.
  replace (Z.of_nat (length pre) + 1) with (Z.of_nat (length (pre ++ [w])))
    by (rewrite length_app; simpl; lia).
  apply IH. rewrite <- app_assoc. exact Harr.
Qed.

Lemma IsEmpty_spec (z : Zone) (this : nat) (len : Z) (d : nat) (ws : list Z) :
  is_bitvector z this len d ws →
  BitVector.IsEmpty this z = Ret (forallb (fun w => w =? 0) ws).
Proof.
  intros (Hobj & Harr & Hn & _). unfold BitVector.IsEmpty.
  rewrite (deref_ok _ _ _ Hobj), bind_Ret. simpl.
  rewrite <- Hn, Nat2Z.id. apply (IsEmpty_loop_spec z d ws []). exact Harr.
Qed.

Lemma Equals_loop_spec (z : Zone) (d d' : nat) (ws vs pre pre' : list Z) :
  arrays z !! d = Some (Some <$> (pre ++ ws)) →
  arrays z !! d' = Some (Some <$> (pre' ++ vs)) →
  length pre = length pre' → length ws = length vs →
  BitVector.Equals_loop (length ws) (Z.of_nat (length pre)) d d' z
  = Ret (bool_decide (ws = vs)).
Proof.
  revert vs pre pre'.
  induction ws as [|w ws IH]; intros [|v vs] pre pre' Hd Hd' Hpre Hlen;
    try discriminate; [reflexivity|].
  simpl. erewrite load_ok; [|exact Hd|lia|].
  2:{ rewrite Nat2Z.id, list_lookup_fmap, lookup_app_r, Nat.sub_diag by lia.
      reflexivity. }
  rewrite bind_Ret. erewrite load_ok; [|exact Hd'|lia|].
  2:{ rewrite Nat2Z.id, list_lookup_fmap, lookup_app_r by lia.
      rewrite Hpre, Nat.sub_diag. reflexivity. }
  rewrite bind_Ret. destruct (Z.eqb_spec w v) as [->|Hne].
  - replace (Z.of_nat (length pre) + 1) with (Z.of_nat (length (pre ++ [v])))
      by (rewrite length_app; simpl; lia).
    rewrite (IH vs (pre ++ [v]) (pre' ++ [v])).
    + apply f_equal, bool_decide_ext. split; [intros ->; reflexivity|].
      intros H. injection H as H. exact H.
    + rewrite <- app_assoc. exact Hd.
    + rewrite <- app_assoc. exact Hd'.
    + rewrite !length_app. simpl. lia.
    + simpl in Hlen. lia.
  - rewrite bool_decide_false; [reflexivity|]. intros H. injection H as H _.
    contradiction.
Qed.

Lemma Equals_spec (z : Zone) (this other : nat) (len : Z) (d d' : nat)
    (ws vs : list Z) :
  is_bitvector z this len d ws → is_bitvector z other len d' vs →
  BitVector.Equals this other z = Ret (bool_decide (ws = vs)).
Proof.
  intros Hthis Hother.
  pose proof (is_bitvector_length _ _ _ _ _ _ _ _ Hthis Hother) as Hlen.
  destruct Hthis as (Hobj & Harr & Hn & _).
  destruct Hother as (Hobj' & Harr' & _).
  unfold BitVector.Equals.
  rewrite (deref_ok _ _ _ Hobj), bind_Ret, (deref_ok _ _ _ Hobj'), bind_Ret.
  simpl. rewrite <- Hn, Nat2Z.id.
  apply (Equals_loop_spec z d d' ws vs [] []); auto.
Qed.

Lemma bit_word (ws : list Z) (k t : Z) :
  0 ≤ k → 0 ≤ t < kDataBits →
  bit ws (k * kDataBits + t) = Z.testbit (word_at ws k) t.
Proof.
  intros Hk Ht. unfold bit.
  rewrite Z.div_add_l, Z.div_small, Z.add_0_r by lia.
  rewrite Z.add_comm, Z.mod_add, Z.mod_small by lia. reflexivity.
Qed.

Lemma word_eq_bits (w v : Z) :
  word_ok w → word_ok v →
  (∀ t, 0 ≤ t < kDataBits → Z.testbit w t = Z.testbit v t) → w = v.
Proof.
  intros Hw Hv H. apply Z.bits_inj'. intros t Ht.
  destruct (Z.lt_ge_cases t kDataBits).
  - apply H. lia.
  - rewrite !word_ok_high; auto.
Qed.

Lemma words_eq_bits (ws vs : list Z) :
  Forall word_ok ws → Forall word_ok vs → length ws = length vs →
  (∀ i, 0 ≤ i < Z.of_nat (length ws) * kDataBits → bit ws i = bit vs i) →
  ws = vs.
Proof.
  intros Hws Hvs Hlen H. pose proof kDataBits_pos. apply list_eq. intros n.
  destruct (decide (n < length ws)%nat) as [Hn|Hn].
  - rewrite <- (Nat2Z.id n), !word_at_lt by lia. f_equal.
    apply word_eq_bits; auto using word_at_ok.
    intros t Ht. rewrite <- !bit_word by lia. apply H. nia.
  - rewrite !lookup_ge_None_2 by lia. reflexivity.
Qed.

Lemma all_zero_bits (ws : list Z) :
  Forall word_ok ws →
  forallb (fun w => w =? 0) ws = true ↔ ∀ i, 0 ≤ i → bit ws i = false.
Proof.
  intros Hok. pose proof kDataBits_pos as Hpos. rewrite forallb_forall. split.
  - intros H i _. unfold bit, word_at.
    destruct (ws !! Z.to_nat (i / kDataBits)) as [w|] eqn:E; simpl.
    + assert (w = 0) as ->; [|apply Z.bits_0].
      apply Z.eqb_eq, H, list_elem_of_In, list_elem_of_lookup. eauto.
    + apply Z.bits_0.
  - intros H w Hw. apply list_elem_of_In, list_elem_of_lookup in Hw as [k Hk].
    apply Z.eqb_eq. apply word_eq_bits; auto using word_ok_0.
    + rewrite Forall_lookup in Hok. eauto.
    + intros t Ht. rewrite Z.bits_0.
      rewrite <- (word_at_lookup ws (Z.of_nat k) w) by (rewrite Nat2Z.id; exact Hk).
      rewrite <- bit_word by lia. apply H. nia.
Qed.

(** Bits of a word-wise combination. *)
Lemma bit_zip_with (op : Z → Z → Z) (f : bool → bool → bool) (ws vs : list Z)
    (i : Z) :
  (∀ a b t, 0 ≤ t → Z.testbit (op a b) t = f (Z.testbit a t) (Z.testbit b t)) →
  f false false = false → length ws = length vs →
  bit (zip_with op ws vs) i = f (bit ws i) (bit vs i).
Proof.
  intros Hop Hf Hlen. unfold bit, word_at. pose proof (bit_index_range i).
  rewrite lookup_zip_with.
  destruct (ws !! Z.to_nat (i / kDataBits)) as [a|] eqn:Ea; simpl.
  - destruct (lookup_lt_is_Some_2 vs (Z.to_nat (i / kDataBits))) as [b Eb].
    { apply lookup_lt_Some in Ea. lia. }
    rewrite Eb. simpl. apply Hop. lia.
  - rewrite (lookup_ge_None_2 vs).
    + simpl. rewrite Z.bits_0, Hf. reflexivity.
    + apply lookup_ge_None_1 in Ea. lia.
Qed.

Lemma Forall_word_ok_zip_with (op : Z → Z → Z) (ws vs : list Z) :
  (∀ a b, word_ok a → word_ok b → word_ok (op a b)) →
  Forall word_ok ws → Forall word_ok vs → Forall word_ok (zip_with op ws vs).
Proof.
  intros Hop Hws Hvs. rewrite Forall_lookup. intros k w Hk.
  apply lookup_zip_with_Some in Hk as (a & b & -> & Ha & Hb).
  rewrite Forall_lookup in Hws, Hvs. eauto.
Qed.

Lemma is_bitvector_combine (op : Z → Z → Z) (z : Zone) (this other : nat)
    (len : Z) (d d' : nat) (ws vs : list Z) :
  (∀ a b, word_ok a → word_ok b → word_ok (op a b)) →
  is_bitvector z this len d ws → is_bitvector z other len d' vs →
  is_bitvector (with_array d (Some <$> zip_with op ws vs) z) this len d
    (zip_with op ws vs).
Proof.
  intros Hop Hthis Hother.
  pose proof (is_bitvector_length _ _ _ _ _ _ _ _ Hthis Hother) as Hlen.
  eapply is_bitvector_update; [exact Hthis| |].
  - rewrite length_zip_with. lia.
  - apply Forall_word_ok_zip_with; auto; [apply Hthis|apply Hother].
Qed.

(** Any BitVector of the zone after [this] was combined with something: the
    new words if it shares the array of [this], its old words otherwise. *)
Lemma is_bitvector_frame (z : Zone) (this x : nat) (len lx : Z) (d dx : nat)
    (ws new xs : list Z) :
  is_bitvector z this len d ws → is_bitvector z x lx dx xs →
  length new = length ws → Forall word_ok new →
  is_bitvector (with_array d (Some <$> new) z) x lx dx
    (if decide (dx = d) then new else xs).
Proof.
  intros Hthis Hx Hlen Hok. destruct (decide (dx = d)) as [->|Hne].
  - pose proof (is_bitvector_inj _ _ _ _ _ _ _ _ Hthis Hx) as <-.
    eapply is_bitvector_update; eauto.
  - destruct Hx as (Hobj & Harr & H). repeat split; try apply H; auto.
    rewrite arrays_with_array_ne; auto.
Qed.

Lemma word_ok_subtract (a b : Z) :
  word_ok a → word_ok b → word_ok (Z.land a (BitVector.uintptr (Z.lnot b))).
Proof. intros Ha _. apply word_ok_land. exact Ha. Qed.

Lemma word_ok_land2 (a b : Z) : word_ok a → word_ok b → word_ok (Z.land a b).
Proof. intros Ha _. apply word_ok_land. exact Ha. Qed.

End Comparisons.

(** ** The set operations as an algebra *)

Section Algebra.
Context {arch : Arch}.

(** C4. For BitVectors A and B of equal length: [A.UnionIsChanged(B)] leaves
    the zone, so A's words, as [A.Union(B)] does, [A.IntersectIsChanged(B)]
    as [A.Intersect(B)] does, and each returns false exactly when A's word
    array is the same before and after. *)
Theorem IsChanged_variants (z : Zone) (this other : nat) (len : Z)
    (d d' : nat) (ws vs : list Z) :
  is_bitvector z this len d ws → is_bitvector z other len d' vs →
  (∃ z' ws' changed,
     BitVector.Union this other z = Ret z' ∧
     BitVector.UnionIsChanged this other z = Ret (changed, z') ∧
     is_bitvector z' this len d ws' ∧
     (changed = false ↔ ws' = ws)) ∧
  (∃ z' ws' changed,
     BitVector.Intersect this other z = Ret z' ∧
     BitVector.IntersectIsChanged this other z = Ret (changed, z') ∧
     is_bitvector z' this len d ws' ∧
     (changed = false ↔ ws' = ws)).
Proof.
  intros Hthis Hother.
  unfold BitVector.Union, BitVector.UnionIsChanged, BitVector.Intersect,
    BitVector.IntersectIsChanged.
  split; eexists _, _, _;
    (split; [eapply combine_words_spec; eauto|]);
    (split; [eapply combine_words_changed_spec; eauto|]);
    (split; [eapply is_bitvector_combine; eauto using word_ok_lor, word_ok_land2|]);
    rewrite negb_false_iff, bool_decide_eq_true; reflexivity.
Qed.

Lemma combine_commutes (op : Z → Z → Z) (z : Zone) (a b : nat) (len : Z)
    (da db : nat) (ws vs : list Z) :
  (∀ x y, word_ok x → word_ok y → word_ok (op x y)) →
  (∀ x y, op x y = op y x) →
  is_bitvector z a len da ws → is_bitvector z b len db vs →
  commutes (BitVector.combine_words op) z a b len da db.
Proof.
  intros Hok Hcomm Ha Hb. unfold commutes.
  eexists _, _, _. split; [eapply combine_words_spec; eauto|].
  split; [eapply combine_words_spec; eauto|].
  split; [eapply is_bitvector_combine; eauto|].
  replace (zip_with op ws vs) with (zip_with op vs ws).
  - eapply is_bitvector_combine; eauto.
  - apply list_eq. intros n. rewrite !lookup_zip_with.
    destruct (ws !! n), (vs !! n); simpl; f_equal; auto.
Qed.

Lemma combine_associates (op : Z → Z → Z) (z : Zone) (a b c : nat) (len : Z)
    (da db dc : nat) (ws vs us : list Z) :
  (∀ x y, word_ok x → word_ok y → word_ok (op x y)) →
  (∀ x y, op x y = op y x) →
  (∀ x y w, op x (op y w) = op (op x y) w) →
  (∀ x, op x x = x) →
  is_bitvector z a len da ws → is_bitvector z b len db vs →
  is_bitvector z c len dc us →
  associates (BitVector.combine_words op) z a b c len da.
Proof.
  intros Hok Hcomm Hassoc Hidem Ha Hb Hc. unfold associates.
  pose proof (is_bitvector_length _ _ _ _ _ _ _ _ Ha Hb) as Hlb.
  pose proof (is_bitvector_length _ _ _ _ _ _ _ _ Ha Hc) as Hlc.
  assert (Forall word_ok ws ∧ Forall word_ok vs ∧ Forall word_ok us)
    as (Hws & Hvs & Hus) by (repeat split; [apply Ha|apply Hb|apply Hc]).
  (* left grouping: a.op(b), then a.op(c) *)
  pose proof (is_bitvector_combine op _ _ _ _ _ _ _ _ Hok Ha Hb) as Ha1.
  pose proof (is_bitvector_frame _ _ _ _ _ _ _ _ (zip_with op ws vs) _ Ha Hc)
    as Hc1.
  specialize (Hc1 ltac:(rewrite length_zip_with; lia)
                  ltac:(apply Forall_word_ok_zip_with; auto)).
  pose proof (is_bitvector_combine op _ _ _ _ _ _ _ _ Hok Ha1 Hc1) as Ha2.
  (* right grouping: b.op(c), then a.op(b) *)
  pose proof (is_bitvector_combine op _ _ _ _ _ _ _ _ Hok Hb Hc) as Hb1.
  pose proof (is_bitvector_frame _ _ _ _ _ _ _ _ (zip_with op vs us) _ Hb Ha)
    as Ha1'.
  specialize (Ha1' ltac:(rewrite length_zip_with; lia)
                   ltac:(apply Forall_word_ok_zip_with; auto)).
  pose proof (is_bitvector_combine op _ _ _ _ _ _ _ _ Hok Ha1' Hb1) as Ha2'.
  eexists _, _, _, _, _.
  split; [eapply combine_words_spec; eauto|].
  split; [eapply combine_words_spec; eauto|].
  split; [eapply combine_words_spec; eauto|].
  split; [eapply combine_words_spec; eauto|].
  split; [exact Ha2|].
  replace (zip_with op (zip_with op ws vs)
             (if decide (dc = da) then zip_with op ws vs else us))
    with (zip_with op (if decide (da = db) then zip_with op vs us else ws)
            (zip_with op vs us)); [exact Ha2'|].
  destruct (decide (dc = da)) as [->|Hca], (decide (da = db)) as [->|Hab];
    try (pose proof (is_bitvector_inj _ _ _ _ _ _ _ _ Ha Hb); subst vs);
    try (pose proof (is_bitvector_inj _ _ _ _ _ _ _ _ Ha Hc); subst us);
    apply list_eq; intros k; rewrite !lookup_zip_with;
    destruct (ws !! k) as [w|]; try reflexivity;
    try (destruct (vs !! k) as [v|]; try reflexivity);
    try (destruct (us !! k) as [u|]; try reflexivity);
    simpl; f_equal; rewrite ?Hidem; try reflexivity.
  - rewrite (Hcomm v w), Hassoc, Hidem. reflexivity.
  - apply Hassoc.
Qed.

(** C5. Over BitVectors of equal length: [Union] and [Intersect] are
    commutative and associative on the word arrays they leave; [A.Subtract(A)]
    leaves A empty; [A.Union(Empty)] leaves A's words as they were; and
    [A.Intersect(Empty)] leaves A empty, for an all-zero [Empty] of the same
    length. *)
Theorem set_operations_algebra (z : Zone) (a b c e : nat) (len : Z)
    (da db dc de : nat) (ws vs us : list Z) :
  is_bitvector z a len da ws → is_bitvector z b len db vs →
  is_bitvector z c len dc us →
  is_bitvector z e len de (replicate (length ws) 0) →
  commutes BitVector.Union z a b len da db ∧
  commutes BitVector.Intersect z a b len da db ∧
  associates BitVector.Union z a b c len da ∧
  associates BitVector.Intersect z a b c len da ∧
  (∃ z', BitVector.Subtract a a z = Ret z' ∧ BitVector.IsEmpty a z' = Ret true) ∧
  (∃ z', BitVector.Union a e z = Ret z' ∧ is_bitvector z' a len da ws) ∧
  (∃ z', BitVector.Intersect a e z = Ret z' ∧ BitVector.IsEmpty a z' = Ret true).
Proof.
  intros Ha Hb Hc He.
  assert (Forall word_ok ws) as Hws by apply Ha.
  split; [|split; [|split; [|split; [|split; [|split]]]]].
  - eapply combine_commutes; eauto using word_ok_lor, Z.lor_comm.
  - eapply combine_commutes; eauto using word_ok_land2, Z.land_comm.
  - eapply combine_associates;
      eauto using word_ok_lor, Z.lor_comm, Z.lor_assoc, Z.lor_diag.
  - eapply combine_associates;
      eauto using word_ok_land2, Z.land_comm, Z.land_assoc, Z.land_diag.
  - eexists. split; [eapply combine_words_spec; eauto|].
    erewrite IsEmpty_spec;
      [|eapply is_bitvector_combine; eauto using word_ok_subtract].
    f_equal. apply forallb_forall. intros w Hw.
    apply list_elem_of_In, list_elem_of_lookup in Hw as [n Hn].
    apply lookup_zip_with_Some in Hn as (x & y & -> & Hx & Hy).
    assert (y = x) as -> by congruence.
    rewrite land_not_word by (rewrite Forall_lookup in Hws; eauto).
    rewrite Z.ldiff_diag. reflexivity.
  - eexists. split; [eapply combine_words_spec; eauto|].
    replace (zip_with Z.lor ws (replicate (length ws) 0)) with ws.
    + rewrite with_array_id; [exact Ha|apply Ha].
    + apply list_eq. intros n. rewrite lookup_zip_with.
      destruct (ws !! n) as [w|] eqn:E; [|reflexivity]. simpl.
      rewrite lookup_replicate_2 by (apply lookup_lt_Some in E; exact E).
      simpl. rewrite Z.lor_0_r. reflexivity.
  - eexists. split; [eapply combine_words_spec; eauto|].
    erewrite IsEmpty_spec;
      [|eapply is_bitvector_combine; eauto using word_ok_land2].
    f_equal. apply forallb_forall. intros w Hw.
    apply list_elem_of_In, list_elem_of_lookup in Hw as [n Hn].
    apply lookup_zip_with_Some in Hn as (x & y & -> & Hx & Hy).
    apply lookup_replicate in Hy as [-> _]. rewrite Z.land_0_r. reflexivity.
Qed.

End Algebra.

(** ** The iterator: skipping zero bytes and zero bits *)

Section Skipping.
Context {arch : Arch}.

Import BitVector.Iterator.

Lemma add_current_0 (it : t) : add_current 0 it = it.
Proof. destruct it. unfold add_current. simpl. f_equal. lia. Qed.

Lemma add_current_add (j k : Z) (it : t) :
  add_current k (add_current j it) = add_current (j + k) it.
Proof. unfold add_current. simpl. f_equal. lia. Qed.

Lemma SkipZeroBytes_spec (fuel : nat) (val : Z) (it : t) :
  0 < val < 2 ^ (8 * Z.of_nat fuel) →
  ∃ k, 0 ≤ k ∧
       SkipZeroBytes fuel val it
       = Ret (Z.shiftr val (8 * k), add_current (8 * k) it) ∧
       (∀ s, 0 ≤ s < 8 * k → Z.testbit val s = false) ∧
       0 < Z.shiftr val (8 * k).
Proof.
  revert val it. induction fuel as [|fuel IH]; intros val it Hval.
  { simpl in Hval. lia. }
  simpl SkipZeroBytes.
  destruct (Z.eqb_spec (Z.land val 255) 0) as [Hz|Hnz].
  - change 255 with (Z.ones 8) in Hz. rewrite Z.land_ones in Hz by lia.
    change (2 ^ 8) with 256 in Hz.
    assert (val = 256 * (val / 256)) as Hdiv
      by (pose proof (Z.div_mod val 256); lia).
    assert (Z.shiftr val 8 = val / 256) as Hshr
      by (rewrite Z.shiftr_div_pow2 by lia; reflexivity).
    assert (2 ^ (8 * Z.of_nat (S fuel)) = 256 * 2 ^ (8 * Z.of_nat fuel)) as Hpow.
    { replace (8 * Z.of_nat (S fuel)) with (8 + 8 * Z.of_nat fuel) by lia.
      rewrite Z.pow_add_r by lia. reflexivity. }
    destruct (IH (Z.shiftr val 8) (add_current 8 it)) as (k & Hk & Hrun & Hlow & Hpos).
    { rewrite Hshr. lia. }
    exists (k + 1). split; [lia|]. split; [|split].
    + rewrite Hrun, Z.shiftr_shiftr, add_current_add by lia.
      do 3 f_equal; lia.
    + intros s Hs. destruct (Z.lt_ge_cases s 8).
      * rewrite Hdiv, Z.mul_comm. change 256 with (2 ^ 8).
        apply Z.mul_pow2_bits_low. lia.
      * replace s with (s - 8 + 8) by lia. rewrite <- Z.shiftr_spec by lia.
        apply Hlow. lia.
    + rewrite Z.shiftr_shiftr in Hpos by lia.
      replace (8 * (k + 1)) with (8 + 8 * k) by lia. exact Hpos.
  - exists 0. simpl. rewrite Z.shiftr_0_r, add_current_0.
    repeat split; try lia.
Qed.

Lemma SkipZeroBits_spec (fuel : nat) (val : Z) (it : t) :
  0 < val < 2 ^ Z.of_nat fuel →
  ∃ k, 0 ≤ k ∧
       SkipZeroBits fuel val it = Ret (Z.shiftr val k, add_current k it) ∧
       (∀ s, 0 ≤ s < k → Z.testbit val s = false) ∧
       Z.testbit val k = true.
Proof.
  revert val it. induction fuel as [|fuel IH]; intros val it Hval.
  { simpl in Hval. lia. }
  simpl SkipZeroBits.
  pose proof (land_pow2_eqb val 0 ltac:(lia)) as Hbit0.
  change (2 ^ 0) with 1 in Hbit0.
  destruct (Z.eqb_spec (Z.land val 1) 0) as [Hz|Hnz]; simpl in Hbit0.
  - assert (val = 2 * (val / 2)) as Hdiv.
    { change 1 with (Z.ones 1) in Hz. rewrite Z.land_ones in Hz by lia.
      change (2 ^ 1) with 2 in Hz. pose proof (Z.div_mod val 2). lia. }
    assert (Z.shiftr val 1 = val / 2) as Hshr
      by (rewrite Z.shiftr_div_pow2 by lia; reflexivity).
    assert (2 ^ Z.of_nat (S fuel) = 2 * 2 ^ Z.of_nat fuel) as Hpow.
    { replace (Z.of_nat (S fuel)) with (1 + Z.of_nat fuel) by lia.
      rewrite Z.pow_add_r by lia. reflexivity. }
    destruct (IH (Z.shiftr val 1) (add_current 1 it)) as (k & Hk & Hrun & Hlow & Hset).
    { rewrite Hshr. lia. }
    exists (k + 1). split; [lia|]. split; [|split].
    + rewrite Hrun, Z.shiftr_shiftr, add_current_add by lia.
      do 3 f_equal; lia.
    + intros s Hs. destruct (Z.eq_dec s 0) as [->|]; [symmetry; exact Hbit0|].
      replace s with (s - 1 + 1) by lia. rewrite <- Z.shiftr_spec by lia.
      apply Hlow. lia.
    + rewrite Z.shiftr_spec in Hset by lia. exact Hset.
  - exists 0. rewrite Z.shiftr_0_r, add_current_0.
    repeat split; try lia; auto.
Qed.

(** Both loops in a row stop on the lowest set bit of a non-zero word. *)
Lemma Skip_spec (fuel : nat) (val : Z) (it : t) :
  0 < val < 2 ^ kDataBits → kDataBits ≤ Z.of_nat fuel →
  ∃ k val1 it1,
    0 ≤ k ∧
    SkipZeroBytes fuel val it = Ret (val1, it1) ∧
    SkipZeroBits fuel val1 it1 = Ret (Z.shiftr val k, add_current k it) ∧
    (∀ s, 0 ≤ s < k → Z.testbit val s = false) ∧
    Z.testbit val k = true.
Proof.
  intros Hval Hfuel. pose proof kDataBits_pos.
  assert (2 ^ kDataBits ≤ 2 ^ Z.of_nat fuel) by (apply Z.pow_le_mono_r; lia).
  assert (2 ^ Z.of_nat fuel ≤ 2 ^ (8 * Z.of_nat fuel))
    by (apply Z.pow_le_mono_r; lia).
  destruct (SkipZeroBytes_spec fuel val it) as (k1 & Hk1 & Hrun1 & Hlow1 & Hpos);
    [lia|].
  assert (Z.shiftr val (8 * k1) ≤ val).
  { rewrite Z.shiftr_div_pow2 by lia. apply Z.div_le_upper_bound.
    - apply Z.pow_pos_nonneg; lia.
    - assert (0 < 2 ^ (8 * k1)) by (apply Z.pow_pos_nonneg; lia). nia. }
  destruct (SkipZeroBits_spec fuel (Z.shiftr val (8 * k1)) (add_current (8 * k1) it))
    as (k2 & Hk2 & Hrun2 & Hlow2 & Hset); [lia|].
  exists (8 * k1 + k2), (Z.shiftr val (8 * k1)), (add_current (8 * k1) it).
  split; [lia|]. split; [exact Hrun1|]. split; [|split].
  - rewrite Hrun2, Z.shiftr_shiftr, add_current_add by lia. reflexivity.
  - intros s Hs. destruct (Z.lt_ge_cases s (8 * k1)); [apply Hlow1; lia|].
    replace s with (s - 8 * k1 + 8 * k1) by lia.
    rewrite <- Z.shiftr_spec by lia. apply Hlow2. lia.
  - rewrite Z.shiftr_spec in Hset by lia.
    replace (8 * k1 + k2) with (k2 + 8 * k1) by lia. exact Hset.
Qed.

End Skipping.

(** ** The iterator: Advance *)

Section Advancing.
Context {arch : Arch}.

Import BitVector.Iterator.

Lemma shiftr_word_bits (w s t : Z) :
  0 ≤ s → 0 ≤ t → Z.testbit (Z.shiftr w s) t = Z.testbit w (s + t).
Proof. intros Hs Ht. rewrite Z.shiftr_spec by lia. f_equal. lia. Qed.

Lemma shiftr_word_range (w s : Z) :
  word_ok w → 0 ≤ s → 0 ≤ Z.shiftr w s < 2 ^ kDataBits.
Proof.
  intros [H0 H1] Hs. split.
  - apply Z.shiftr_nonneg. exact H0.
  - rewrite Z.shiftr_div_pow2 by lia.
    assert (0 < 2 ^ s) by (apply Z.pow_pos_nonneg; lia).
    assert (w / 2 ^ s ≤ w); [|lia].
    apply Z.div_le_upper_bound; [lia|nia].
Qed.

Lemma shiftr_word_zero (w s : Z) :
  word_ok w → 0 ≤ s →
  Z.shiftr w s = 0 ↔ ∀ t, s ≤ t < kDataBits → Z.testbit w t = false.
Proof.
  intros Hw Hs. split.
  - intros Hz t Ht. replace t with (s + (t - s)) by lia.
    rewrite <- shiftr_word_bits, Hz by lia. apply Z.bits_0.
  - intros H. apply Z.bits_inj'. intros t Ht.
    rewrite shiftr_word_bits, Z.bits_0 by lia.
    destruct (Z.lt_ge_cases (s + t) kDataBits).
    + apply H. lia.
    + apply word_ok_high; auto.
Qed.

Lemma Done_spec (z : Zone) (this : nat) (len : Z) (d : nat) (ws : list Z)
    (it : t) :
  is_bitvector z this len d ws → target_ it = this →
  Done it z = Ret (current_index_ it >=? Z.of_nat (length ws)).
Proof.
  intros (Hobj & _ & Hn & _) Ht. unfold Done.
  rewrite Ht, (deref_ok _ _ _ Hobj), bind_Ret. simpl. rewrite Hn. reflexivity.
Qed.

(** The loop of step 1, started on word [ci] with its remaining value: it
    ends past the last word, all bits from [u] on being zero, or on the first
    word from [ci] on with a set bit at or after [u]. *)
Lemma next_word_spec (z : Zone) (this : nat) (len : Z) (d : nat)
    (ws : list Z) :
  is_bitvector z this len d ws →
  ∀ (m fuel : nat) (ci cv u : Z),
  Z.of_nat m = Z.of_nat (length ws) - ci → (m ≤ fuel)%nat →
  0 ≤ ci < Z.of_nat (length ws) →
  ci * kDataBits ≤ u ≤ (ci + 1) * kDataBits →
  (∃ it', next_word fuel (Z.shiftr (word_at ws ci) (u - ci * kDataBits))
            (mk this ci cv u) z = Ret (None, it') ∧
          finished this ws it' ∧
          ∀ j, u ≤ j < Z.of_nat (length ws) * kDataBits → bit ws j = false) ∨
  (∃ ci' u',
     next_word fuel (Z.shiftr (word_at ws ci) (u - ci * kDataBits))
       (mk this ci cv u) z
     = Ret (Some (Z.shiftr (word_at ws ci') (u' - ci' * kDataBits)),
            mk this ci' cv u') ∧
     0 ≤ ci' < Z.of_nat (length ws) ∧
     ci' * kDataBits ≤ u' < (ci' + 1) * kDataBits ∧
     Z.shiftr (word_at ws ci') (u' - ci' * kDataBits) ≠ 0 ∧
     u ≤ u' ∧
     ∀ j, u ≤ j < u' → bit ws j = false).
Proof.
  intros Hbv. pose proof kDataBits_pos as Hpos.
  assert (Forall word_ok ws) as Hok by apply Hbv.
  induction m as [|m IH]; intros fuel ci cv u Hm Hfuel Hci Hu; [lia|].
  assert (word_ok (word_at ws ci)) as Hw by (apply word_at_ok; exact Hok).
  (* the bits of the current word from [u] on, when its remaining value is 0 *)
  assert (Z.shiftr (word_at ws ci) (u - ci * kDataBits) = 0 →
          ∀ j, u ≤ j < (ci + 1) * kDataBits → bit ws j = false) as Hzero.
  { intros Hz j Hj.
    replace j with (ci * kDataBits + (j - ci * kDataBits)) by lia.
    rewrite bit_word by lia.
    assert (0 ≤ u - ci * kDataBits) as Hs by lia.
    apply (proj1 (shiftr_word_zero _ _ Hw Hs) Hz). lia. }
  destruct fuel as [|fuel]; [lia|]. simpl next_word.
  destruct (Z.eqb_spec (Z.shiftr (word_at ws ci) (u - ci * kDataBits)) 0)
    as [Hz|Hnz].
  - (* move to the next word *)
    rewrite (Done_spec _ _ _ _ _ _ Hbv) by reflexivity. rewrite bind_Ret. simpl.
    destruct (Z.geb_spec (ci + 1) (Z.of_nat (length ws))) as [Hlast|Hmore].
    + left. eexists. split; [reflexivity|]. split.
      * split; simpl; [reflexivity|lia].
      * intros j Hj. apply Hzero; auto.
        replace (ci + 1) with (Z.of_nat (length ws)) by lia. lia.
    + destruct Hbv as (Hobj & Harr & Hn & _).
      unfold deref. rewrite Hobj, bind_Ret. simpl.
      erewrite load_ok; [|exact Harr|lia|].
      2:{ rewrite list_lookup_fmap, (word_at_lt ws (ci + 1)) by lia. reflexivity. }
      rewrite bind_Ret.
      specialize (IH fuel (ci + 1) cv ((ci + 1) * kDataBits)
                    ltac:(lia) ltac:(lia) ltac:(lia) ltac:(lia)).
      rewrite Z.sub_diag, Z.shiftr_0_r in IH.
      destruct IH as [(it' & Hrun & Hfin & Hnone)
                     |(ci' & u' & Hrun & Hci' & Hu' & Hnz & Hle & Hnone)].
      * left. exists it'. split; [exact Hrun|]. split; [exact Hfin|].
        intros j Hj. destruct (Z.lt_ge_cases j ((ci + 1) * kDataBits)).
        -- apply Hzero; auto. lia.
        -- apply Hnone. lia.
      * right. exists ci', u'.
        split; [exact Hrun|]. repeat split; try lia; auto.
        intros j Hj. destruct (Z.lt_ge_cases j ((ci + 1) * kDataBits)).
        -- apply Hzero; auto. lia.
        -- apply Hnone. lia.
  - right. exists ci, u. split; [reflexivity|].
    assert (u < (ci + 1) * kDataBits).
    { destruct (Z.eq_dec u ((ci + 1) * kDataBits)) as [E|]; [|lia].
      exfalso. apply Hnz. apply shiftr_word_zero; auto; [lia|].
      intros t' Ht'. lia. }
    repeat split; try lia; auto.
Qed.

Lemma Advance_spec (z : Zone) (this : nat) (len : Z) (d : nat) (ws : list Z)
    (it : t) (u : Z) (fuel : nat) :
  is_bitvector z this len d ws → about_to_examine this ws it u →
  Z.of_nat (length ws) * kDataBits ≤ Z.of_nat fuel →
  ∃ it', Advance fuel it z = Ret it' ∧
    ((finished this ws it' ∧
      ∀ j, u ≤ j < Z.of_nat (length ws) * kDataBits → bit ws j = false) ∨
     (∃ c, u ≤ c < Z.of_nat (length ws) * kDataBits ∧
           bit ws c = true ∧
           (∀ j, u ≤ j < c → bit ws j = false) ∧
           about_to_examine this ws it' (c + 1))).
Proof.
  intros Hbv Hinv Hfuel. pose proof kDataBits_pos as Hpos.
  assert (Forall word_ok ws) as Hok by apply Hbv.
  destruct it as [tg ci cv cur]. unfold about_to_examine in Hinv.
  simpl in Hinv. destruct Hinv as (-> & Hcur & Hci & Hu & ->).
  unfold Advance, add_current. simpl.
  replace (cur + 1) with u by lia.
  destruct (next_word_spec z this len d ws Hbv
              (Z.to_nat (Z.of_nat (length ws) - ci)) fuel ci
              (Z.shiftr (word_at ws ci) (u - ci * kDataBits)) u)
    as [(it' & Hrun & Hfin & Hnone)
       |(ci' & u' & Hrun & Hci' & Hu' & Hnz & Hle & Hnone)];
    try lia; try nia.
  - rewrite Hrun, bind_Ret. exists it'. split; [reflexivity|]. left. auto.
  - rewrite Hrun, bind_Ret.
    set (w := word_at ws ci') in *. set (s := u' - ci' * kDataBits) in *.
    assert (word_ok w) as Hw by (apply word_at_ok; exact Hok).
    pose proof (shiftr_word_range w s Hw ltac:(lia)) as Hrange.
    destruct (Skip_spec fuel (Z.shiftr w s)
                (mk this ci' (Z.shiftr (word_at ws ci) (u - ci * kDataBits)) u'))
      as (k & val1 & it1 & Hk & Hrun1 & Hrun2 & Hlow & Hset); [lia|nia|].
    rewrite Hrun1, bind_Ret, Hrun2, bind_Ret.
    rewrite shiftr_word_bits in Hset by lia.
    assert (s + k < kDataBits) as Hin.
    { destruct (Z.lt_ge_cases (s + k) kDataBits); [assumption|].
      rewrite word_ok_high in Hset by (auto; lia). discriminate. }
    eexists. split; [reflexivity|]. right. exists (u' + k).
    split; [nia|]. split; [|split].
    + replace (u' + k) with (ci' * kDataBits + (s + k)) by lia.
      rewrite bit_word by lia. exact Hset.
    + intros j Hj. destruct (Z.lt_ge_cases j u'); [apply Hnone; lia|].
      replace j with (ci' * kDataBits + (s + (j - u'))) by lia.
      rewrite bit_word by lia. rewrite <- shiftr_word_bits by lia.
      apply Hlow. lia.
    + unfold about_to_examine, add_current. simpl.
      repeat split; try lia.
      rewrite !Z.shiftr_shiftr by lia. fold w. f_equal. lia.
Qed.

End Advancing.

(** ** The iterator: a full traversal *)

Section Traversal.
Context {arch : Arch}.

Import BitVector.Iterator.

Lemma filter_none {A : Type} (f : A → bool) (l : list A) :
  (∀ x, In x l → f x = false) → List.filter f l = [].
Proof.
  induction l as [|x l IH]; intros H; [reflexivity|]. simpl.
  rewrite (H x) by (left; reflexivity). apply IH. intros y Hy. apply H.
  right. exact Hy.
Qed.

Lemma bits_from_none (ws : list Z) (u : Z) :
  (∀ j, u ≤ j < Z.of_nat (length ws) * kDataBits → bit ws j = false) →
  bits_from ws u = [].
Proof.
  intros H. apply filter_none. intros j Hj.
  apply list_elem_of_In, elem_of_seqZ in Hj. apply H. lia.
Qed.

Lemma bits_from_first (ws : list Z) (u c : Z) :
  u ≤ c < Z.of_nat (length ws) * kDataBits → bit ws c = true →
  (∀ j, u ≤ j < c → bit ws j = false) →
  bits_from ws u = c :: bits_from ws (c + 1).
Proof.
  intros Hc Hset Hnone. unfold bits_from.
  set (N := Z.of_nat (length ws) * kDataBits) in *.
  replace (N - u) with ((c - u) + (N - c)) by lia.
  rewrite seqZ_app, List.filter_app by lia.
  rewrite filter_none.
  2:{ intros j Hj. apply list_elem_of_In, elem_of_seqZ in Hj. apply Hnone. lia. }
  rewrite seqZ_cons by lia. simpl.
  replace (u + (c - u)) with c by lia. rewrite Hset.
  f_equal. f_equal. f_equal; lia.
Qed.

Lemma elem_of_bits_from (ws : list Z) (u i : Z) :
  i ∈ bits_from ws u ↔
  u ≤ i < Z.of_nat (length ws) * kDataBits ∧ bit ws i = true.
Proof.
  unfold bits_from. rewrite list_elem_of_In, filter_In, <- list_elem_of_In.
  rewrite elem_of_seqZ. intuition lia.
Qed.

Lemma seqZ_sorted (m n : Z) : StronglySorted Z.lt (seqZ m n).
Proof.
  destruct (Z.le_gt_cases n 0) as [Hn|Hn].
  { rewrite seqZ_nil by exact Hn. constructor. }
  remember (Z.to_nat n) as k eqn:Hk. revert m n Hn Hk.
  induction k as [|k IH]; intros m n Hn Hk; [lia|].
  rewrite seqZ_cons by lia. constructor.
  - destruct (Z.le_gt_cases (Z.pred n) 0) as [H0|H0].
    + rewrite seqZ_nil by exact H0. constructor.
    + apply IH; lia.
  - apply Forall_forall. intros x Hx. apply elem_of_seqZ in Hx. lia.
Qed.

Lemma filter_sorted {A : Type} (R : A → A → Prop) (f : A → bool) (l : list A) :
  StronglySorted R l → StronglySorted R (List.filter f l).
Proof.
  induction 1 as [|x l Hl IH Hx]; simpl; [constructor|].
  destruct (f x); [|exact IH]. constructor; [exact IH|].
  rewrite Forall_forall in *. intros y Hy.
  apply list_elem_of_In, filter_In in Hy as [Hy _].
  apply Hx, list_elem_of_In, Hy.
Qed.

Lemma bits_from_sorted (ws : list Z) (u : Z) :
  StronglySorted Z.lt (bits_from ws u).
Proof. apply filter_sorted, seqZ_sorted. Qed.

Lemma Done_finished (z : Zone) (this : nat) (len : Z) (d : nat) (ws : list Z)
    (it : t) :
  is_bitvector z this len d ws → finished this ws it → Done it z = Ret true.
Proof.
  intros Hbv [Ht Hci]. rewrite (Done_spec _ _ _ _ _ _ Hbv Ht), Hci.
  destruct (Z.geb_spec (Z.of_nat (length ws)) (Z.of_nat (length ws))); [reflexivity|lia].
Qed.

Lemma Done_resting (z : Zone) (this : nat) (len : Z) (d : nat) (ws : list Z)
    (it : t) (u : Z) :
  is_bitvector z this len d ws → about_to_examine this ws it u →
  Done it z = Ret false.
Proof.
  intros Hbv (Ht & _ & Hci & _). rewrite (Done_spec _ _ _ _ _ _ Hbv Ht).
  destruct (Z.geb_spec (current_index_ it) (Z.of_nat (length ws))); [lia|reflexivity].
Qed.

(** The loop of a traversal, from an iterator resting on the set bit [c]. *)
Lemma elements_from_resting (z : Zone) (this : nat) (len : Z) (d : nat)
    (ws : list Z) (fuel : nat) :
  is_bitvector z this len d ws →
  Z.of_nat (length ws) * kDataBits ≤ Z.of_nat fuel →
  ∀ (n steps : nat) (it : t) (c : Z),
  Z.of_nat (length ws) * kDataBits - c ≤ Z.of_nat n →
  Z.of_nat (length ws) * kDataBits - c ≤ Z.of_nat steps →
  c < Z.of_nat (length ws) * kDataBits →
  about_to_examine this ws it (c + 1) →
  elements_from steps fuel it z = Ret (c :: bits_from ws (c + 1)).
Proof.
  intros Hbv Hfuel. induction n as [|n IH]; intros steps it c Hn Hsteps Hc Hinv.
  { lia. }
  destruct steps as [|steps]; [lia|]. simpl elements_from.
  rewrite (Done_resting _ _ _ _ _ _ _ Hbv Hinv), bind_Ret.
  unfold Current. rewrite (Done_resting _ _ _ _ _ _ _ Hbv Hinv), !bind_Ret.
  destruct (Advance_spec z this len d ws it (c + 1) fuel Hbv Hinv Hfuel)
    as (it' & Hrun & [[Hfin Hnone]|(c' & Hc' & Hset & Hnone & Hinv')]).
  - rewrite Hrun, bind_Ret.
    destruct steps; simpl; rewrite (Done_finished _ _ _ _ _ _ Hbv Hfin), ?bind_Ret;
      simpl; rewrite (bits_from_none _ _ Hnone);
      destruct Hinv as (_ & -> & _); do 2 f_equal; lia.
  - rewrite Hrun, bind_Ret, (IH steps it' c') by (auto; lia).
    rewrite bind_Ret, (bits_from_first ws (c + 1) c') by auto.
    destruct Hinv as (_ & -> & _). do 2 f_equal. lia.
Qed.

Lemma first_iterator (z : Zone) (this : nat) (len : Z) (d : nat) (ws : list Z)
    (fuel : nat) :
  is_bitvector z this len d ws →
  new this fuel z = Advance fuel (mk this 0 (word_at ws 0) (-1)) z ∧
  about_to_examine this ws (mk this 0 (word_at ws 0) (-1)) 0.
Proof.
  intros (Hobj & Harr & Hn & H0 & Hok). pose proof kDataBits_pos.
  pose proof (SizeFor_pos len H0). split.
  - unfold new. rewrite (deref_ok _ _ _ Hobj), bind_Ret. simpl.
    erewrite load_ok; [|exact Harr|lia|].
    2:{ rewrite list_lookup_fmap, (word_at_lt ws 0) by lia. reflexivity. }
    rewrite bind_Ret. destruct (Z.gtb_spec (BitVector.SizeFor len) 0); [|lia].
    reflexivity.
  - unfold about_to_examine. simpl. repeat split; try lia.
Qed.

Lemma elements_spec (z : Zone) (this : nat) (len : Z) (d : nat) (ws : list Z)
    (fuel : nat) :
  is_bitvector z this len d ws →
  Z.of_nat (length ws) * kDataBits ≤ Z.of_nat fuel →
  elements this fuel z = Ret (set_bits ws).
Proof.
  intros Hbv Hfuel. unfold elements, set_bits.
  destruct (first_iterator z this len d ws fuel Hbv) as [-> Hinv].
  destruct (Advance_spec z this len d ws _ 0 fuel Hbv Hinv Hfuel)
    as (it' & Hrun & [[Hfin Hnone]|(c & Hc & Hset & Hnone & Hinv')]).
  - rewrite Hrun, bind_Ret, (bits_from_none _ _ Hnone).
    destruct fuel; simpl; rewrite (Done_finished _ _ _ _ _ _ Hbv Hfin);
      reflexivity.
  - rewrite Hrun, bind_Ret, (bits_from_first ws 0 c) by auto.
    apply (elements_from_resting z this len d ws fuel Hbv Hfuel fuel); auto; lia.
Qed.

(** With no bit set the iterator is done as soon as it is constructed. *)
Lemma new_empty_is_done (z : Zone) (this : nat) (len : Z) (d : nat)
    (ws : list Z) (fuel : nat) :
  is_bitvector z this len d ws →
  Z.of_nat (length ws) * kDataBits ≤ Z.of_nat fuel →
  set_bits ws = [] →
  ∃ it, new this fuel z = Ret it ∧ Done it z = Ret true.
Proof.
  intros Hbv Hfuel Hempty.
  destruct (first_iterator z this len d ws fuel Hbv) as [-> Hinv].
  destruct (Advance_spec z this len d ws _ 0 fuel Hbv Hinv Hfuel)
    as (it' & Hrun & [[Hfin Hnone]|(c & Hc & Hset & Hnone & Hinv')]).
  - exists it'. split; [exact Hrun|]. eapply Done_finished; eauto.
  - exfalso. unfold set_bits in Hempty.
    rewrite (bits_from_first ws 0 c) in Hempty by auto. discriminate.
Qed.

End Traversal.

(** ** Count *)

Section Counting.
Context {arch : Arch}.

Lemma count_shift (f g : Z → bool) (n a b : Z) :
  (∀ t, 0 ≤ t < n → f (a + t) = g (b + t)) →
  length (List.filter f (seqZ a n)) = length (List.filter g (seqZ b n)).
Proof.
  remember (Z.to_nat n) as k eqn:Hk. revert n a b Hk.
  induction k as [|k IH]; intros n a b Hk H.
  { rewrite !seqZ_nil by lia. reflexivity. }
  rewrite (seqZ_cons a), (seqZ_cons b) by lia. simpl.
  pose proof (H 0 ltac:(lia)) as H0. rewrite !Z.add_0_r in H0. rewrite H0.
  assert (length (List.filter f (seqZ (Z.succ a) (Z.pred n)))
          = length (List.filter g (seqZ (Z.succ b) (Z.pred n)))) as Hrest.
  { apply IH; [lia|]. intros t Ht.
    replace (Z.succ a + t) with (a + (t + 1)) by lia.
    replace (Z.succ b + t) with (b + (t + 1)) by lia. apply H. lia. }
  destruct (g b); simpl; rewrite Hrest; reflexivity.
Qed.

Lemma popcount_spec (n : nat) (w : Z) :
  BitVector.popcount n w
  = Z.of_nat (length (List.filter (Z.testbit w) (seqZ 0 (Z.of_nat n)))).
Proof.
  revert w. induction n as [|n IH]; intros w; [reflexivity|].
  simpl BitVector.popcount.
  rewrite IH, (seqZ_cons 0 (Z.of_nat (S n))) by lia. simpl List.filter.
  replace (Z.pred (Z.of_nat (S n))) with (Z.of_nat n) by lia.
  rewrite (count_shift (Z.testbit (Z.div2 w)) (Z.testbit w) _ 0 (Z.succ 0)).
  - destruct (Z.odd w); simpl length; lia.
  - intros t Ht. rewrite Z.div2_spec, Z.shiftr_spec by lia. f_equal. lia.
Qed.

Lemma CountPopulation_spec (ws : list Z) (k : Z) :
  0 ≤ k →
  BitVector.CountPopulation (word_at ws k)
  = Z.of_nat (length (List.filter (bit ws) (seqZ (k * kDataBits) kDataBits))).
Proof.
  intros Hk. pose proof kDataBits_pos. unfold BitVector.CountPopulation.
  rewrite popcount_spec, Z2Nat.id by lia. f_equal.
  apply count_shift. intros t Ht. rewrite Z.add_0_l, bit_word by lia.
  reflexivity.
Qed.

Lemma Count_spec (z : Zone) (this : nat) (len : Z) (d : nat) (ws : list Z) :
  is_bitvector z this len d ws →
  BitVector.Count this z = Ret (Z.of_nat (length (set_bits ws))).
Proof.
  intros (Hobj & Harr & Hn & H0 & Hok). pose proof kDataBits_pos.
  unfold BitVector.Count. rewrite (deref_ok _ _ _ Hobj), bind_Ret. simpl.
  unfold for_int. rewrite Z.sub_0_r, <- Hn, Nat2Z.id.
  set (st := fun k : nat =>
     Z.of_nat (length (List.filter (bit ws) (seqZ 0 (Z.of_nat k * kDataBits))))).
  change 0 with (st 0%nat) at 2.
  rewrite (for_loop_steps _ st).
  - unfold st, set_bits, bits_from. rewrite Z.sub_0_r. reflexivity.
  - intros k Hk. erewrite load_ok; [|exact Harr|lia|].
    2:{ rewrite list_lookup_fmap, (word_at_lt ws (Z.of_nat k)) by lia.
        reflexivity. }
    rewrite bind_Ret, CountPopulation_spec by lia. unfold st. f_equal.
    replace (Z.of_nat (S k) * kDataBits)
      with (Z.of_nat k * kDataBits + kDataBits) by lia.
    rewrite seqZ_app, List.filter_app, length_app by lia.
    rewrite Z.add_0_l. lia.
Qed.

End Counting.

(** ** Traversal, Count and Contains together *)

Section IteratorClaim.
Context {arch : Arch}.

Lemma scenario_2_5_9_runs : scenario_2_5_9 64 = Ret ([2; 5; 9], 3, false).
Proof. destruct arch; vm_compute; reflexivity. Qed.

(** C6. For a BitVector, a full iterator traversal (construct, then read
    [Current()] and [Advance()] until [Done()]) returns, given budget for the
    whole word array, exactly the indices of the set bits of the word array
    in strictly ascending order; their number is [Count()]; with no bit set
    the iterator is done right after construction and the traversal is
    empty; when the padding is zero the indices are those below the length
    that [Contains] accepts; and the length-10 set after
    [Add(2); Add(5); Add(9)] yields [2; 5; 9] and counts 3. *)
Theorem Iterator_traversal (z : Zone) (this : nat) (len : Z) (d : nat)
    (ws : list Z) (fuel : nat) :
  is_bitvector z this len d ws →
  Z.of_nat (length ws) * kDataBits ≤ Z.of_nat fuel →
  BitVector.Iterator.elements this fuel z = Ret (set_bits ws) ∧
  (∀ i, i ∈ set_bits ws ↔
        0 ≤ i < Z.of_nat (length ws) * kDataBits ∧ bit ws i = true) ∧
  StronglySorted Z.lt (set_bits ws) ∧
  BitVector.Count this z = Ret (Z.of_nat (length (set_bits ws))) ∧
  (set_bits ws = [] →
   ∃ it, BitVector.Iterator.new this fuel z = Ret it ∧
         BitVector.Iterator.Done it z = Ret true) ∧
  (PaddingZero len ws →
   ∀ i, i ∈ set_bits ws ↔
        0 ≤ i < len ∧ BitVector.Contains this i z = Ret true) ∧
  scenario_2_5_9 64 = Ret ([2; 5; 9], 3, false).
Proof.
  intros Hbv Hfuel.
  split; [apply (elements_spec _ _ _ _ _ _ Hbv Hfuel)|].
  split; [intros i; apply elem_of_bits_from|].
  split; [apply bits_from_sorted|].
  split; [apply (Count_spec _ _ _ _ _ Hbv)|].
  split; [apply (new_empty_is_done _ _ _ _ _ _ Hbv Hfuel)|].
  split; [|apply scenario_2_5_9_runs].
  intros Hpad i. unfold set_bits. rewrite elem_of_bits_from. split.
  - intros [Hi Hset].
    assert (i < len) as Hlt.
    { destruct (Z.lt_ge_cases i len); [assumption|].
      rewrite Hpad in Hset by lia. discriminate. }
    split; [lia|]. rewrite (Contains_spec _ _ _ _ _ i Hbv) by lia.
    rewrite Hset. reflexivity.
  - intros [Hi Hc]. rewrite (Contains_spec _ _ _ _ _ i Hbv) in Hc by lia.
    injection Hc as Hc. split; [|exact Hc].
    destruct Hbv as (_ & _ & Hn & H0 & _).
    pose proof (SizeFor_covers len H0). lia.
Qed.

End IteratorClaim.

(** ** GrowableBitVector *)

Section Growable.
Context {arch : Arch}.

Lemma length_spec (z : Zone) (this : nat) (len : Z) (d : nat) (ws : list Z) :
  is_bitvector z this len d ws → BitVector.length this z = Ret len.
Proof.
  intros (Hobj & _). unfold BitVector.length.
  rewrite (deref_ok _ _ _ Hobj). reflexivity.
Qed.

Lemma double_until_done (fuel : nat) (n value : Z) :
  value < n → GrowableBitVector.double_until fuel n value = Ret n.
Proof.
  intros H. destruct fuel; simpl; destruct (Z.leb_spec n value); auto; lia.
Qed.

(** Doubling zero never gets past a non-negative value. *)
Lemma double_until_0 (fuel : nat) (value : Z) :
  0 ≤ value → GrowableBitVector.double_until fuel 0 value = OutOfFuel.
Proof.
  intros H. induction fuel as [|fuel IH]; simpl;
    destruct (Z.leb_spec 0 value); try lia; auto.
Qed.

Lemma double_until_once (fuel : nat) :
  GrowableBitVector.double_until (S fuel) 1024 2000 = Ret 2048.
Proof. simpl. apply double_until_done. lia. Qed.

Lemma scenario_Add_2000_runs (fuel : nat) :
  (1 ≤ fuel)%nat → scenario_Add_2000 fuel = Ret (2048, true, false).
Proof.
  intros H. destruct fuel as [|fuel]; [lia|].
  unfold scenario_Add_2000, GrowableBitVector.Add,
    GrowableBitVector.EnsureCapacity.
  cbn [GrowableBitVector.InBitsRange GrowableBitVector.empty
       GrowableBitVector.bits_ Res_bind].
  change GrowableBitVector.kInitialLength with 1024.
  rewrite double_until_once.
  destruct arch; vm_compute; reflexivity.
Qed.

(** A loop of the iterator that has nothing to skip returns at once, whatever
    its budget. *)
Lemma next_word_stops (fuel : nat) (val : Z) (it : BitVector.Iterator.t)
    (z : Zone) :
  val ≠ 0 → BitVector.Iterator.next_word fuel val it z = Ret (Some val, it).
Proof.
  intros H. destruct fuel; simpl; destruct (Z.eqb_spec val 0); congruence.
Qed.

Lemma SkipZeroBytes_stops (fuel : nat) (val : Z) (it : BitVector.Iterator.t) :
  Z.land val 255 ≠ 0 →
  BitVector.Iterator.SkipZeroBytes fuel val it = Ret (val, it).
Proof.
  intros H. destruct fuel; simpl; destruct (Z.eqb_spec (Z.land val 255) 0);
    congruence.
Qed.

Lemma SkipZeroBits_stops (fuel : nat) (val : Z) (it : BitVector.Iterator.t) :
  Z.land val 1 ≠ 0 →
  BitVector.Iterator.SkipZeroBits fuel val it = Ret (val, it).
Proof.
  intros H. destruct fuel; simpl; destruct (Z.eqb_spec (Z.land val 1) 0);
    congruence.
Qed.

(** [Add] on a GrowableBitVector whose backing set has length 0 uses up any
    budget: [EnsureCapacity] doubles 0. *)
Lemma Add_into_length_0 (z : Zone) (b d : nat) (ws : list Z) (value : Z)
    (fuel : nat) :
  is_bitvector z b 0 d ws → 0 ≤ value →
  GrowableBitVector.Add (GrowableBitVector.mk (Some b)) value fuel z
  = OutOfFuel.
Proof.
  intros Hbv Hv.
  unfold GrowableBitVector.Add, GrowableBitVector.EnsureCapacity,
    GrowableBitVector.InBitsRange.
  cbn [GrowableBitVector.bits_].
  rewrite (length_spec _ _ _ _ _ Hbv), !bind_Ret.
  destruct (Z.gtb_spec 0 value); [lia|].
  rewrite double_until_0 by exact Hv. reflexivity.
Qed.

Lemma Union_loop_into_length_0 (z : Zone) (b d : nat) (ws : list Z)
    (it : BitVector.Iterator.t) (c : Z) (steps fuel : nat) :
  is_bitvector z b 0 d ws →
  BitVector.Iterator.Done it z = Ret false →
  BitVector.Iterator.current_ it = c → 0 ≤ c →
  GrowableBitVector.Union_loop steps fuel it (GrowableBitVector.mk (Some b)) z
  = OutOfFuel.
Proof.
  intros Hbv Hdone Hcur Hc. unfold BitVector.Iterator.Current.
  destruct steps; simpl; rewrite Hdone, bind_Ret; [reflexivity|].
  unfold BitVector.Iterator.Current. rewrite Hdone, !bind_Ret, Hcur.
  rewrite (Add_into_length_0 _ _ _ _ _ _ Hbv Hc). reflexivity.
Qed.

(** C7. For a GrowableBitVector and an index [i >= 0]: [Contains(i)] is
    false when there is no backing BitVector or [i] is at or past the backing
    length, and is the backing set's [Contains(i)] otherwise; and from the
    unallocated state [Add(2000, zone)] allocates a backing set of length
    2048, one doubling of the 1024 baseline, after which [Contains(2000)] is
    true and [Contains(500)] is false. *)
Theorem Growable_Contains_and_Add (z : Zone) (b : nat) (len : Z) (d : nat)
    (ws : list Z) (i : Z) (fuel : nat) :
  is_bitvector z b len d ws → 0 ≤ i → (1 ≤ fuel)%nat →
  GrowableBitVector.Contains GrowableBitVector.empty i z = Ret false ∧
  (len ≤ i →
   GrowableBitVector.Contains (GrowableBitVector.mk (Some b)) i z = Ret false) ∧
  (i < len →
   GrowableBitVector.Contains (GrowableBitVector.mk (Some b)) i z
   = BitVector.Contains b i z) ∧
  scenario_Add_2000 fuel = Ret (2048, true, false).
Proof.
  intros Hbv Hi Hfuel. split; [reflexivity|].
  unfold GrowableBitVector.Contains, GrowableBitVector.InBitsRange. simpl.
  rewrite (length_spec _ _ _ _ _ Hbv), !bind_Ret.
  split; [|split].
  - intros Hge. destruct (Z.gtb_spec len i); [lia|reflexivity].
  - intros Hlt. destruct (Z.gtb_spec len i); [reflexivity|lia].
  - apply scenario_Add_2000_runs. exact Hfuel.
Qed.

(** C8, at the failing input. A GrowableBitVector constructed with length 0
    never gets out of [Union] with the set {0}: whatever the budget, the
    doubling loop of [EnsureCapacity] uses it up. *)
Theorem Union_into_length_0_never_returns (fuel : nat) :
  union_into_length_0 fuel = OutOfFuel.
Proof.
  unfold union_into_length_0.
  assert (GrowableBitVector.new 0 empty_zone
          = Ret (GrowableBitVector.mk (Some 0%nat), zone_after_new 0 empty_zone))
    as -> by (destruct arch; reflexivity).
  cbn [Res_bind].
  set (z0 := zone_after_new 0 empty_zone).
  assert (GrowableBitVector.Add GrowableBitVector.empty 0 1 z0
          = Ret (GrowableBitVector.mk (Some 1%nat),
                 with_array 1
                   (Some <$> (set_bit
                      (replicate (Z.to_nat (BitVector.SizeFor 1024)) 0) 0))
                   (zone_after_new 1024 z0)))
    as -> by (destruct arch; vm_compute; reflexivity).
  cbn [Res_bind].
  set (z1 := with_array 1 _ _).
  assert (is_bitvector z1 0 0 0 [0]) as Hg.
  { destruct arch; repeat split; try reflexivity; try lia;
      repeat constructor; vm_compute; intuition discriminate. }
  unfold GrowableBitVector.Union, GrowableBitVector.Iterator_new.
  cbn [GrowableBitVector.bits_ Res_bind].
  assert (BitVector.Iterator.new 1 fuel z1
          = Ret (BitVector.Iterator.mk 1 0 0 0)) as ->.
  { unfold BitVector.Iterator.new.
    assert (deref 1 z1 = Ret (mkBitVector 1024 (BitVector.SizeFor 1024) 1))
      as -> by reflexivity.
    cbn [Res_bind data_ data_length_].
    assert (load 1 0 z1 = Ret 1) as -> by (destruct arch; reflexivity).
    cbn [Res_bind].
    assert ((BitVector.SizeFor 1024 >? 0) = true) as ->
      by (destruct arch; reflexivity).
    unfold BitVector.Iterator.Advance, BitVector.Iterator.add_current.
    cbn [BitVector.Iterator.current_value_ BitVector.Iterator.current_
         BitVector.Iterator.target_ BitVector.Iterator.current_index_].
    rewrite next_word_stops, bind_Ret by lia.
    rewrite SkipZeroBytes_stops, bind_Ret by (vm_compute; discriminate).
    rewrite SkipZeroBits_stops, bind_Ret by (vm_compute; discriminate).
    reflexivity. }
  cbn [Res_bind].
  apply (Union_loop_into_length_0 z1 0%nat 0%nat [0] _ 0); auto; try lia.
  destruct arch; reflexivity.
Qed.

End Growable.

(** ** What a mutation can touch *)

Section Frames.
Context {arch : Arch}.

Lemma union_into_length_1_runs : union_into_length_1 64 = Ret true.
Proof. destruct arch; vm_compute; reflexivity. Qed.

Lemma writes_only_refl (d : nat) (z : Zone) : writes_only d z z.
Proof. repeat split. Qed.

Lemma writes_only_trans (d : nat) (z1 z2 z3 : Zone) :
  writes_only d z1 z2 → writes_only d z2 z3 → writes_only d z1 z3.
Proof.
  intros (Ho & Hl & Ha) (Ho' & Hl' & Ha'). repeat split; try congruence.
  intros d' Hd'. rewrite Ha', Ha; auto.
Qed.

Lemma store_writes_only (d : nat) (i w : Z) (z z' : Zone) :
  store d i w z = Ret z' → writes_only d z z'.
Proof.
  unfold store. destruct (i <? 0); [discriminate|].
  destruct (arrays z !! d) as [a|]; [|discriminate].
  destruct (bool_decide _); [|discriminate].
  intros [= <-]. repeat split; simpl.
  - apply length_insert.
  - intros d' Hd'. apply list_lookup_insert_ne. auto.
Qed.

Lemma for_loop_writes_only (d : nat) (body : Z → Zone → Res Zone) :
  (∀ i z z', body i z = Ret z' → writes_only d z z') →
  ∀ n i z z', for_loop n i body z = Ret z' → writes_only d z z'.
Proof.
  intros Hbody. induction n as [|n IH]; intros i z z' H; simpl in H.
  - injection H as <-. apply writes_only_refl.
  - destruct (body i z) as [z1| |] eqn:E; try discriminate. simpl in H.
    eapply writes_only_trans; eauto.
Qed.

Lemma for_loop_writes_only_flag (d : nat)
    (body : Z → bool * Zone → Res (bool * Zone)) :
  (∀ i c z c' z', body i (c, z) = Ret (c', z') → writes_only d z z') →
  ∀ n i c z c' z',
    for_loop n i body (c, z) = Ret (c', z') → writes_only d z z'.
Proof.
  intros Hbody. induction n as [|n IH]; intros i c z c' z' H; simpl in H.
  - injection H as <- <-. apply writes_only_refl.
  - destruct (body i (c, z)) as [[c1 z1]| |] eqn:E; try discriminate.
    simpl in H. eapply writes_only_trans; eauto.
Qed.

Lemma fill_writes_only (d : nat) (c n : Z) (z z' : Zone) :
  for_int 0 n (fun i z => store d i c z) z = Ret z' → writes_only d z z'.
Proof.
  apply for_loop_writes_only. intros i z0 z1. cbv beta. apply store_writes_only.
Qed.

Lemma combine_words_writes_only (op : Z → Z → Z) (this other : nat)
    (o : BitVector) (z z' : Zone) :
  objects z !! this = Some o →
  BitVector.combine_words op this other z = Ret z' →
  writes_only (data_ o) z z'.
Proof.
  intros Hobj. unfold BitVector.combine_words.
  rewrite (deref_ok _ _ _ Hobj), bind_Ret.
  destruct (deref other z) as [oo| |]; try discriminate. simpl.
  destruct (length_ oo =? length_ o); [|discriminate].
  apply for_loop_writes_only. intros i z0 z1. cbv beta.
  destruct (load (data_ o) i z0); try discriminate. simpl.
  destruct (load (data_ oo) i z0); try discriminate. simpl.
  apply store_writes_only.
Qed.

Lemma combine_words_changed_writes_only (op : Z → Z → Z) (this other : nat)
    (o : BitVector) (z z' : Zone) (c : bool) :
  objects z !! this = Some o →
  BitVector.combine_words_changed op this other z = Ret (c, z') →
  writes_only (data_ o) z z'.
Proof.
  intros Hobj. unfold BitVector.combine_words_changed.
  rewrite (deref_ok _ _ _ Hobj), bind_Ret.
  destruct (deref other z) as [oo| |]; try discriminate. simpl.
  destruct (length_ oo =? length_ o); [|discriminate].
  apply for_loop_writes_only_flag. intros i c0 z0 c1 z1. cbv beta.
  destruct (load (data_ o) i z0); try discriminate. simpl.
  destruct (load (data_ oo) i z0); try discriminate. simpl.
  destruct (store (data_ o) i _ z0) as [z2| |] eqn:E; try discriminate. simpl.
  destruct (load (data_ o) i z2); try discriminate. simpl.
  intros [= _ <-]. eapply store_writes_only; eauto.
Qed.

Lemma CopyFrom_data_writes_only (this src : nat) (n : Z) (o : BitVector)
    (z z' : Zone) :
  objects z !! this = Some o →
  BitVector.CopyFrom_data this src n z = Ret z' →
  writes_only (data_ o) z z'.
Proof.
  intros Hobj. unfold BitVector.CopyFrom_data.
  rewrite (deref_ok _ _ _ Hobj), bind_Ret.
  destruct (n <=? data_length_ o); [|discriminate].
  destruct (for_int 0 n _ z) as [z1| |] eqn:E; try discriminate. simpl.
  intros H. eapply writes_only_trans.
  - eapply for_loop_writes_only; [|exact E]. intros i z0 z2. cbv beta.
    destruct (load src i z0); try discriminate. simpl. apply store_writes_only.
  - eapply for_loop_writes_only; [|exact H]. intros i z0 z2. cbv beta.
    apply store_writes_only.
Qed.

Lemma single_bit_writes_only (f : Z → Z → Z) (this : nat) (i s : Z)
    (o : BitVector) (z z' : Zone) :
  (block <- load (data_ o) i z ;; store (data_ o) i (f block s) z) = Ret z' →
  writes_only (data_ o) z z'.
Proof.
  destruct (load (data_ o) i z); try discriminate. simpl.
  apply store_writes_only.
Qed.

Lemma writes_only_mutates_only (this : nat) (o : BitVector) (z z' : Zone) :
  objects z !! this = Some o → writes_only (data_ o) z z' →
  mutates_only this z z'.
Proof.
  intros Hobj (Ho & Hl & Ha). split; [|split].
  - intros x _. rewrite Ho. reflexivity.
  - lia.
  - exists o, o. rewrite Ho. repeat split; auto.
Qed.

End Frames.

(** ** Independence of a copy *)

Section Independence.
Context {arch : Arch}.

Lemma Resize_mutates_only (this : nat) (new_length : Z) (o : BitVector)
    (z z' : Zone) :
  objects z !! this = Some o →
  BitVector.Resize this new_length z = Ret z' →
  mutates_only this z z'.
Proof.
  intros Hobj. pose proof (lookup_lt_Some _ _ _ Hobj) as Hthis.
  unfold BitVector.Resize. rewrite (deref_ok _ _ _ Hobj), bind_Ret.
  destruct (new_length >? length_ o); [|discriminate].
  destruct (BitVector.SizeFor new_length >? data_length_ o).
  - unfold NewArray.
    set (o2 := mkBitVector (length_ o) (BitVector.SizeFor new_length)
                 (length (arrays z))).
    set (z2 := assign this o2 _).
    assert (objects z2 !! this = Some o2) as Hobj2
      by (apply list_lookup_insert_eq; exact Hthis).
    destruct (BitVector.CopyFrom_data this (data_ o) (data_length_ o) z2)
      as [z3| |] eqn:E; try discriminate.
    apply (CopyFrom_data_writes_only _ _ _ _ _ _ Hobj2) in E
      as (Ho3 & Hl3 & Ha3).
    rewrite bind_Ret. unfold deref. rewrite Ho3, Hobj2, bind_Ret.
    intros [= <-]. split; [|split]; simpl.
    + intros x Hx. rewrite list_lookup_insert_ne, Ho3 by auto. simpl.
      apply list_lookup_insert_ne. auto.
    + rewrite Hl3. simpl. rewrite length_app. lia.
    + exists o, (mkBitVector new_length (BitVector.SizeFor new_length)
                   (length (arrays z))).
      split; [exact Hobj|]. split.
      { rewrite Ho3. apply list_lookup_insert_eq. simpl.
        rewrite length_insert. exact Hthis. }
      split.
      { right. rewrite Hl3. simpl. rewrite length_app. simpl. lia. }
      intros d' _ Hd'. rewrite Ha3 by (simpl; lia). simpl.
      apply lookup_app_l. exact Hd'.
  - rewrite bind_Ret, (deref_ok _ _ _ Hobj), bind_Ret.
    intros [= <-]. split; [|split]; simpl.
    + intros x Hx. apply list_lookup_insert_ne. auto.
    + lia.
    + exists o, (mkBitVector new_length (data_length_ o) (data_ o)).
      split; [exact Hobj|]. split; [apply list_lookup_insert_eq; exact Hthis|].
      split; [left; reflexivity|]. reflexivity.
Qed.

Lemma mutate_mutates_only (this : nat) (m : Mutation) (o : BitVector)
    (z z' : Zone) :
  objects z !! this = Some o → mutate this m z = Ret z' →
  mutates_only this z z'.
Proof.
  intros Hobj.
  destruct m as [i|i| | |other|other|other|other|other|other|new_length];
    simpl; intros H;
    [apply (writes_only_mutates_only _ _ _ _ Hobj) ..|].
  - unfold BitVector.Add in H. rewrite (deref_ok _ _ _ Hobj), bind_Ret in H.
    destruct (_ && _); [|discriminate].
    eapply (single_bit_writes_only Z.lor); eauto.
  - unfold BitVector.Remove in H. rewrite (deref_ok _ _ _ Hobj), bind_Ret in H.
    destruct (_ && _); [|discriminate].
    eapply (single_bit_writes_only
              (fun a s => Z.land a (BitVector.uintptr (Z.lnot s)))); eauto.
  - unfold BitVector.AddAll in H. rewrite (deref_ok _ _ _ Hobj), bind_Ret in H.
    eapply fill_writes_only; eauto.
  - unfold BitVector.Clear in H. rewrite (deref_ok _ _ _ Hobj), bind_Ret in H.
    eapply fill_writes_only; eauto.
  - eapply combine_words_writes_only; eauto.
  - destruct (BitVector.UnionIsChanged this other z) as [[c z1]| |] eqn:E;
      try discriminate.
    simpl in H. injection H as <-.
    eapply combine_words_changed_writes_only; eauto.
  - eapply combine_words_writes_only; eauto.
  - destruct (BitVector.IntersectIsChanged this other z) as [[c z1]| |] eqn:E;
      try discriminate.
    simpl in H. injection H as <-.
    eapply combine_words_changed_writes_only; eauto.
  - eapply combine_words_writes_only; eauto.
  - unfold BitVector.CopyFrom in H.
    rewrite (deref_ok _ _ _ Hobj), bind_Ret in H.
    destruct (deref other z) as [oo| |]; try discriminate. simpl in H.
    destruct (length_ oo <=? length_ o); [|discriminate].
    eapply CopyFrom_data_writes_only; eauto.
  - eapply Resize_mutates_only; eauto.
Qed.

Lemma mutates_only_separate (x this : nat) (z z' : Zone) :
  separate x this z → mutates_only this z z' →
  untouched x z z' ∧ separate x this z'.
Proof.
  intros (ox & ot & Hx & Ht & Hne & Hd & Hbx & Hbt)
         (Hobjs & Hlen & o & o' & Ho & Ho' & Hdata & Harr).
  assert (ot = o) as -> by congruence.
  assert (objects z' !! x = Some ox) as Hx' by (rewrite Hobjs; auto).
  split.
  - exists ox. repeat split; auto.
  - exists ox, o'. repeat split; auto; lia.
Qed.

Lemma untouched_refl (x : nat) (o : BitVector) (z : Zone) :
  objects z !! x = Some o → untouched x z z.
Proof. intros H. exists o. auto. Qed.

Lemma untouched_trans (x : nat) (z1 z2 z3 : Zone) :
  untouched x z1 z2 → untouched x z2 z3 → untouched x z1 z3.
Proof.
  intros (o & H1 & H2 & Ha) (o' & H2' & H3 & Ha').
  assert (o' = o) as -> by congruence.
  exists o. repeat split; auto. congruence.
Qed.

Lemma mutate_all_untouched (x this : nat) (ms : list Mutation) :
  ∀ z z', separate x this z → mutate_all this ms z = Ret z' →
          untouched x z z'.
Proof.
  induction ms as [|m ms IH]; intros z z' Hsep H; simpl in H.
  - injection H as <-. destruct Hsep as (ox & _ & Hx & _).
    eapply untouched_refl; eauto.
  - destruct (mutate this m z) as [z1| |] eqn:E; try discriminate.
    simpl in H. destruct Hsep as (ox & ot & Hx & Ht & Hrest).
    pose proof (mutate_mutates_only _ _ _ _ _ Ht E) as Hmut.
    destruct (mutates_only_separate x this z z1) as [Hun Hsep1]; auto.
    { exists ox, ot. auto. }
    eapply untouched_trans; eauto.
Qed.

Lemma Contains_untouched (x : nat) (i : Z) (z z' : Zone) :
  untouched x z z' → BitVector.Contains x i z' = BitVector.Contains x i z.
Proof.
  intros (o & Hz & Hz' & Ha). unfold BitVector.Contains.
  rewrite (deref_ok _ _ _ Hz), (deref_ok _ _ _ Hz'), !bind_Ret.
  destruct (_ && _); [|reflexivity]. unfold load. rewrite Ha. reflexivity.
Qed.

Lemma separate_sym (x y : nat) (z : Zone) : separate x y z → separate y x z.
Proof.
  intros (ox & oy & H). exists oy, ox. intuition.
Qed.

Lemma is_bitvector_untouched (x : nat) (z z' : Zone) (len : Z) (d : nat)
    (ws : list Z) :
  untouched x z z' → is_bitvector z x len d ws → is_bitvector z' x len d ws.
Proof.
  intros (o & Hz & Hz' & Ha) (Hobj & Harr & H).
  assert (o = mkBitVector len (BitVector.SizeFor len) d) as -> by congruence.
  repeat split; try apply H; auto. simpl in Ha. congruence.
Qed.

(** C9. Copy-constructing B2 from a BitVector B gives a new object on a new
    array, a well-formed BitVector of the same length holding the same words
    as B, which stays as it was: [B2.Equals(B)] and [B.Equals(B2)] are true
    and both answer every valid [Contains(i)] as B did. The storage is
    independent: whatever mutations are then applied to B2, B keeps its
    words and every [Contains(i)] on B answers as before them, and the other
    way round. *)
Theorem copy_equal_and_independent (z : Zone) (b : nat) (len : Z) (d : nat)
    (ws : list Z) :
  is_bitvector z b len d ws →
  ∃ b2 z1 d2,
    BitVector.new_copy b z = Ret (b2, z1) ∧
    objects z !! b2 = None ∧ arrays z !! d2 = None ∧ b2 ≠ b ∧ d2 ≠ d ∧
    is_bitvector z1 b2 len d2 ws ∧
    is_bitvector z1 b len d ws ∧
    BitVector.length b2 z1 = Ret len ∧
    BitVector.Equals b2 b z1 = Ret true ∧
    BitVector.Equals b b2 z1 = Ret true ∧
    (∀ i, 0 ≤ i < len →
          ∃ r, BitVector.Contains b i z = Ret r ∧
               BitVector.Contains b i z1 = Ret r ∧
               BitVector.Contains b2 i z1 = Ret r) ∧
    separate b b2 z1 ∧
    (∀ ms z2 i, mutate_all b2 ms z1 = Ret z2 →
                BitVector.Contains b i z2 = BitVector.Contains b i z1) ∧
    (∀ ms z2 i, mutate_all b ms z1 = Ret z2 →
                BitVector.Contains b2 i z2 = BitVector.Contains b2 i z1) ∧
    (∀ ms z2, mutate_all b2 ms z1 = Ret z2 →
              is_bitvector z2 b len d ws ∧
              ∀ i, 0 ≤ i < len → BitVector.Contains b i z2 = Ret (bit ws i)) ∧
    (∀ ms z2, mutate_all b ms z1 = Ret z2 →
              is_bitvector z2 b2 len d2 ws ∧
              ∀ i, 0 ≤ i < len → BitVector.Contains b2 i z2 = Ret (bit ws i)).
Proof.
  intros Hbv. destruct (is_bitvector_copy _ _ _ _ _ Hbv) as [Hb2 Hb].
  assert (b < length (objects z) ∧ d < length (arrays z))%nat as [Hlo Hla].
  { destruct Hbv as (Hobj & Harr & _).
    split; eapply lookup_lt_Some; eauto. }
  assert (separate b (length (objects z)) (zone_after_copy len ws z)) as Hsep.
  { eexists _, _. split; [apply Hb|]. split; [apply Hb2|].
    simpl. rewrite length_app. simpl. repeat split; lia. }
  exists (length (objects z)), (zone_after_copy len ws z), (length (arrays z)).
  split; [apply (new_copy_spec _ _ _ _ _ Hbv)|].
  split; [apply lookup_ge_None_2; lia|].
  split; [apply lookup_ge_None_2; lia|].
  split; [lia|]. split; [lia|].
  split; [exact Hb2|]. split; [exact Hb|].
  split; [apply (length_spec _ _ _ _ _ Hb2)|].
  split; [rewrite (Equals_spec _ _ _ _ _ _ _ _ Hb2 Hb);
          rewrite bool_decide_true by reflexivity; reflexivity|].
  split; [rewrite (Equals_spec _ _ _ _ _ _ _ _ Hb Hb2);
          rewrite bool_decide_true by reflexivity; reflexivity|].
  split.
  { intros i Hi. exists (bit ws i).
    rewrite (Contains_spec _ _ _ _ _ _ Hbv Hi), (Contains_spec _ _ _ _ _ _ Hb Hi),
      (Contains_spec _ _ _ _ _ _ Hb2 Hi).
    repeat split. }
  split; [exact Hsep|]. split; [|split; [|split]].
  - intros ms z2 i H. apply Contains_untouched.
    eapply mutate_all_untouched; eauto.
  - intros ms z2 i H. apply Contains_untouched.
    eapply mutate_all_untouched; eauto using separate_sym.
  - intros ms z2 H.
    pose proof (mutate_all_untouched _ _ _ _ _ Hsep H) as Hun.
    pose proof (is_bitvector_untouched _ _ _ _ _ _ Hun Hb) as Hb'.
    split; [exact Hb'|]. intros i Hi. apply (Contains_spec _ _ _ _ _ _ Hb' Hi).
  - intros ms z2 H.
    pose proof (mutate_all_untouched _ _ _ _ _ (separate_sym _ _ _ Hsep) H)
      as Hun.
    pose proof (is_bitvector_untouched _ _ _ _ _ _ Hun Hb2) as Hb'.
    split; [exact Hb'|]. intros i Hi. apply (Contains_spec _ _ _ _ _ _ Hb' Hi).
Qed.

End Independence.

(** ** The padding invariant *)

Section PaddingInvariant.
Context {arch : Arch}.

Lemma PaddingZero_set_bit (len : Z) (ws : list Z) (i : Z) :
  Z.of_nat (length ws) = BitVector.SizeFor len → 0 ≤ i < len →
  PaddingZero len ws → PaddingZero len (set_bit ws i).
Proof.
  intros Hn Hi Hpad j Hj. pose proof (word_index_range len i Hi).
  rewrite bit_set_bit by lia.
  destruct (Z.eqb_spec j i); [lia|]. apply Hpad. exact Hj.
Qed.

Lemma PaddingZero_clear_bit (len : Z) (ws : list Z) (i : Z) :
  Z.of_nat (length ws) = BitVector.SizeFor len → 0 ≤ i < len →
  PaddingZero len ws → PaddingZero len (clear_bit ws i).
Proof.
  intros Hn Hi Hpad j Hj. pose proof (word_index_range len i Hi).
  rewrite bit_clear_bit by lia.
  destruct (Z.eqb_spec j i); [lia|]. apply Hpad. exact Hj.
Qed.

Lemma PaddingZero_land (len : Z) (ws vs : list Z) :
  length ws = length vs → PaddingZero len ws →
  PaddingZero len (zip_with Z.land ws vs).
Proof.
  intros Hl Hpad j Hj. rewrite (bit_zip_with Z.land andb); auto.
  - rewrite Hpad by exact Hj. reflexivity.
  - intros a b t _. apply Z.land_spec.
Qed.

Lemma PaddingZero_lor (len : Z) (ws vs : list Z) :
  length ws = length vs → PaddingZero len ws → PaddingZero len vs →
  PaddingZero len (zip_with Z.lor ws vs).
Proof.
  intros Hl Hpad Hpad' j Hj. rewrite (bit_zip_with Z.lor orb); auto.
  - rewrite Hpad, Hpad' by exact Hj. reflexivity.
  - intros a b t _. apply Z.lor_spec.
Qed.

Lemma subtract_words (ws vs : list Z) :
  Forall word_ok ws →
  zip_with (fun a b => Z.land a (BitVector.uintptr (Z.lnot b))) ws vs
  = zip_with Z.ldiff ws vs.
Proof.
  intros Hok. apply list_eq. intros k. rewrite !lookup_zip_with.
  destruct (ws !! k) as [a|] eqn:E; [|reflexivity]. simpl.
  destruct (vs !! k) as [b|]; [|reflexivity]. simpl.
  rewrite land_not_word; [reflexivity|]. rewrite Forall_lookup in Hok. eauto.
Qed.

Lemma PaddingZero_subtract (len : Z) (ws vs : list Z) :
  Forall word_ok ws → length ws = length vs → PaddingZero len ws →
  PaddingZero len
    (zip_with (fun a b => Z.land a (BitVector.uintptr (Z.lnot b))) ws vs).
Proof.
  intros Hok Hl Hpad j Hj. rewrite subtract_words by exact Hok.
  rewrite (bit_zip_with Z.ldiff (fun x y => x && negb y)); auto.
  - rewrite Hpad by exact Hj. reflexivity.
  - intros a b t _. apply Z.ldiff_spec.
Qed.

(** With zero padding, equal words and equal bits below the length are the
    same thing. *)
Lemma words_eq_below_length (len : Z) (ws vs : list Z) :
  Forall word_ok ws → Forall word_ok vs → length ws = length vs →
  PaddingZero len ws → PaddingZero len vs →
  ws = vs ↔ ∀ j, 0 ≤ j < len → bit ws j = bit vs j.
Proof.
  intros Hws Hvs Hl Hp Hp'. split; [intros ->; reflexivity|].
  intros H. apply words_eq_bits; auto. intros j Hj.
  destruct (Z.lt_ge_cases j len); [apply H; lia|].
  rewrite Hp, Hp' by lia. reflexivity.
Qed.

(** With zero padding, the set bits are all below the length. *)
Lemma set_bits_below_length (len : Z) (ws : list Z) :
  0 ≤ len ≤ Z.of_nat (length ws) * kDataBits → PaddingZero len ws →
  set_bits ws = List.filter (bit ws) (seqZ 0 len).
Proof.
  intros Hlen Hpad. unfold set_bits, bits_from.
  set (N := Z.of_nat (length ws) * kDataBits) in *.
  replace (N - 0) with (len + (N - len)) by lia.
  rewrite seqZ_app, List.filter_app by lia.
  rewrite (filter_none _ (seqZ (0 + len) (N - len))), app_nil_r; [reflexivity|].
  intros j Hj. apply list_elem_of_In, elem_of_seqZ in Hj. apply Hpad. lia.
Qed.

Lemma Resize_after_AddAll_runs : Resize_after_AddAll = Ret true.
Proof. destruct arch; vm_compute; reflexivity. Qed.

End PaddingInvariant.

(** ** GrowableBitVector: Add and Union where they return *)

Section GrowableUnion.
Context {arch : Arch}.

Lemma Growable_Contains_spec (z : Zone) (g : GrowableBitVector.t) (len : Z)
    (ws : list Z) (i : Z) :
  is_growable z g len ws → 0 ≤ i →
  GrowableBitVector.Contains g i z = Ret (bit ws i).
Proof.
  intros Hg Hi. unfold is_growable in Hg.
  unfold GrowableBitVector.Contains, GrowableBitVector.InBitsRange.
  destruct (GrowableBitVector.bits_ g) as [b|].
  - destruct Hg as (d & Hbv & Hpad & Hlen).
    rewrite (length_spec _ _ _ _ _ Hbv), !bind_Ret.
    destruct (Z.gtb_spec len i).
    + apply (Contains_spec _ _ _ _ _ _ Hbv). lia.
    + rewrite Hpad by lia. reflexivity.
  - destruct Hg as [_ ->]. simpl. unfold bit, word_at.
    rewrite lookup_nil. simpl. rewrite Z.bits_0. reflexivity.
Qed.

(** The doubling loop returns when it starts from a positive length and
    twice the value fits an [int]. *)
Lemma double_until_spec (fuel : nat) (n value : Z) :
  0 < n ≤ INT_MAX → 0 ≤ value → 2 * value ≤ INT_MAX →
  value < n * 2 ^ Z.of_nat fuel →
  ∃ n', GrowableBitVector.double_until fuel n value = Ret n' ∧
        value < n' ∧ n ≤ n' ≤ INT_MAX ∧
        (n ≤ value → n' ≤ 2 * value) ∧ (value < n → n' = n).
Proof.
  unfold INT_MAX. revert n. induction fuel as [|fuel IH]; intros n Hn Hv Hv2 Hf.
  - simpl in Hf. exists n.
    rewrite double_until_done by lia. repeat split; lia.
  - destruct (Z.le_gt_cases n value) as [Hle|Hgt].
    + simpl. destruct (Z.leb_spec n value); [|lia].
      unfold INT_MIN, INT_MAX.
      destruct (Z.leb_spec (-2147483648) (n * 2)); [|lia].
      destruct (Z.leb_spec (n * 2) 2147483647); [|lia]. simpl.
      destruct (IH (n * 2)) as (n' & Hrun & Hlt & Hrange & Hbound & Hsame);
        try lia.
      { replace (Z.of_nat (S fuel)) with (1 + Z.of_nat fuel) in Hf by lia.
        rewrite Z.pow_add_r in Hf by lia. lia. }
      exists n'. split; [exact Hrun|]. repeat split; lia.
    + exists n. rewrite double_until_done by lia. repeat split; lia.
Qed.

Lemma double_until_31 (fuel : nat) (n value : Z) :
  0 < n ≤ INT_MAX → 0 ≤ value → 2 * value ≤ INT_MAX → (31 ≤ fuel)%nat →
  ∃ n', GrowableBitVector.double_until fuel n value = Ret n' ∧
        value < n' ∧ n ≤ n' ≤ INT_MAX ∧
        (n ≤ value → n' ≤ 2 * value) ∧ (value < n → n' = n).
Proof.
  intros Hn Hv Hv2 Hfuel. apply double_until_spec; auto.
  assert (2 ^ 31 ≤ 2 ^ Z.of_nat fuel) by (apply Z.pow_le_mono_r; lia).
  unfold INT_MAX in *. change (2 ^ 31) with 2147483648 in *. nia.
Qed.

Lemma bit_nil (i : Z) : bit [] i = false.
Proof. unfold bit, word_at. rewrite lookup_nil. simpl. apply Z.bits_0. Qed.

Lemma mutate_all_separate (x this : nat) (ms : list Mutation) :
  ∀ z z', separate x this z → mutate_all this ms z = Ret z' →
          untouched x z z' ∧ separate x this z'.
Proof.
  induction ms as [|m ms IH]; intros z z' Hsep H; simpl in H.
  - injection H as <-. split; [|exact Hsep].
    destruct Hsep as (ox & _ & Hx & _). eapply untouched_refl; eauto.
  - destruct (mutate this m z) as [z1| |] eqn:E; try discriminate.
    simpl in H. pose proof Hsep as (ox & ot & Hx & Ht & Hrest).
    pose proof (mutate_mutates_only _ _ _ _ _ Ht E) as Hmut.
    destruct (mutates_only_separate x this z z1 Hsep Hmut) as [Hun Hsep1].
    destruct (IH z1 z' Hsep1 H) as [Hun' Hsep'].
    split; [eapply untouched_trans; eauto|exact Hsep'].
Qed.

(** [Add] on an unallocated GrowableBitVector. *)
Lemma Growable_Add_unallocated (z : Zone) (v : Z) (fuel : nat) :
  0 ≤ v → 2 * v ≤ INT_MAX → (31 ≤ fuel)%nat →
  ∃ g' z' len' ws',
    GrowableBitVector.Add GrowableBitVector.empty v fuel z = Ret (g', z') ∧
    is_growable z' g' len' ws' ∧
    (∀ i, 0 ≤ i → bit ws' i = (i =? v)) ∧
    (∀ x, apart x GrowableBitVector.empty z →
          untouched x z z' ∧ apart x g' z').
Proof.
  intros Hv Hv2 Hfuel.
  destruct (double_until_31 fuel 1024 v) as (n' & Hrun & Hlt & Hrange & _);
    auto; [unfold INT_MAX; lia|].
  pose proof (is_bitvector_new n' z ltac:(lia)) as Hnew.
  pose proof (is_bitvector_set_bit _ _ _ _ _ v Hnew) as Hset.
  assert (0 ≤ v < n') as Hin by lia.
  pose proof (word_index_range n' v Hin) as Hword.
  pose proof (SizeFor_pos n' ltac:(lia)) as Hsize.
  eexists _, _, n', _. split; [|split; [|split]].
  - unfold GrowableBitVector.Add, GrowableBitVector.EnsureCapacity. simpl.
    change GrowableBitVector.kInitialLength with 1024.
    rewrite Hrun, bind_Ret, new_spec, !bind_Ret by lia. simpl.
    rewrite (Add_spec _ _ _ _ _ _ Hnew Hin), bind_Ret. reflexivity.
  - simpl. eexists. split; [exact Hset|]. split; [|lia].
    apply PaddingZero_set_bit; auto using PaddingZero_zeros.
    rewrite length_replicate. lia.
  - intros i Hi. rewrite bit_set_bit, bit_zeros;
      rewrite ?length_replicate; try lia.
    destruct (i =? v); reflexivity.
  - intros x (o & Hx & Hd). pose proof (lookup_lt_Some _ _ _ Hx) as Hxlt.
    split.
    + exists o. split; [exact Hx|]. split.
      * simpl. apply lookup_app_l_Some. exact Hx.
      * rewrite arrays_with_array_ne by lia. simpl. apply lookup_app_l. exact Hd.
    + simpl. eexists o, _. split.
      { simpl. apply lookup_app_l_Some. exact Hx. }
      split; [apply Hset|]. simpl.
      rewrite length_insert, length_app. simpl. repeat split; lia.
Qed.

(** [Add] on a GrowableBitVector with a backing set. *)
Lemma Growable_Add_allocated (z : Zone) (b : nat) (len : Z) (ws : list Z)
    (v : Z) (fuel : nat) :
  is_growable z (GrowableBitVector.mk (Some b)) len ws →
  0 ≤ v → 2 * v ≤ INT_MAX → (31 ≤ fuel)%nat →
  ∃ z' len' ws',
    GrowableBitVector.Add (GrowableBitVector.mk (Some b)) v fuel z
    = Ret (GrowableBitVector.mk (Some b), z') ∧
    is_growable z' (GrowableBitVector.mk (Some b)) len' ws' ∧
    (∀ i, 0 ≤ i → bit ws' i = (i =? v) || bit ws i) ∧
    (∀ x, separate x b z → untouched x z z' ∧ separate x b z').
Proof.
  intros (d & Hbv & Hpad & Hlen) Hv Hv2 Hfuel.
  assert (Z.of_nat (length ws) = BitVector.SizeFor len) as Hn by apply Hbv.
  unfold GrowableBitVector.Add, GrowableBitVector.EnsureCapacity,
    GrowableBitVector.InBitsRange.
  cbn [GrowableBitVector.bits_].
  rewrite (length_spec _ _ _ _ _ Hbv), !bind_Ret.
  destruct (Z.gtb_spec len v) as [Hin|Hout].
  - assert (0 ≤ v < len) as Hi by lia.
    pose proof (word_index_range len v Hi) as Hword.
    rewrite bind_Ret. cbn [GrowableBitVector.bits_].
    rewrite (Add_spec _ _ _ _ _ _ Hbv Hi), bind_Ret.
    eexists _, len, _. split; [reflexivity|]. split; [|split].
    + eexists. split; [apply is_bitvector_set_bit; exact Hbv|].
      split; [|lia]. apply PaddingZero_set_bit; auto.
    + intros i Hi'. rewrite bit_set_bit by lia.
      destruct (i =? v); reflexivity.
    + intros x Hsep.
      apply (mutate_all_separate x b [MAdd v]); [exact Hsep|]. simpl.
      rewrite (Add_spec _ _ _ _ _ _ Hbv Hi). reflexivity.
  - destruct (double_until_31 fuel len v) as (n' & Hrun & Hlt & Hrange & _);
      auto.
    rewrite Hrun, bind_Ret.
    assert (len < n') as Hgrow by lia.
    pose proof (is_bitvector_Resize _ _ _ _ _ _ Hbv Hgrow) as Hbv1.
    rewrite (Resize_spec _ _ _ _ _ _ Hbv Hgrow), !bind_Ret.
    cbn [GrowableBitVector.bits_].
    assert (0 ≤ v < n') as Hi by lia.
    pose proof (word_index_range n' v Hi) as Hword.
    assert (Z.of_nat (length (resized_words len n' ws)) = BitVector.SizeFor n')
      as Hn1 by apply Hbv1.
    rewrite (Add_spec _ _ _ _ _ _ Hbv1 Hi), bind_Ret.
    eexists _, n', _. split; [reflexivity|]. split; [|split].
    + eexists. split; [apply is_bitvector_set_bit; exact Hbv1|].
      split; [|lia]. apply PaddingZero_set_bit; auto.
      apply PaddingZero_resized; [lia|exact Hpad].
    + intros i Hi'. rewrite bit_set_bit, bit_resized_words by lia.
      destruct (i =? v); reflexivity.
    + intros x Hsep.
      apply (mutate_all_separate x b [MResize n'; MAdd v]); [exact Hsep|].
      simpl. rewrite (Resize_spec _ _ _ _ _ _ Hbv Hgrow), bind_Ret.
      rewrite (Add_spec _ _ _ _ _ _ Hbv1 Hi). reflexivity.
Qed.

(** [Add] on a GrowableBitVector in either state: it returns, the set gains
    [v] and nothing else, and a BitVector apart from the backing set keeps
    its words. *)
Lemma Growable_Add_spec (z : Zone) (g : GrowableBitVector.t) (len : Z)
    (ws : list Z) (v : Z) (fuel : nat) :
  is_growable z g len ws → 0 ≤ v → 2 * v ≤ INT_MAX → (31 ≤ fuel)%nat →
  ∃ g' z' len' ws',
    GrowableBitVector.Add g v fuel z = Ret (g', z') ∧
    is_growable z' g' len' ws' ∧
    (∀ i, 0 ≤ i → bit ws' i = (i =? v) || bit ws i) ∧
    (∀ x, apart x g z → untouched x z z' ∧ apart x g' z').
Proof.
  intros Hg Hv Hv2 Hfuel. destruct g as [[b|]].
  - destruct (Growable_Add_allocated z b len ws v fuel Hg Hv Hv2 Hfuel)
      as (z' & len' & ws' & Hrun & Hg' & Hbits & Hframe).
    eexists _, _, _, _. split; [exact Hrun|]. split; [exact Hg'|].
    split; [exact Hbits|exact Hframe].
  - destruct (Growable_Add_unallocated z v fuel Hv Hv2 Hfuel)
      as (g' & z' & len' & ws' & Hrun & Hg' & Hbits & Hframe).
    eexists _, _, _, _. split; [exact Hrun|]. split; [exact Hg'|].
    split; [|exact Hframe].
    destruct Hg as [_ ->]. intros i Hi.
    rewrite Hbits, bit_nil, orb_false_r by lia. reflexivity.
Qed.

(** With an unallocated argument the iterator runs over a fresh all-zero
    BitVector of length 1 and is done at once: [Union] returns the receiver
    as it was. *)
Lemma Growable_Union_unallocated (z : Zone) (g : GrowableBitVector.t)
    (fuel : nat) :
  kDataBits ≤ Z.of_nat fuel →
  GrowableBitVector.Union g GrowableBitVector.empty fuel z
  = Ret (g, zone_after_new 1 z).
Proof.
  intros Hfuel.
  pose proof (is_bitvector_new 1 z ltac:(lia)) as Hnew.
  assert (BitVector.SizeFor 1 = 1) as Hsize by (destruct arch; reflexivity).
  destruct (new_empty_is_done _ _ _ _ _ fuel Hnew) as (it & Hit & Hdone).
  { rewrite length_replicate, Hsize. simpl. lia. }
  { apply bits_from_none. intros j _. apply bit_zeros. }
  unfold GrowableBitVector.Union, GrowableBitVector.Iterator_new. simpl.
  rewrite new_spec, !bind_Ret, Hit, !bind_Ret by lia.
  destruct fuel; simpl; rewrite Hdone; reflexivity.
Qed.

Lemma Union_loop_spec (bh : nat) (lenh : Z) (dh : nat) (hs : list Z)
    (fuel : nat) :
  PaddingZero lenh hs → lenh ≤ 2 ^ 30 →
  Z.of_nat (length hs) * kDataBits ≤ Z.of_nat fuel → (31 ≤ fuel)%nat →
  ∀ (n steps : nat) (it : BitVector.Iterator.t) (c : Z) (z : Zone)
    (g : GrowableBitVector.t) (len : Z) (ws : list Z),
  Z.of_nat (length hs) * kDataBits - c ≤ Z.of_nat n →
  Z.of_nat (length hs) * kDataBits - c ≤ Z.of_nat steps →
  0 ≤ c < Z.of_nat (length hs) * kDataBits → bit hs c = true →
  about_to_examine bh hs it (c + 1) →
  is_bitvector z bh lenh dh hs → apart bh g z → is_growable z g len ws →
  ∃ g' z' len' ws',
    GrowableBitVector.Union_loop steps fuel it g z = Ret (g', z') ∧
    is_growable z' g' len' ws' ∧
    (∀ i, 0 ≤ i → bit ws' i = bit ws i || ((c <=? i) && bit hs i)) ∧
    untouched bh z z' ∧ apart bh g' z'.
Proof.
  intros Hpad Hlenh Hfuel H31.
  induction n as [|n IH];
    intros steps it c z g len ws Hn Hsteps Hc Hset Hinv Hbv Hapart Hg; [lia|].
  destruct steps as [|steps]; [lia|]. simpl GrowableBitVector.Union_loop.
  rewrite (Done_resting _ _ _ _ _ _ _ Hbv Hinv), bind_Ret.
  unfold BitVector.Iterator.Current.
  rewrite (Done_resting _ _ _ _ _ _ _ Hbv Hinv), !bind_Ret.
  assert (BitVector.Iterator.current_ it = c) as ->
    by (destruct Hinv as (_ & -> & _); lia).
  assert (c < lenh) as Hclt.
  { destruct (Z.lt_ge_cases c lenh); [assumption|].
    rewrite Hpad in Hset by lia. discriminate. }
  change (2 ^ 30) with 1073741824 in Hlenh.
  destruct (Growable_Add_spec z g len ws c fuel Hg)
    as (g1 & z1 & len1 & ws1 & Hadd & Hg1 & Hbits1 & Hframe1);
    try (unfold INT_MAX; lia).
  destruct (Hframe1 bh Hapart) as [Hun1 Hapart1].
  pose proof (is_bitvector_untouched _ _ _ _ _ _ Hun1 Hbv) as Hbv1.
  rewrite Hadd, bind_Ret.
  destruct (Advance_spec z1 bh lenh dh hs it (c + 1) fuel Hbv1 Hinv Hfuel)
    as (it' & Hrun & [[Hfin Hnone]|(c' & Hc' & Hset' & Hnone & Hinv')]);
    rewrite Hrun, bind_Ret.
  - exists g1, z1, len1, ws1. split.
    { destruct steps; simpl; rewrite (Done_finished _ _ _ _ _ _ Hbv1 Hfin);
        reflexivity. }
    split; [exact Hg1|]. split; [|split; assumption].
    intros i Hi. rewrite Hbits1 by lia.
    destruct (Z.eqb_spec i c) as [->|Hne].
    + rewrite Hset. destruct (Z.leb_spec c c); [|lia].
      rewrite orb_true_r. reflexivity.
    + destruct (Z.leb_spec c i); simpl; rewrite ?orb_false_r; auto.
      assert (bit hs i = false) as ->; [|rewrite orb_false_r; reflexivity].
      destruct (Z.lt_ge_cases i (Z.of_nat (length hs) * kDataBits)).
      * apply Hnone. lia.
      * apply bit_beyond. lia.
  - destruct (IH steps it' c' z1 g1 len1 ws1)
      as (g' & z' & len' & ws' & Hloop & Hg' & Hbits & Hun & Hapart');
      auto; try lia.
    exists g', z', len', ws'. split; [exact Hloop|]. split; [exact Hg'|].
    split; [|split; [eapply untouched_trans; eauto|exact Hapart']].
    intros i Hi. rewrite Hbits, Hbits1 by lia.
    destruct (Z.eqb_spec i c) as [->|Hne].
    + rewrite Hset. destruct (Z.leb_spec c c); [|lia]. simpl.
      rewrite orb_true_r. reflexivity.
    + simpl. destruct (Z.leb_spec c i), (Z.leb_spec c' i); simpl;
        try reflexivity; try lia.
      rewrite (Hnone i) by lia. reflexivity.
Qed.

(** [Union] where it returns: for a receiver [g] and an argument [h] in the
    states their own operations reach, on backing sets apart from each
    other, with the length of [h] at most 2^30 so that the doubling stays
    within [int]: given budget, [Union] returns, the receiver then contains
    exactly the indices it contained or [h] contains, and [h] is as it
    was. *)
Lemma Growable_Union_spec (z : Zone) (g h : GrowableBitVector.t)
    (len lenh : Z) (ws hs : list Z) (fuel : nat) :
  is_growable z g len ws → is_growable z h lenh hs →
  (∀ bh, GrowableBitVector.bits_ h = Some bh → apart bh g z) →
  lenh ≤ 2 ^ 30 →
  kDataBits ≤ Z.of_nat fuel →
  Z.of_nat (length hs) * kDataBits ≤ Z.of_nat fuel →
  ∃ g' z' len' ws',
    GrowableBitVector.Union g h fuel z = Ret (g', z') ∧
    is_growable z' g' len' ws' ∧
    (∀ i, 0 ≤ i →
          GrowableBitVector.Contains g' i z' = Ret (bit ws i || bit hs i)) ∧
    (∀ i, 0 ≤ i → GrowableBitVector.Contains g i z = Ret (bit ws i)) ∧
    (∀ i, 0 ≤ i → GrowableBitVector.Contains h i z = Ret (bit hs i)) ∧
    (∀ i, 0 ≤ i → GrowableBitVector.Contains h i z' = Ret (bit hs i)).
Proof.
  intros Hg Hh Hapart Hlenh HfuelW Hfuel.
  assert (31 ≤ fuel)%nat as H31 by (destruct kDataBits_cases; lia).
  assert (∀ g' z' len' ws',
            is_growable z' g' len' ws' →
            (∀ i, 0 ≤ i → bit ws' i = bit ws i || bit hs i) →
            ∀ i, 0 ≤ i →
              GrowableBitVector.Contains g' i z' = Ret (bit ws i || bit hs i))
    as Hcontains.
  { intros g' z' len' ws' Hg' Hbits i Hi.
    rewrite (Growable_Contains_spec _ _ _ _ _ Hg' Hi), Hbits by lia.
    reflexivity. }
  destruct h as [[bh|]].
  - pose proof Hh as (dh & Hbv & Hpad & Hlen). simpl in Hbv.
    specialize (Hapart bh eq_refl).
    unfold GrowableBitVector.Union, GrowableBitVector.Iterator_new.
    cbn [GrowableBitVector.bits_]. rewrite !bind_Ret.
    destruct (first_iterator z bh lenh dh hs fuel Hbv) as [-> Hinv].
    destruct (Advance_spec z bh lenh dh hs _ 0 fuel Hbv Hinv Hfuel)
      as (it' & Hrun & [[Hfin Hnone]|(c & Hc & Hset & Hnone & Hinv')]);
      rewrite Hrun, !bind_Ret.
    + exists g, z, len, ws. split.
      { destruct fuel; simpl; rewrite (Done_finished _ _ _ _ _ _ Hbv Hfin);
          reflexivity. }
      split; [exact Hg|].
      assert (∀ i, 0 ≤ i → bit hs i = false) as Hempty.
      { intros i Hi.
        destruct (Z.lt_ge_cases i (Z.of_nat (length hs) * kDataBits)).
        - apply Hnone. lia.
        - apply bit_beyond. lia. }
      split; [|split; [|split]]; intros i Hi;
        eauto using Growable_Contains_spec.
      apply (Hcontains _ _ _ _ Hg); auto.
      intros j Hj. rewrite Hempty, orb_false_r by lia. reflexivity.
    + destruct (Union_loop_spec bh lenh dh hs fuel Hpad Hlenh Hfuel H31
                  fuel fuel it' c z g len ws)
        as (g' & z' & len' & ws' & Hloop & Hg' & Hbits & Hun & _);
        auto; try lia.
      exists g', z', len', ws'. split; [exact Hloop|]. split; [exact Hg'|].
      split; [|split; [|split]]; intros i Hi;
        eauto using Growable_Contains_spec.
      * apply (Hcontains _ _ _ _ Hg'); auto.
        intros j Hj. rewrite Hbits by lia.
        destruct (Z.leb_spec c j); simpl; [reflexivity|].
        rewrite (Hnone j) by lia. reflexivity.
      * apply (Growable_Contains_spec z' _ lenh hs); auto.
        exists dh. split; [|split; assumption].
        apply (is_bitvector_untouched _ _ _ _ _ _ Hun Hbv).
  - destruct Hh as [-> ->]. rewrite Growable_Union_unallocated by exact HfuelW.
    assert (is_growable (zone_after_new 1 z) g len ws) as Hg'.
    { unfold is_growable in *. destruct (GrowableBitVector.bits_ g); [|exact Hg].
      destruct Hg as (d & Hbv & Hrest). exists d. split; [|exact Hrest].
      apply is_bitvector_after_new. exact Hbv. }
    exists g, (zone_after_new 1 z), len, ws. split; [reflexivity|].
    split; [exact Hg'|].
    split; [|split; [|split]]; intros i Hi;
      eauto using Growable_Contains_spec.
    + apply (Hcontains _ _ _ _ Hg'); auto.
      intros j Hj. rewrite bit_nil, orb_false_r. reflexivity.
    + rewrite bit_nil. reflexivity.
    + rewrite bit_nil. reflexivity.
Qed.

End GrowableUnion.

(** * Further properties of BitVector *)

(** ** Sizes, construction and the checked preconditions *)

Section Contracts.
Context {arch : Arch}.

(** [SizeFor] is the number of words that hold [len] bits, and never less
    than one. *)
Theorem SizeFor_is_word_count (len : Z) :
  0 ≤ len →
  1 ≤ BitVector.SizeFor len ∧
  len ≤ BitVector.SizeFor len * kDataBits ∧
  (0 < len → (BitVector.SizeFor len - 1) * kDataBits < len) ∧
  (len = 0 → BitVector.SizeFor len = 1).
Proof.
  intros H. split; [apply SizeFor_pos; exact H|].
  split; [apply SizeFor_covers; exact H|].
  split; [apply SizeFor_tight|intros ->; reflexivity].
Qed.

Lemma IsEmpty_zeros (z : Zone) (this : nat) (len : Z) (d : nat) (n : nat) :
  is_bitvector z this len d (replicate n 0) → BitVector.IsEmpty this z = Ret true.
Proof.
  intros Hbv. rewrite (IsEmpty_spec _ _ _ _ _ Hbv). f_equal.
  apply forallb_forall. intros w Hw.
  apply list_elem_of_In, elem_of_replicate in Hw as [-> _]. reflexivity.
Qed.

(** The constructor: for a length that is not negative it returns a new
    object that is an empty set of that length, and leaves what the zone
    already held as it was; for a negative length its check fails. *)
Theorem new_gives_empty_set (len : Z) (z : Zone) :
  0 ≤ len →
  (∃ b z', BitVector.new len z = Ret (b, z') ∧
           objects z !! b = None ∧
           BitVector.length b z' = Ret len ∧
           BitVector.IsEmpty b z' = Ret true ∧
           (∀ i, 0 ≤ i < len → BitVector.Contains b i z' = Ret false) ∧
           (∀ x o, objects z !! x = Some o → objects z' !! x = Some o) ∧
           (∀ p a, arrays z !! p = Some a → arrays z' !! p = Some a)) ∧
  (∀ l, l < 0 → BitVector.new l z = Fatal).
Proof.
  intros Hlen. split.
  - pose proof (is_bitvector_new len z Hlen) as Hnew.
    eexists _, _. split; [apply new_spec; exact Hlen|].
    split; [apply lookup_ge_None_2; lia|].
    split; [apply (length_spec _ _ _ _ _ Hnew)|].
    split; [apply (IsEmpty_zeros _ _ _ _ _ Hnew)|].
    split; [|split].
    + intros i Hi. rewrite (Contains_spec _ _ _ _ _ _ Hnew Hi), bit_zeros.
      reflexivity.
    + intros x o. apply objects_after_new.
    + intros p a. apply arrays_after_new.
  - intros l Hl. unfold BitVector.new, NewArray, new_object. simpl.
    destruct (Z.leb_spec 0 l); [lia|reflexivity].
Qed.

(** [Contains], [Add] and [Remove] return exactly for the indices of the
    set; on any other index their check fails. *)
Theorem index_is_checked (z : Zone) (this : nat) (len : Z) (d : nat)
    (ws : list Z) (i : Z) :
  is_bitvector z this len d ws →
  ((∃ r, BitVector.Contains this i z = Ret r) ↔ 0 ≤ i < len) ∧
  ((∃ z', BitVector.Add this i z = Ret z') ↔ 0 ≤ i < len) ∧
  ((∃ z', BitVector.Remove this i z = Ret z') ↔ 0 ≤ i < len) ∧
  (¬ 0 ≤ i < len →
   BitVector.Contains this i z = Fatal ∧ BitVector.Add this i z = Fatal ∧
   BitVector.Remove this i z = Fatal).
Proof.
  intros Hbv.
  assert (¬ 0 ≤ i < len →
          BitVector.Contains this i z = Fatal ∧ BitVector.Add this i z = Fatal ∧
          BitVector.Remove this i z = Fatal) as Hout.
  { intros Hi. destruct Hbv as (Hobj & _).
    unfold BitVector.Contains, BitVector.Add, BitVector.Remove.
    rewrite (deref_ok _ _ _ Hobj), !bind_Ret. simpl.
    destruct (Z.leb_spec 0 i), (Z.ltb_spec i len); simpl; auto; lia. }
  assert (∀ A (m : Res A), m = Fatal → (∃ r, m = Ret r) → 0 ≤ i < len) as Hin.
  { intros A m Hm [r Hr]. congruence. }
  split; [|split; [|split; [|exact Hout]]]; split.
  - destruct (decide (0 ≤ i < len)) as [|Hn]; [intros _; assumption|].
    apply Hin, Hout, Hn.
  - intros Hi. eexists. apply (Contains_spec _ _ _ _ _ _ Hbv Hi).
  - destruct (decide (0 ≤ i < len)) as [|Hn]; [intros _; assumption|].
    apply Hin, Hout, Hn.
  - intros Hi. eexists. apply (Add_spec _ _ _ _ _ _ Hbv Hi).
  - destruct (decide (0 ≤ i < len)) as [|Hn]; [intros _; assumption|].
    apply Hin, Hout, Hn.
  - intros Hi. eexists. apply (Remove_spec _ _ _ _ _ _ Hbv Hi).
Qed.

Lemma is_bitvector_fill (z : Zone) (this : nat) (len : Z) (d : nat)
    (ws : list Z) (c : Z) :
  is_bitvector z this len d ws → word_ok c →
  is_bitvector (with_array d (Some <$> replicate (length ws) c) z) this len d
    (replicate (length ws) c).
Proof.
  intros Hbv Hc. eapply is_bitvector_update; [exact Hbv| |].
  - apply length_replicate.
  - apply Forall_word_ok_replicate. exact Hc.
Qed.

Lemma Clear_bitvector (z : Zone) (this : nat) (len : Z) (d : nat)
    (ws : list Z) :
  is_bitvector z this len d ws →
  BitVector.Clear this z
  = Ret (with_array d (Some <$> replicate (length ws) 0) z).
Proof.
  intros (Hobj & Harr & Hn & _).
  erewrite Clear_spec; [|exact Hobj|exact Harr|simpl; rewrite length_fmap; lia].
  rewrite length_fmap. reflexivity.
Qed.

Lemma AddAll_bitvector (z : Zone) (this : nat) (len : Z) (d : nat)
    (ws : list Z) :
  is_bitvector z this len d ws →
  BitVector.AddAll this z
  = Ret (with_array d (Some <$> replicate (length ws) (Z.ones kDataBits)) z).
Proof.
  intros (Hobj & Harr & Hn & _).
  erewrite AddAll_spec; [|exact Hobj|exact Harr|simpl; rewrite length_fmap; lia].
  rewrite length_fmap. reflexivity.
Qed.

(** [Clear] empties the set and [AddAll] fills it, whatever it held; the
    length stays. *)
Theorem Clear_and_AddAll (z : Zone) (this : nat) (len : Z) (d : nat)
    (ws : list Z) :
  is_bitvector z this len d ws →
  (∃ z', BitVector.Clear this z = Ret z' ∧
         BitVector.length this z' = Ret len ∧
         BitVector.IsEmpty this z' = Ret true ∧
         ∀ i, 0 ≤ i < len → BitVector.Contains this i z' = Ret false) ∧
  (∃ z', BitVector.AddAll this z = Ret z' ∧
         BitVector.length this z' = Ret len ∧
         BitVector.IsEmpty this z' = Ret false ∧
         ∀ i, 0 ≤ i < len → BitVector.Contains this i z' = Ret true).
Proof.
  intros Hbv. pose proof kDataBits_pos.
  assert (Z.of_nat (length ws) = BitVector.SizeFor len ∧ 0 ≤ len)
    as [Hn H0] by (split; apply Hbv).
  pose proof (SizeFor_pos len H0). pose proof (SizeFor_covers len H0).
  split.
  - pose proof (is_bitvector_fill _ _ _ _ _ 0 Hbv word_ok_0) as Hbv'.
    eexists. split; [apply (Clear_bitvector _ _ _ _ _ Hbv)|].
    split; [apply (length_spec _ _ _ _ _ Hbv')|].
    split; [apply (IsEmpty_zeros _ _ _ _ _ Hbv')|].
    intros i Hi. rewrite (Contains_spec _ _ _ _ _ _ Hbv' Hi), bit_zeros.
    reflexivity.
  - pose proof (is_bitvector_fill _ _ _ _ _ _ Hbv word_ok_ones) as Hbv'.
    eexists. split; [apply (AddAll_bitvector _ _ _ _ _ Hbv)|].
    split; [apply (length_spec _ _ _ _ _ Hbv')|]. split.
    + rewrite (IsEmpty_spec _ _ _ _ _ Hbv'). f_equal.
      destruct (length ws) as [|n] eqn:E; [lia|]. simpl.
      destruct (Z.eqb_spec (Z.ones kDataBits) 0) as [H0'|]; [|reflexivity].
      assert (Z.testbit (Z.ones kDataBits) 0 = true) as Hb
        by (apply Z.ones_spec_low; lia).
      rewrite H0', Z.bits_0 in Hb. discriminate.
    + intros i Hi. rewrite (Contains_spec _ _ _ _ _ _ Hbv' Hi), bit_ones by lia.
      reflexivity.
Qed.

End Contracts.

(** ** Single bits: no-ops, round trips and order *)

Section SingleBitAlgebra.
Context {arch : Arch}.

Lemma set_bit_set (ws : list Z) (i : Z) :
  Forall word_ok ws → 0 ≤ i → i / kDataBits < Z.of_nat (length ws) →
  bit ws i = true → set_bit ws i = ws.
Proof.
  intros Hok Hi Hw Hset. destruct (set_bit_ok ws i Hok) as [Hl Hok'].
  apply words_eq_bits; auto. intros j Hj. rewrite bit_set_bit by lia.
  destruct (Z.eqb_spec j i) as [->|]; auto.
Qed.

Lemma clear_bit_clear (ws : list Z) (i : Z) :
  Forall word_ok ws → 0 ≤ i → i / kDataBits < Z.of_nat (length ws) →
  bit ws i = false → clear_bit ws i = ws.
Proof.
  intros Hok Hi Hw Hset. destruct (clear_bit_ok ws i Hok) as [Hl Hok'].
  apply words_eq_bits; auto. intros j Hj. rewrite bit_clear_bit by lia.
  destruct (Z.eqb_spec j i) as [->|]; auto.
Qed.

Lemma clear_bit_set_bit (ws : list Z) (i : Z) :
  Forall word_ok ws → 0 ≤ i → i / kDataBits < Z.of_nat (length ws) →
  bit ws i = false → clear_bit (set_bit ws i) i = ws.
Proof.
  intros Hok Hi Hw Hset. destruct (set_bit_ok ws i Hok) as [Hl Hok'].
  destruct (clear_bit_ok (set_bit ws i) i Hok') as [Hl2 Hok2].
  apply words_eq_bits; auto; [lia|]. intros j Hj.
  rewrite bit_clear_bit, bit_set_bit by lia.
  destruct (Z.eqb_spec j i) as [->|]; auto.
Qed.

Lemma set_bit_clear_bit (ws : list Z) (i : Z) :
  Forall word_ok ws → 0 ≤ i → i / kDataBits < Z.of_nat (length ws) →
  bit ws i = true → set_bit (clear_bit ws i) i = ws.
Proof.
  intros Hok Hi Hw Hset. destruct (clear_bit_ok ws i Hok) as [Hl Hok'].
  destruct (set_bit_ok (clear_bit ws i) i Hok') as [Hl2 Hok2].
  apply words_eq_bits; auto; [lia|]. intros j Hj.
  rewrite bit_set_bit, bit_clear_bit by lia.
  destruct (Z.eqb_spec j i) as [->|]; auto.
Qed.

(** [Add] of an index the set contains and [Remove] of one it does not
    contain write back the word they read: the zone is as before. [Remove]
    undoes an [Add] that changed the set, and [Add] undoes such a
    [Remove]. *)
Theorem Add_Remove_round_trip (z : Zone) (this : nat) (len : Z) (d : nat)
    (ws : list Z) (i : Z) :
  is_bitvector z this len d ws → 0 ≤ i < len →
  (BitVector.Contains this i z = Ret true →
   BitVector.Add this i z = Ret z ∧
   ∃ z1, BitVector.Remove this i z = Ret z1 ∧ BitVector.Add this i z1 = Ret z) ∧
  (BitVector.Contains this i z = Ret false →
   BitVector.Remove this i z = Ret z ∧
   ∃ z1, BitVector.Add this i z = Ret z1 ∧ BitVector.Remove this i z1 = Ret z).
Proof.
  intros Hbv Hi. pose proof (word_index_range len i Hi) as Hw.
  assert (Z.of_nat (length ws) = BitVector.SizeFor len ∧ Forall word_ok ws ∧
          arrays z !! d = Some (Some <$> ws))
    as (Hn & Hok & Harr) by (repeat split; apply Hbv).
  rewrite (Contains_spec _ _ _ _ _ _ Hbv Hi).
  pose proof (is_bitvector_set_bit _ _ _ _ _ i Hbv) as Hset.
  pose proof (is_bitvector_clear_bit _ _ _ _ _ i Hbv) as Hclr.
  split; intros [= Hb].
  - split.
    + rewrite (Add_spec _ _ _ _ _ _ Hbv Hi), set_bit_set, with_array_id
        by (auto; lia). reflexivity.
    + eexists. split; [apply (Remove_spec _ _ _ _ _ _ Hbv Hi)|].
      rewrite (Add_spec _ _ _ _ _ _ Hclr Hi), with_array_twice,
        set_bit_clear_bit, with_array_id by (auto; lia).
      reflexivity.
  - split.
    + rewrite (Remove_spec _ _ _ _ _ _ Hbv Hi), clear_bit_clear, with_array_id
        by (auto; lia). reflexivity.
    + eexists. split; [apply (Add_spec _ _ _ _ _ _ Hbv Hi)|].
      rewrite (Remove_spec _ _ _ _ _ _ Hset Hi), with_array_twice,
        clear_bit_set_bit, with_array_id by (auto; lia).
      reflexivity.
Qed.

(** The order of two single-bit operations on different indices does not
    matter: both orders leave the same zone. *)
Theorem single_bit_operations_commute (z : Zone) (this : nat) (len : Z)
    (d : nat) (ws : list Z) (i j : Z) :
  is_bitvector z this len d ws → 0 ≤ i < len → 0 ≤ j < len → i ≠ j →
  (∃ z1 z2 z', BitVector.Add this i z = Ret z1 ∧
               BitVector.Add this j z1 = Ret z' ∧
               BitVector.Add this j z = Ret z2 ∧
               BitVector.Add this i z2 = Ret z') ∧
  (∃ z1 z2 z', BitVector.Add this i z = Ret z1 ∧
               BitVector.Remove this j z1 = Ret z' ∧
               BitVector.Remove this j z = Ret z2 ∧
               BitVector.Add this i z2 = Ret z') ∧
  (∃ z1 z2 z', BitVector.Remove this i z = Ret z1 ∧
               BitVector.Remove this j z1 = Ret z' ∧
               BitVector.Remove this j z = Ret z2 ∧
               BitVector.Remove this i z2 = Ret z').
Proof.
  intros Hbv Hi Hj Hne.
  pose proof (word_index_range len i Hi). pose proof (word_index_range len j Hj).
  assert (Z.of_nat (length ws) = BitVector.SizeFor len ∧ Forall word_ok ws)
    as (Hn & Hok) by (split; apply Hbv).
  pose proof (is_bitvector_set_bit _ _ _ _ _ i Hbv) as Hsi.
  pose proof (is_bitvector_set_bit _ _ _ _ _ j Hbv) as Hsj.
  pose proof (is_bitvector_clear_bit _ _ _ _ _ i Hbv) as Hci.
  pose proof (is_bitvector_clear_bit _ _ _ _ _ j Hbv) as Hcj.
  destruct (set_bit_ok ws i Hok) as [Hlsi Hoksi].
  destruct (set_bit_ok ws j Hok) as [Hlsj Hoksj].
  destruct (clear_bit_ok ws i Hok) as [Hlci Hokci].
  destruct (clear_bit_ok ws j Hok) as [Hlcj Hokcj].
  assert (∀ a b : list Z,
            length a = length ws → length b = length ws →
            Forall word_ok a → Forall word_ok b →
            (∀ k, 0 ≤ k → bit a k = bit b k) →
            with_array d (Some <$> a) z = with_array d (Some <$> b) z) as Heq.
  { intros a b Hla Hlb Ha Hb Hbits. do 2 f_equal.
    apply words_eq_bits; auto; [lia|]. intros k Hk. apply Hbits. lia. }
  split; [|split]; eexists _, _, _.
  - split; [apply (Add_spec _ _ _ _ _ _ Hbv Hi)|].
    split; [rewrite (Add_spec _ _ _ _ _ _ Hsi Hj), with_array_twice; reflexivity|].
    split; [apply (Add_spec _ _ _ _ _ _ Hbv Hj)|].
    rewrite (Add_spec _ _ _ _ _ _ Hsj Hi), with_array_twice.
    f_equal. apply Heq.
    + destruct (set_bit_ok (set_bit ws j) i Hoksj). lia.
    + destruct (set_bit_ok (set_bit ws i) j Hoksi). lia.
    + apply set_bit_ok. exact Hoksj.
    + apply set_bit_ok. exact Hoksi.
    + intros k Hk. rewrite !bit_set_bit by lia.
      destruct (Z.eqb_spec k i), (Z.eqb_spec k j); reflexivity.
  - split; [apply (Add_spec _ _ _ _ _ _ Hbv Hi)|].
    split; [rewrite (Remove_spec _ _ _ _ _ _ Hsi Hj), with_array_twice;
            reflexivity|].
    split; [apply (Remove_spec _ _ _ _ _ _ Hbv Hj)|].
    rewrite (Add_spec _ _ _ _ _ _ Hcj Hi), with_array_twice.
    f_equal. apply Heq.
    + destruct (set_bit_ok (clear_bit ws j) i Hokcj). lia.
    + destruct (clear_bit_ok (set_bit ws i) j Hoksi). lia.
    + apply set_bit_ok. exact Hokcj.
    + apply clear_bit_ok. exact Hoksi.
    + intros k Hk. rewrite bit_set_bit, !bit_clear_bit, bit_set_bit by lia.
      destruct (Z.eqb_spec k i), (Z.eqb_spec k j); try reflexivity. lia.
  - split; [apply (Remove_spec _ _ _ _ _ _ Hbv Hi)|].
    split; [rewrite (Remove_spec _ _ _ _ _ _ Hci Hj), with_array_twice;
            reflexivity|].
    split; [apply (Remove_spec _ _ _ _ _ _ Hbv Hj)|].
    rewrite (Remove_spec _ _ _ _ _ _ Hcj Hi), with_array_twice.
    f_equal. apply Heq.
    + destruct (clear_bit_ok (clear_bit ws j) i Hokcj). lia.
    + destruct (clear_bit_ok (clear_bit ws i) j Hokci). lia.
    + apply clear_bit_ok. exact Hokcj.
    + apply clear_bit_ok. exact Hokci.
    + intros k Hk. rewrite !bit_clear_bit by lia.
      destruct (Z.eqb_spec k i), (Z.eqb_spec k j); reflexivity.
Qed.

End SingleBitAlgebra.

(** ** The set operations, read through [Contains] *)

Section SetSemantics.
Context {arch : Arch}.

Lemma Contains_out_of_range (z : Zone) (this : nat) (len : Z) (d : nat)
    (ws : list Z) (i : Z) :
  is_bitvector z this len d ws → ¬ 0 ≤ i < len →
  BitVector.Contains this i z = Fatal.
Proof.
  intros (Hobj & _) Hi. unfold BitVector.Contains.
  rewrite (deref_ok _ _ _ Hobj), bind_Ret. simpl.
  destruct (Z.leb_spec 0 i), (Z.ltb_spec i len); simpl; auto; lia.
Qed.

Lemma Contains_returns (z : Zone) (this : nat) (len : Z) (d : nat)
    (ws : list Z) (i : Z) (r : bool) :
  is_bitvector z this len d ws → BitVector.Contains this i z = Ret r →
  0 ≤ i < len ∧ r = bit ws i.
Proof.
  intros Hbv Hr. destruct (decide (0 ≤ i < len)) as [Hi|Hi].
  - rewrite (Contains_spec _ _ _ _ _ _ Hbv Hi) in Hr. split; congruence.
  - rewrite (Contains_out_of_range _ _ _ _ _ _ Hbv Hi) in Hr. discriminate.
Qed.

Lemma Contains_same_words (z z' : Zone) (this : nat) (len : Z) (d d2 : nat)
    (ws : list Z) (i : Z) :
  is_bitvector z this len d ws → is_bitvector z' this len d2 ws →
  BitVector.Contains this i z' = BitVector.Contains this i z.
Proof.
  intros Hbv Hbv'. destruct (decide (0 ≤ i < len)) as [Hi|Hi].
  - rewrite (Contains_spec _ _ _ _ _ _ Hbv Hi),
      (Contains_spec _ _ _ _ _ _ Hbv' Hi). reflexivity.
  - rewrite (Contains_out_of_range _ _ _ _ _ _ Hbv Hi),
      (Contains_out_of_range _ _ _ _ _ _ Hbv' Hi). reflexivity.
Qed.

Lemma update_pointwise (f : bool → bool → bool) (z : Zone) (this other : nat)
    (len : Z) (d d' : nat) (ws vs new : list Z) :
  is_bitvector z this len d ws → is_bitvector z other len d' vs →
  length new = length ws → Forall word_ok new →
  (∀ i, bit new i = f (bit ws i) (bit vs i)) →
  BitVector.length this (with_array d (Some <$> new) z) = Ret len ∧
  (∀ i a b, BitVector.Contains this i z = Ret a →
            BitVector.Contains other i z = Ret b →
            BitVector.Contains this i (with_array d (Some <$> new) z)
            = Ret (f a b)) ∧
  (d' ≠ d →
   ∀ i, BitVector.Contains other i (with_array d (Some <$> new) z)
        = BitVector.Contains other i z).
Proof.
  intros Hthis Hother Hlen Hok Hbits.
  pose proof (is_bitvector_update _ _ _ _ _ _ Hthis Hlen Hok) as Hnew.
  split; [apply (length_spec _ _ _ _ _ Hnew)|]. split.
  - intros i a b Ha Hb.
    destruct (Contains_returns _ _ _ _ _ _ _ Hthis Ha) as [Hi ->].
    destruct (Contains_returns _ _ _ _ _ _ _ Hother Hb) as [_ ->].
    rewrite (Contains_spec _ _ _ _ _ _ Hnew Hi), Hbits. reflexivity.
  - intros Hne i.
    pose proof (is_bitvector_frame _ _ _ _ _ _ _ _ _ _ Hthis Hother Hlen Hok)
      as Hfr.
    destruct (decide (d' = d)); [contradiction|].
    apply (Contains_same_words _ _ _ _ _ _ _ _ Hother Hfr).
Qed.

Lemma bit_lor (ws vs : list Z) (i : Z) :
  length ws = length vs →
  bit (zip_with Z.lor ws vs) i = bit ws i || bit vs i.
Proof.
  intros Hl. apply (bit_zip_with Z.lor orb); auto.
  intros a b t _. apply Z.lor_spec.
Qed.

Lemma bit_land (ws vs : list Z) (i : Z) :
  length ws = length vs →
  bit (zip_with Z.land ws vs) i = bit ws i && bit vs i.
Proof.
  intros Hl. apply (bit_zip_with Z.land andb); auto.
  intros a b t _. apply Z.land_spec.
Qed.

Lemma bit_ldiff (ws vs : list Z) (i : Z) :
  length ws = length vs →
  bit (zip_with Z.ldiff ws vs) i = bit ws i && negb (bit vs i).
Proof.
  intros Hl. apply (bit_zip_with Z.ldiff (fun a b => a && negb b)); auto.
  intros a b t _. apply Z.ldiff_spec.
Qed.

Lemma Forall_word_ok_ldiff (ws vs : list Z) :
  Forall word_ok ws → Forall word_ok (zip_with Z.ldiff ws vs).
Proof.
  intros Hok. revert vs. induction Hok as [|w ws Hw _ IH]; intros [|v vs];
    simpl; constructor; auto using word_ok_ldiff.
Qed.

Lemma Subtract_spec (z : Zone) (this other : nat) (len : Z) (d d' : nat)
    (ws vs : list Z) :
  is_bitvector z this len d ws → is_bitvector z other len d' vs →
  BitVector.Subtract this other z
  = Ret (with_array d (Some <$> zip_with Z.ldiff ws vs) z).
Proof.
  intros Hthis Hother. unfold BitVector.Subtract.
  rewrite (combine_words_spec _ _ _ _ _ _ _ _ _ Hthis Hother), subtract_words
    by apply Hthis.
  reflexivity.
Qed.

(** [Union], [Intersect] and [Subtract] in terms of [Contains]: afterwards
    the receiver contains [i] exactly when it did or the argument did (both
    did; it did and the argument did not). The length stays, and an argument
    that is another BitVector is left as it was. *)
Theorem set_operations_pointwise (z : Zone) (this other : nat) (len : Z)
    (d d' : nat) (ws vs : list Z) :
  is_bitvector z this len d ws → is_bitvector z other len d' vs →
  (∃ z', BitVector.Union this other z = Ret z' ∧
         BitVector.length this z' = Ret len ∧
         (∀ i a b, BitVector.Contains this i z = Ret a →
                   BitVector.Contains other i z = Ret b →
                   BitVector.Contains this i z' = Ret (a || b)) ∧
         (d' ≠ d → ∀ i, BitVector.Contains other i z'
                        = BitVector.Contains other i z)) ∧
  (∃ z', BitVector.Intersect this other z = Ret z' ∧
         BitVector.length this z' = Ret len ∧
         (∀ i a b, BitVector.Contains this i z = Ret a →
                   BitVector.Contains other i z = Ret b →
                   BitVector.Contains this i z' = Ret (a && b)) ∧
         (d' ≠ d → ∀ i, BitVector.Contains other i z'
                        = BitVector.Contains other i z)) ∧
  (∃ z', BitVector.Subtract this other z = Ret z' ∧
         BitVector.length this z' = Ret len ∧
         (∀ i a b, BitVector.Contains this i z = Ret a →
                   BitVector.Contains other i z = Ret b →
                   BitVector.Contains this i z' = Ret (a && negb b)) ∧
         (d' ≠ d → ∀ i, BitVector.Contains other i z'
                        = BitVector.Contains other i z)).
Proof.
  intros Hthis Hother.
  pose proof (is_bitvector_length _ _ _ _ _ _ _ _ Hthis Hother) as Hl.
  assert (Forall word_ok ws ∧ Forall word_ok vs) as [Hok Hok']
    by (split; [apply Hthis|apply Hother]).
  split; [|split]; eexists.
  - split; [apply (combine_words_spec _ _ _ _ _ _ _ _ _ Hthis Hother)|].
    apply (update_pointwise orb _ _ _ _ _ _ _ _ _ Hthis Hother).
    + rewrite length_zip_with. lia.
    + apply Forall_word_ok_zip_with; auto using word_ok_lor.
    + intros i. apply bit_lor. lia.
  - split; [apply (combine_words_spec _ _ _ _ _ _ _ _ _ Hthis Hother)|].
    apply (update_pointwise andb _ _ _ _ _ _ _ _ _ Hthis Hother).
    + rewrite length_zip_with. lia.
    + apply Forall_word_ok_zip_with; auto using word_ok_land2.
    + intros i. apply bit_land. lia.
  - split; [apply (Subtract_spec _ _ _ _ _ _ _ _ Hthis Hother)|].
    apply (update_pointwise (fun a b => a && negb b) _ _ _ _ _ _ _ _ _
             Hthis Hother).
    + rewrite length_zip_with. lia.
    + apply Forall_word_ok_ldiff. exact Hok.
    + intros i. apply bit_ldiff. lia.
Qed.

Lemma lor_absorbs (ws vs : list Z) :
  Forall word_ok ws → Forall word_ok vs → length ws = length vs →
  zip_with Z.lor ws vs = ws ↔ ∀ j, 0 ≤ j → bit vs j = true → bit ws j = true.
Proof.
  intros Hok Hok' Hl. split.
  - intros Heq j Hj Hv. rewrite <- Heq, bit_lor, Hv by exact Hl.
    apply orb_true_r.
  - intros Hsub. apply words_eq_bits.
    + apply Forall_word_ok_zip_with; auto using word_ok_lor.
    + exact Hok.
    + rewrite length_zip_with. lia.
    + intros j Hj. rewrite bit_lor by exact Hl.
      destruct (bit vs j) eqn:E; [|apply orb_false_r].
      rewrite (Hsub j) by (auto; lia). reflexivity.
Qed.

Lemma land_absorbs (ws vs : list Z) :
  Forall word_ok ws → Forall word_ok vs → length ws = length vs →
  zip_with Z.land ws vs = ws ↔ ∀ j, 0 ≤ j → bit ws j = true → bit vs j = true.
Proof.
  intros Hok Hok' Hl. split.
  - intros Heq j Hj Hw. rewrite <- Heq, bit_land in Hw by exact Hl.
    apply andb_true_iff in Hw. apply Hw.
  - intros Hsub. apply words_eq_bits.
    + apply Forall_word_ok_zip_with; auto using word_ok_land2.
    + exact Hok.
    + rewrite length_zip_with. lia.
    + intros j Hj. rewrite bit_land by exact Hl.
      destruct (bit ws j) eqn:E; [|reflexivity].
      rewrite (Hsub j) by (auto; lia). reflexivity.
Qed.

(** The flag of [UnionIsChanged] is a subset test: when the argument's
    padding is zero, it is false exactly when the receiver already contains
    every element of the argument. The flag of [IntersectIsChanged] is false
    exactly when the argument contains every element of the receiver, when
    the receiver's padding is zero. Without the padding assumption a false
    flag still means inclusion. *)
Theorem IsChanged_is_subset_test (z : Zone) (this other : nat) (len : Z)
    (d d' : nat) (ws vs : list Z) :
  is_bitvector z this len d ws → is_bitvector z other len d' vs →
  (∃ c z', BitVector.UnionIsChanged this other z = Ret (c, z') ∧
           (c = false →
            ∀ i, BitVector.Contains other i z = Ret true →
                 BitVector.Contains this i z = Ret true) ∧
           (PaddingZero len vs →
            (∀ i, BitVector.Contains other i z = Ret true →
                  BitVector.Contains this i z = Ret true) → c = false)) ∧
  (∃ c z', BitVector.IntersectIsChanged this other z = Ret (c, z') ∧
           (c = false →
            ∀ i, BitVector.Contains this i z = Ret true →
                 BitVector.Contains other i z = Ret true) ∧
           (PaddingZero len ws →
            (∀ i, BitVector.Contains this i z = Ret true →
                  BitVector.Contains other i z = Ret true) → c = false)).
Proof.
  intros Hthis Hother.
  pose proof (is_bitvector_length _ _ _ _ _ _ _ _ Hthis Hother) as Hl.
  assert (Forall word_ok ws ∧ Forall word_ok vs) as [Hok Hok']
    by (split; [apply Hthis|apply Hother]).
  symmetry in Hl.
  split; eexists _, _;
    (split; [apply (combine_words_changed_spec _ _ _ _ _ _ _ _ _ Hthis Hother)|]);
    rewrite negb_false_iff, bool_decide_eq_true.
  - rewrite (lor_absorbs _ _ Hok Hok' Hl). split.
    + intros Hsub i Hc.
      destruct (Contains_returns _ _ _ _ _ _ _ Hother Hc) as [Hi Hb].
      rewrite (Contains_spec _ _ _ _ _ _ Hthis Hi), (Hsub i) by (auto; lia).
      reflexivity.
    + intros Hpad Hsub j Hj Hb.
      destruct (Z.lt_ge_cases j len) as [Hlt|Hge].
      * assert (BitVector.Contains this j z = Ret true) as Hc.
        { apply Hsub. rewrite (Contains_spec _ _ _ _ _ _ Hother), Hb by lia.
          reflexivity. }
        rewrite (Contains_spec _ _ _ _ _ _ Hthis) in Hc by lia. congruence.
      * rewrite (Hpad j Hge) in Hb. discriminate.
  - rewrite (land_absorbs _ _ Hok Hok' Hl). split.
    + intros Hsub i Hc.
      destruct (Contains_returns _ _ _ _ _ _ _ Hthis Hc) as [Hi Hb].
      rewrite (Contains_spec _ _ _ _ _ _ Hother Hi), (Hsub i) by (auto; lia).
      reflexivity.
    + intros Hpad Hsub j Hj Hb.
      destruct (Z.lt_ge_cases j len) as [Hlt|Hge].
      * assert (BitVector.Contains other j z = Ret true) as Hc.
        { apply Hsub. rewrite (Contains_spec _ _ _ _ _ _ Hthis), Hb by lia.
          reflexivity. }
        rewrite (Contains_spec _ _ _ _ _ _ Hother) in Hc by lia. congruence.
      * rewrite (Hpad j Hge) in Hb. discriminate.
Qed.

Lemma combine_again (op : Z → Z → Z) (f : bool → bool → bool) (z : Zone)
    (this other : nat) (len : Z) (d d' : nat) (ws vs : list Z) :
  (∀ a b, word_ok a → word_ok b → word_ok (op a b)) →
  (∀ a b t, 0 ≤ t → Z.testbit (op a b) t = f (Z.testbit a t) (Z.testbit b t)) →
  f false false = false →
  (∀ a b, f (f a b) b = f a b) → (∀ a, f (f a a) (f a a) = f a a) →
  is_bitvector z this len d ws → is_bitvector z other len d' vs →
  ∃ new xs,
    is_bitvector (with_array d (Some <$> new) z) this len d new ∧
    is_bitvector (with_array d (Some <$> new) z) other len d' xs ∧
    new = zip_with op ws vs ∧ zip_with op new xs = new.
Proof.
  intros Hop Hbit Hff Hidem Hself Hthis Hother.
  pose proof (is_bitvector_length _ _ _ _ _ _ _ _ Hthis Hother) as Hl.
  assert (Forall word_ok ws ∧ Forall word_ok vs) as [Hok Hok']
    by (split; [apply Hthis|apply Hother]).
  assert (length (zip_with op ws vs) = length ws) as Hlen
    by (rewrite length_zip_with; lia).
  pose proof (Forall_word_ok_zip_with op ws vs Hop Hok Hok') as Hnew.
  pose proof (is_bitvector_frame _ _ _ _ _ _ _ _ _ _ Hthis Hother Hlen Hnew)
    as Hfr.
  eexists _, _. split; [apply (is_bitvector_combine op _ _ _ _ _ _ _ _ Hop
                                 Hthis Hother)|].
  split; [exact Hfr|]. split; [reflexivity|].
  assert (Forall word_ok (if decide (d' = d) then zip_with op ws vs else vs))
    as Hxs by (destruct (decide (d' = d)); assumption).
  assert (length (if decide (d' = d) then zip_with op ws vs else vs)
          = length ws) as Hlxs by (destruct (decide (d' = d)); lia).
  apply words_eq_bits; auto.
  - apply Forall_word_ok_zip_with; auto.
  - rewrite length_zip_with; lia.
  - intros j _. rewrite (bit_zip_with op f) by (auto; lia).
    destruct (decide (d' = d)) as [->|].
    + rewrite (bit_zip_with op f) by (auto; lia).
      rewrite (is_bitvector_inj _ _ _ _ _ _ _ _ Hthis Hother). apply Hself.
    + rewrite (bit_zip_with op f) by (auto; lia). apply Hidem.
Qed.

(** The operations on two sets are idempotent: a second [UnionIsChanged]
    or [IntersectIsChanged] with the same argument reports no change, and a
    second [Union], [Intersect] or [Subtract] leaves the zone as the first
    left it. *)
Theorem set_operations_idempotent (z : Zone) (this other : nat) (len : Z)
    (d d' : nat) (ws vs : list Z) :
  is_bitvector z this len d ws → is_bitvector z other len d' vs →
  (∃ c z', BitVector.UnionIsChanged this other z = Ret (c, z') ∧
           BitVector.UnionIsChanged this other z' = Ret (false, z')) ∧
  (∃ c z', BitVector.IntersectIsChanged this other z = Ret (c, z') ∧
           BitVector.IntersectIsChanged this other z' = Ret (false, z')) ∧
  (∃ z', BitVector.Union this other z = Ret z' ∧
         BitVector.Union this other z' = Ret z') ∧
  (∃ z', BitVector.Intersect this other z = Ret z' ∧
         BitVector.Intersect this other z' = Ret z') ∧
  (∃ z', BitVector.Subtract this other z = Ret z' ∧
         BitVector.Subtract this other z' = Ret z').
Proof.
  intros Hthis Hother.
  destruct (combine_again Z.lor orb z this other len d d' ws vs)
    as (n1 & x1 & Ht1 & Ho1 & -> & Hfix1);
    auto using word_ok_lor.
  { intros a b t _. apply Z.lor_spec. }
  { intros [] []; reflexivity. }
  { intros []; reflexivity. }
  destruct (combine_again Z.land andb z this other len d d' ws vs)
    as (n2 & x2 & Ht2 & Ho2 & -> & Hfix2);
    auto using word_ok_land2.
  { intros a b t _. apply Z.land_spec. }
  { intros [] []; reflexivity. }
  { intros []; reflexivity. }
  destruct (combine_again Z.ldiff (fun a b => a && negb b) z this other len
              d d' ws vs)
    as (n3 & x3 & Ht3 & Ho3 & -> & Hfix3);
    auto using word_ok_ldiff.
  { intros a b t _. apply Z.ldiff_spec. }
  { intros [] []; reflexivity. }
  { intros []; reflexivity. }
  unfold BitVector.UnionIsChanged, BitVector.IntersectIsChanged,
    BitVector.Union, BitVector.Intersect.
  split; [|split; [|split; [|split]]].
  - eexists _, _.
    split; [apply (combine_words_changed_spec _ _ _ _ _ _ _ _ _ Hthis Hother)|].
    rewrite (combine_words_changed_spec _ _ _ _ _ _ _ _ _ Ht1 Ho1),
      with_array_twice, Hfix1, bool_decide_true by reflexivity. reflexivity.
  - eexists _, _.
    split; [apply (combine_words_changed_spec _ _ _ _ _ _ _ _ _ Hthis Hother)|].
    rewrite (combine_words_changed_spec _ _ _ _ _ _ _ _ _ Ht2 Ho2),
      with_array_twice, Hfix2, bool_decide_true by reflexivity. reflexivity.
  - eexists.
    split; [apply (combine_words_spec _ _ _ _ _ _ _ _ _ Hthis Hother)|].
    rewrite (combine_words_spec _ _ _ _ _ _ _ _ _ Ht1 Ho1),
      with_array_twice, Hfix1. reflexivity.
  - eexists.
    split; [apply (combine_words_spec _ _ _ _ _ _ _ _ _ Hthis Hother)|].
    rewrite (combine_words_spec _ _ _ _ _ _ _ _ _ Ht2 Ho2),
      with_array_twice, Hfix2. reflexivity.
  - eexists.
    split; [apply (Subtract_spec _ _ _ _ _ _ _ _ Hthis Hother)|].
    rewrite (Subtract_spec _ _ _ _ _ _ _ _ Ht3 Ho3), with_array_twice, Hfix3.
    reflexivity.
Qed.

End SetSemantics.

(** ** Queries *)

Section Queries.
Context {arch : Arch}.

(** [IsEmpty] looks at whole words: when it returns true the set contains
    no index, and when the padding is zero and the set contains no index it
    returns true. *)
Theorem IsEmpty_means_no_element (z : Zone) (this : nat) (len : Z) (d : nat)
    (ws : list Z) :
  is_bitvector z this len d ws →
  ∃ e, BitVector.IsEmpty this z = Ret e ∧
       (e = true →
        ∀ i, 0 ≤ i < len → BitVector.Contains this i z = Ret false) ∧
       (PaddingZero len ws →
        (∀ i, 0 ≤ i < len → BitVector.Contains this i z = Ret false) →
        e = true).
Proof.
  intros Hbv. assert (Forall word_ok ws) as Hok by apply Hbv.
  eexists. split; [apply (IsEmpty_spec _ _ _ _ _ Hbv)|].
  rewrite (all_zero_bits ws Hok). split.
  - intros Hz i Hi. rewrite (Contains_spec _ _ _ _ _ _ Hbv Hi), Hz by lia.
    reflexivity.
  - intros Hpad Hno i Hi. destruct (Z.lt_ge_cases i len) as [Hlt|Hge].
    + specialize (Hno i ltac:(lia)).
      rewrite (Contains_spec _ _ _ _ _ _ Hbv) in Hno by lia. congruence.
    + apply Hpad. exact Hge.
Qed.

(** On BitVectors of one length [Equals] is an equivalence: it is
    reflexive, gives the same answer with the operands exchanged, and is
    transitive. *)
Theorem Equals_is_equivalence (z : Zone) (a b c : nat) (len : Z)
    (da db dc : nat) (ws vs us : list Z) :
  is_bitvector z a len da ws → is_bitvector z b len db vs →
  is_bitvector z c len dc us →
  BitVector.Equals a a z = Ret true ∧
  BitVector.Equals a b z = BitVector.Equals b a z ∧
  (BitVector.Equals a b z = Ret true → BitVector.Equals b c z = Ret true →
   BitVector.Equals a c z = Ret true).
Proof.
  intros Ha Hb Hc.
  rewrite (Equals_spec _ _ _ _ _ _ _ _ Ha Ha), (Equals_spec _ _ _ _ _ _ _ _ Ha Hb),
    (Equals_spec _ _ _ _ _ _ _ _ Hb Ha), (Equals_spec _ _ _ _ _ _ _ _ Hb Hc),
    (Equals_spec _ _ _ _ _ _ _ _ Ha Hc).
  split; [rewrite bool_decide_true; reflexivity|]. split.
  - f_equal. apply bool_decide_ext. split; intros ->; reflexivity.
  - intros [= H1] [= H2]. apply bool_decide_eq_true in H1, H2. subst.
    rewrite bool_decide_true; reflexivity.
Qed.

Lemma Equals_loop_prefix (z : Zone) (d d' : nat)
    (ws vs pre pre' rest : list Z) :
  arrays z !! d = Some (Some <$> (pre ++ ws)) →
  arrays z !! d' = Some (Some <$> (pre' ++ vs ++ rest)) →
  length pre = length pre' → length ws = length vs →
  BitVector.Equals_loop (length ws) (Z.of_nat (length pre)) d d' z
  = Ret (bool_decide (ws = vs)).
Proof.
  revert vs pre pre'.
  induction ws as [|w ws IH]; intros [|v vs] pre pre' Hd Hd' Hpre Hlen;
    try discriminate; [reflexivity|].
  simpl. erewrite load_ok; [|exact Hd|lia|].
  2:{ rewrite Nat2Z.id, list_lookup_fmap, lookup_app_r, Nat.sub_diag by lia.
      reflexivity. }
  rewrite bind_Ret. erewrite load_ok; [|exact Hd'|lia|].
  2:{ rewrite Nat2Z.id, list_lookup_fmap, lookup_app_r by lia.
      rewrite Hpre, Nat.sub_diag. reflexivity. }
  rewrite bind_Ret. destruct (Z.eqb_spec w v) as [->|Hne].
  - replace (Z.of_nat (length pre) + 1) with (Z.of_nat (length (pre ++ [v])))
      by (rewrite length_app; simpl; lia).
    rewrite (IH vs (pre ++ [v]) (pre' ++ [v])).
    + apply f_equal, bool_decide_ext. split; [intros ->; reflexivity|].
      intros H. injection H as H. exact H.
    + rewrite <- app_assoc. exact Hd.
    + rewrite <- app_assoc. exact Hd'.
    + rewrite !length_app. simpl. lia.
    + simpl in Hlen. lia.
  - rewrite bool_decide_false; [reflexivity|]. intros H. injection H as H _.
    contradiction.
Qed.

Lemma all_zero_words (ws : list Z) :
  forallb (fun w => w =? 0) ws = true → ws = replicate (length ws) 0.
Proof.
  induction ws as [|w ws IH]; simpl; [reflexivity|].
  intros H. apply andb_true_iff in H as [Hw H]. apply Z.eqb_eq in Hw.
  rewrite <- IH by exact H. congruence.
Qed.

Lemma bit_take (vs : list Z) (n : nat) (j : Z) :
  0 ≤ j < Z.of_nat n * kDataBits → bit (take n vs) j = bit vs j.
Proof.
  intros Hj. pose proof kDataBits_pos. unfold bit, word_at.
  rewrite lookup_take_lt; [reflexivity|].
  assert (j / kDataBits < Z.of_nat n) by (apply Z.div_lt_upper_bound; lia).
  assert (0 ≤ j / kDataBits) by (apply Z.div_pos; lia). lia.
Qed.

(** [Equals] checks no length: it compares as many words as the receiver
    has. With an argument that has at least as many words it returns, and
    returns true exactly when the receiver's words are the first words of
    the argument, whatever the two lengths are. Then the two agree on every
    index both have; two sets for which [IsEmpty] is true are equal whatever
    their lengths. *)
Theorem Equals_ignores_length (z : Zone) (this other : nat) (len len' : Z)
    (d d' : nat) (ws vs : list Z) :
  is_bitvector z this len d ws → is_bitvector z other len' d' vs →
  BitVector.SizeFor len ≤ BitVector.SizeFor len' →
  ∃ e, BitVector.Equals this other z = Ret e ∧
       (e = true ↔ ws = take (length ws) vs) ∧
       (e = true →
        ∀ j, 0 ≤ j < len → j < len' →
             BitVector.Contains this j z = BitVector.Contains other j z) ∧
       (BitVector.IsEmpty this z = Ret true →
        BitVector.IsEmpty other z = Ret true → e = true).
Proof.
  intros Hthis Hother Hsz.
  assert (objects z !! this = Some (mkBitVector len (BitVector.SizeFor len) d) ∧
          arrays z !! d = Some (Some <$> ws) ∧
          Z.of_nat (length ws) = BitVector.SizeFor len ∧ 0 ≤ len)
    as (Hobj & Harr & Hn & H0) by (repeat split; apply Hthis).
  assert (objects z !! other
          = Some (mkBitVector len' (BitVector.SizeFor len') d') ∧
          arrays z !! d' = Some (Some <$> vs) ∧
          Z.of_nat (length vs) = BitVector.SizeFor len')
    as (Hobj' & Harr' & Hn') by (repeat split; apply Hother).
  assert (length (take (length ws) vs) = length ws) as Hlt
    by (rewrite length_take; lia).
  exists (bool_decide (ws = take (length ws) vs)). split.
  - unfold BitVector.Equals.
    rewrite (deref_ok _ _ _ Hobj), bind_Ret, (deref_ok _ _ _ Hobj'), bind_Ret.
    simpl. rewrite <- Hn, Nat2Z.id.
    apply (Equals_loop_prefix z d d' ws (take (length ws) vs) [] []
             (drop (length ws) vs)); auto.
    simpl. rewrite take_drop. exact Harr'.
  - rewrite bool_decide_eq_true. split; [reflexivity|]. split.
    + intros Heq j Hj Hj'.
      rewrite (Contains_spec _ _ _ _ _ _ Hthis), (Contains_spec _ _ _ _ _ _ Hother)
        by lia.
      f_equal. rewrite Heq at 1. apply bit_take.
      pose proof (SizeFor_covers len H0). lia.
    + rewrite (IsEmpty_spec _ _ _ _ _ Hthis), (IsEmpty_spec _ _ _ _ _ Hother).
      intros [= Hz] [= Hz'].
      rewrite (all_zero_words ws Hz) at 1. rewrite (all_zero_words vs Hz').
      rewrite take_replicate. f_equal. lia.
Qed.

End Queries.

(** ** Copying, resizing and the footprint of the operations *)

Section Footprint.
Context {arch : Arch}.

Lemma CopyFrom_spec (z : Zone) (this other : nat) (len len' : Z) (d d' : nat)
    (ws vs : list Z) :
  is_bitvector z this len d ws → is_bitvector z other len' d' vs →
  len' ≤ len → d' ≠ d →
  (length vs ≤ length ws)%nat ∧
  BitVector.CopyFrom this other z
  = Ret (with_array d
           (Some <$> (vs ++ replicate (length ws - length vs) 0)) z).
Proof.
  intros (Hobj & Harr & Hn & H0 & Hok) (Hobj' & Harr' & Hn' & H0' & Hok')
    Hle Hne.
  pose proof (SizeFor_mono len' len ltac:(lia)) as Hsz.
  split; [lia|]. unfold BitVector.CopyFrom.
  rewrite (deref_ok _ _ _ Hobj), bind_Ret, (deref_ok _ _ _ Hobj'), bind_Ret.
  simpl. destruct (Z.leb_spec len' len); [|lia].
  rewrite (CopyFrom_data_spec z this _ (Some <$> ws) d' vs _ Hobj);
    simpl; auto; rewrite ?length_fmap; try lia.
  reflexivity.
Qed.

(** The public [CopyFrom]: the receiver keeps its length and takes the
    elements of a source that is not longer. Past the source's length it is
    empty, up to padding bits of the source that are set: those are copied
    with the source's last word. The source is left as it was. *)
Theorem CopyFrom_copies (z : Zone) (this other : nat) (len len' : Z)
    (d d' : nat) (ws vs : list Z) :
  is_bitvector z this len d ws → is_bitvector z other len' d' vs →
  len' ≤ len → d' ≠ d →
  ∃ z', BitVector.CopyFrom this other z = Ret z' ∧
        BitVector.length this z' = Ret len ∧
        (∀ i, 0 ≤ i < len' →
              BitVector.Contains this i z' = BitVector.Contains other i z) ∧
        (∀ i, len' ≤ i < len → BitVector.Contains this i z' = Ret (bit vs i)) ∧
        (∀ i, BitVector.SizeFor len' * kDataBits ≤ i < len →
              BitVector.Contains this i z' = Ret false) ∧
        (PaddingZero len' vs →
         ∀ i, len' ≤ i < len → BitVector.Contains this i z' = Ret false) ∧
        (∀ i, BitVector.Contains other i z' = BitVector.Contains other i z).
Proof.
  intros Hthis Hother Hle Hne.
  destruct (CopyFrom_spec _ _ _ _ _ _ _ _ _ Hthis Hother Hle Hne) as [Hlen Hcp].
  assert (Forall word_ok vs ∧ 0 ≤ len' ∧
          Z.of_nat (length vs) = BitVector.SizeFor len')
    as (Hok' & H0' & Hn') by (repeat split; apply Hother).
  set (new := vs ++ replicate (length ws - length vs) 0) in *.
  assert (length new = length ws) as Hl
    by (unfold new; rewrite length_app, length_replicate; lia).
  assert (Forall word_ok new) as Hok.
  { apply Forall_app. split; [exact Hok'|].
    apply Forall_word_ok_replicate, word_ok_0. }
  pose proof (is_bitvector_update _ _ _ _ _ _ Hthis Hl Hok) as Hnew.
  pose proof (is_bitvector_frame _ _ _ _ _ _ _ _ _ _ Hthis Hother Hl Hok) as Hfr.
  destruct (decide (d' = d)); [contradiction|].
  assert (∀ i, 0 ≤ i < len →
               BitVector.Contains this i
                 (with_array d (Some <$> new) z) = Ret (bit vs i)) as Hc.
  { intros i Hi. rewrite (Contains_spec _ _ _ _ _ _ Hnew Hi). unfold new.
    rewrite bit_app_zeros. reflexivity. }
  eexists. split; [exact Hcp|]. split; [apply (length_spec _ _ _ _ _ Hnew)|].
  split; [|split; [|split; [|split]]].
  - intros i Hi. rewrite Hc, (Contains_spec _ _ _ _ _ _ Hother Hi) by lia.
    reflexivity.
  - intros i Hi. apply Hc. lia.
  - intros i Hi. pose proof kDataBits_pos. pose proof (SizeFor_pos len' H0').
    assert (0 ≤ BitVector.SizeFor len' * kDataBits) by nia.
    rewrite Hc, bit_beyond by lia. reflexivity.
  - intros Hpad i Hi. rewrite Hc, Hpad by lia. reflexivity.
  - intros i. apply (Contains_same_words _ _ _ _ _ _ _ _ Hother Hfr).
Qed.

(** [Resize] allocates exactly when the number of words grows: then one
    new array of the new size is added to the zone, and every array the zone
    held, the old one of the receiver included, stays as it was. Within the
    same number of words no array is touched. No other object changes. *)
Theorem Resize_allocation (z : Zone) (this : nat) (len : Z) (d : nat)
    (ws : list Z) (new_length : Z) :
  is_bitvector z this len d ws → len < new_length →
  ∃ z', BitVector.Resize this new_length z = Ret z' ∧
        BitVector.length this z' = Ret new_length ∧
        (BitVector.SizeFor new_length = BitVector.SizeFor len →
         arrays z' = arrays z) ∧
        (BitVector.SizeFor new_length ≠ BitVector.SizeFor len →
         ∃ a, arrays z' = arrays z ++ [a] ∧
              Z.of_nat (length a) = BitVector.SizeFor new_length) ∧
        (∀ x, x ≠ this → objects z' !! x = objects z !! x).
Proof.
  intros Hbv Hlt.
  assert (Z.of_nat (length ws) = BitVector.SizeFor len ∧ 0 ≤ len)
    as (Hn & H0) by (split; apply Hbv).
  pose proof (SizeFor_mono len new_length ltac:(lia)) as Hsz.
  eexists. split; [apply (Resize_spec _ _ _ _ _ _ Hbv Hlt)|].
  split; [apply (length_spec _ _ _ _ _
                   (is_bitvector_Resize _ _ _ _ _ _ Hbv Hlt))|].
  unfold zone_after_Resize.
  destruct (Z.gtb_spec (BitVector.SizeFor new_length) (BitVector.SizeFor len));
    simpl; (split; [|split]); try lia; try reflexivity.
  - intros _. eexists. split; [reflexivity|].
    unfold resized_words. rewrite length_fmap, length_app, length_replicate. lia.
  - intros x Hx. apply list_lookup_insert_ne. congruence.
  - intros x Hx. apply list_lookup_insert_ne. congruence.
Qed.

Lemma length_untouched (x : nat) (z z' : Zone) :
  untouched x z z' → BitVector.length x z' = BitVector.length x z.
Proof.
  intros (o & Hz & Hz' & _). unfold BitVector.length.
  rewrite (deref_ok _ _ _ Hz), (deref_ok _ _ _ Hz'). reflexivity.
Qed.

(** Whatever sequence of mutating operations runs on one BitVector, a
    BitVector of the same zone on another array keeps its length and its
    elements. *)
Theorem mutations_leave_other_sets (x this : nat) (ms : list Mutation)
    (z z' : Zone) :
  separate x this z → mutate_all this ms z = Ret z' →
  BitVector.length x z' = BitVector.length x z ∧
  ∀ i, BitVector.Contains x i z' = BitVector.Contains x i z.
Proof.
  intros Hsep Hrun.
  pose proof (mutate_all_untouched _ _ _ _ _ Hsep Hrun) as Hun.
  split; [apply length_untouched; exact Hun|].
  intros i. apply Contains_untouched. exact Hun.
Qed.

Lemma CopyFrom_aliased (z : Zone) (this other : nat) (len len' : Z) (d : nat)
    (ws vs : list Z) :
  is_bitvector z this len d ws → is_bitvector z other len' d vs → len' ≤ len →
  BitVector.CopyFrom this other z = Ret z.
Proof.
  intros Hthis Hother Hle.
  pose proof (is_bitvector_inj _ _ _ _ _ _ _ _ Hthis Hother) as <-.
  destruct Hthis as (Hobj & Harr & Hn & H0 & Hok).
  destruct Hother as (Hobj' & _ & Hn' & _).
  unfold BitVector.CopyFrom.
  rewrite (deref_ok _ _ _ Hobj), bind_Ret, (deref_ok _ _ _ Hobj'), bind_Ret.
  simpl. destruct (Z.leb_spec len' len); [|lia].
  unfold BitVector.CopyFrom_data. rewrite (deref_ok _ _ _ Hobj), bind_Ret.
  simpl. rewrite <- Hn', <- Hn, Z.leb_refl.
  rewrite (for_int_store d _ (fun i z => load d i z) (Some <$> ws) ws).
  - rewrite bind_Ret, with_array_id by exact Harr.
    unfold for_int. rewrite Z.sub_diag. reflexivity.
  - reflexivity.
  - rewrite length_fmap. reflexivity.
  - rewrite length_fmap. reflexivity.
  - exact Harr.
  - intros k w Hk. apply (load_midway z d d ws ws ws k w); auto.
    apply lookup_lt_Some in Hk. exact Hk.
Qed.

(** The checked preconditions are enough: a mutating operation whose
    arguments pass the checks returns, and leaves a well-formed BitVector of
    the same length ([Resize]: of the new length). *)
Theorem mutations_in_contract_return (z : Zone) (this : nat) (len : Z)
    (d : nat) (ws : list Z) (m : Mutation) :
  is_bitvector z this len d ws → in_contract z len m →
  ∃ z' d2 ws', mutate this m z = Ret z' ∧
               is_bitvector z' this (length_after len m) d2 ws' ∧
               BitVector.length this z' = Ret (length_after len m).
Proof.
  intros Hbv Hm.
  assert (∀ z' d2 ws' l,
            mutate this m z = Ret z' → is_bitvector z' this l d2 ws' →
            l = length_after len m →
            ∃ z' d2 ws', mutate this m z = Ret z' ∧
                         is_bitvector z' this (length_after len m) d2 ws' ∧
                         BitVector.length this z'
                         = Ret (length_after len m)) as Hdone.
  { intros z' d2 ws' l Hrun Hbv' ->. eexists _, _, _.
    split; [exact Hrun|]. split; [exact Hbv'|].
    apply (length_spec _ _ _ _ _ Hbv'). }
  assert (Forall word_ok ws) as Hok by apply Hbv.
  destruct m as [i|i| | |other|other|other|other|other|other|n]; simpl in Hm.
  - eapply Hdone; [apply (Add_spec _ _ _ _ _ _ Hbv Hm)| |reflexivity].
    apply is_bitvector_set_bit. exact Hbv.
  - eapply Hdone; [apply (Remove_spec _ _ _ _ _ _ Hbv Hm)| |reflexivity].
    apply is_bitvector_clear_bit. exact Hbv.
  - eapply Hdone; [apply (AddAll_bitvector _ _ _ _ _ Hbv)| |reflexivity].
    apply (is_bitvector_fill _ _ _ _ _ _ Hbv word_ok_ones).
  - eapply Hdone; [apply (Clear_bitvector _ _ _ _ _ Hbv)| |reflexivity].
    apply (is_bitvector_fill _ _ _ _ _ _ Hbv word_ok_0).
  - destruct Hm as (d' & vs & Hother).
    eapply Hdone; [apply (combine_words_spec _ _ _ _ _ _ _ _ _ Hbv Hother)|
                   |reflexivity].
    apply (is_bitvector_combine _ _ _ _ _ _ _ _ _ word_ok_lor Hbv Hother).
  - destruct Hm as (d' & vs & Hother).
    eapply Hdone; [|apply (is_bitvector_combine _ _ _ _ _ _ _ _ _ word_ok_lor
                             Hbv Hother)|reflexivity].
    simpl. unfold BitVector.UnionIsChanged.
    rewrite (combine_words_changed_spec _ _ _ _ _ _ _ _ _ Hbv Hother).
    reflexivity.
  - destruct Hm as (d' & vs & Hother).
    eapply Hdone; [apply (combine_words_spec _ _ _ _ _ _ _ _ _ Hbv Hother)|
                   |reflexivity].
    apply (is_bitvector_combine _ _ _ _ _ _ _ _ _ word_ok_land2 Hbv Hother).
  - destruct Hm as (d' & vs & Hother).
    eapply Hdone; [|apply (is_bitvector_combine _ _ _ _ _ _ _ _ _ word_ok_land2
                             Hbv Hother)|reflexivity].
    simpl. unfold BitVector.IntersectIsChanged.
    rewrite (combine_words_changed_spec _ _ _ _ _ _ _ _ _ Hbv Hother).
    reflexivity.
  - destruct Hm as (d' & vs & Hother).
    eapply Hdone; [apply (combine_words_spec _ _ _ _ _ _ _ _ _ Hbv Hother)|
                   |reflexivity].
    apply (is_bitvector_combine _ _ _ _ _ _ _ _ _ word_ok_subtract Hbv Hother).
  - destruct Hm as (len' & d' & vs & Hother & Hle).
    destruct (decide (d' = d)) as [->|Hne].
    { eapply Hdone; [apply (CopyFrom_aliased _ _ _ _ _ _ _ _ Hbv Hother Hle)|
                     exact Hbv|reflexivity]. }
    destruct (CopyFrom_spec _ _ _ _ _ _ _ _ _ Hbv Hother Hle Hne) as [Hlen Hcp].
    eapply Hdone; [exact Hcp| |reflexivity].
    apply (is_bitvector_update _ _ _ _ _ _ Hbv).
    + rewrite length_app, length_replicate. lia.
    + apply Forall_app. split; [apply Hother|].
      apply Forall_word_ok_replicate, word_ok_0.
  - eapply Hdone; [apply (Resize_spec _ _ _ _ _ _ Hbv Hm)| |reflexivity].
    apply (is_bitvector_Resize _ _ _ _ _ _ Hbv Hm).
Qed.

(** The checks on lengths are exact. On two well-formed BitVectors,
    [Union], [UnionIsChanged], [Intersect], [IntersectIsChanged] and
    [Subtract] return exactly when the lengths are equal, [CopyFrom] exactly
    when the source is not longer, and [Resize] exactly when the new length
    is greater; otherwise their check stops them. *)
Theorem length_is_checked (z : Zone) (this other : nat) (len len' : Z)
    (d d' : nat) (ws vs : list Z) (new_length : Z) :
  is_bitvector z this len d ws → is_bitvector z other len' d' vs →
  ((∃ z', BitVector.Union this other z = Ret z') ↔ len' = len) ∧
  ((∃ c z', BitVector.UnionIsChanged this other z = Ret (c, z')) ↔
   len' = len) ∧
  ((∃ z', BitVector.Intersect this other z = Ret z') ↔ len' = len) ∧
  ((∃ c z', BitVector.IntersectIsChanged this other z = Ret (c, z')) ↔
   len' = len) ∧
  ((∃ z', BitVector.Subtract this other z = Ret z') ↔ len' = len) ∧
  ((∃ z', BitVector.CopyFrom this other z = Ret z') ↔ len' ≤ len) ∧
  ((∃ z', BitVector.Resize this new_length z = Ret z') ↔ len < new_length) ∧
  (len' ≠ len →
   BitVector.Union this other z = Fatal ∧
   BitVector.UnionIsChanged this other z = Fatal ∧
   BitVector.Intersect this other z = Fatal ∧
   BitVector.IntersectIsChanged this other z = Fatal ∧
   BitVector.Subtract this other z = Fatal) ∧
  (len < len' → BitVector.CopyFrom this other z = Fatal) ∧
  (new_length ≤ len → BitVector.Resize this new_length z = Fatal).
Proof.
  intros Hthis Hother.
  pose proof Hthis as (Hobj & _). pose proof Hother as (Hobj' & _).
  assert (len' ≠ len →
          BitVector.Union this other z = Fatal ∧
          BitVector.UnionIsChanged this other z = Fatal ∧
          BitVector.Intersect this other z = Fatal ∧
          BitVector.IntersectIsChanged this other z = Fatal ∧
          BitVector.Subtract this other z = Fatal) as Hdiff.
  { intros Hne.
    unfold BitVector.Union, BitVector.UnionIsChanged, BitVector.Intersect,
      BitVector.IntersectIsChanged, BitVector.Subtract,
      BitVector.combine_words, BitVector.combine_words_changed.
    rewrite (deref_ok _ _ _ Hobj), (deref_ok _ _ _ Hobj'), !bind_Ret. simpl.
    destruct (Z.eqb_spec len' len); [contradiction|]. repeat split. }
  assert (len < len' → BitVector.CopyFrom this other z = Fatal) as Hlong.
  { intros Hlt. unfold BitVector.CopyFrom.
    rewrite (deref_ok _ _ _ Hobj), (deref_ok _ _ _ Hobj'), !bind_Ret. simpl.
    destruct (Z.leb_spec len' len); [lia|reflexivity]. }
  assert (new_length ≤ len → BitVector.Resize this new_length z = Fatal)
    as Hsmall.
  { intros Hle. unfold BitVector.Resize.
    rewrite (deref_ok _ _ _ Hobj), bind_Ret. simpl.
    destruct (Z.gtb_spec new_length len); [lia|reflexivity]. }
  assert (∀ A (m : Res A), (len' ≠ len → m = Fatal) →
                           (∃ r, m = Ret r) → len' = len) as Hback.
  { intros A m Hf [r Hr]. destruct (decide (len' = len)) as [|Hne]; [auto|].
    rewrite (Hf Hne) in Hr. discriminate. }
  split; [|split; [|split; [|split; [|split; [|split; [|split]]]]]].
  - split; [apply Hback; intros Hne; apply (Hdiff Hne)|].
    intros ->. eexists.
    apply (combine_words_spec _ _ _ _ _ _ _ _ _ Hthis Hother).
  - split.
    + intros (c & z' & Hr). apply (Hback _ (BitVector.UnionIsChanged this other z)).
      * intros Hne. apply (Hdiff Hne).
      * eauto.
    + intros ->. eexists _, _.
      apply (combine_words_changed_spec _ _ _ _ _ _ _ _ _ Hthis Hother).
  - split; [apply Hback; intros Hne; apply (Hdiff Hne)|].
    intros ->. eexists.
    apply (combine_words_spec _ _ _ _ _ _ _ _ _ Hthis Hother).
  - split.
    + intros (c & z' & Hr).
      apply (Hback _ (BitVector.IntersectIsChanged this other z)).
      * intros Hne. apply (Hdiff Hne).
      * eauto.
    + intros ->. eexists _, _.
      apply (combine_words_changed_spec _ _ _ _ _ _ _ _ _ Hthis Hother).
  - split; [apply Hback; intros Hne; apply (Hdiff Hne)|].
    intros ->. eexists.
    apply (combine_words_spec _ _ _ _ _ _ _ _ _ Hthis Hother).
  - split.
    + intros [z' Hr]. destruct (Z.le_gt_cases len' len) as [|Hgt]; [assumption|].
      rewrite (Hlong ltac:(lia)) in Hr. discriminate.
    + intros Hle. destruct (decide (d' = d)) as [->|Hd].
      * eexists. apply (CopyFrom_aliased _ _ _ _ _ _ _ _ Hthis Hother Hle).
      * eexists.
        apply (CopyFrom_spec _ _ _ _ _ _ _ _ _ Hthis Hother Hle Hd).
  - split.
    + intros [z' Hr].
      destruct (Z.lt_ge_cases len new_length) as [|Hge]; [assumption|].
      rewrite (Hsmall ltac:(lia)) in Hr. discriminate.
    + intros Hlt. eexists. apply (Resize_spec _ _ _ _ _ _ Hthis Hlt).
  - split; [exact Hdiff|]. split; [exact Hlong|exact Hsmall].
Qed.

End Footprint.

(** ** The padding invariant over a whole zone *)

Section PaddingEverywhere.
Context {arch : Arch}.

Lemma new_negative (l : Z) (z : Zone) : l < 0 → BitVector.new l z = Fatal.
Proof.
  intros Hl. unfold BitVector.new, NewArray, new_object. simpl.
  destruct (Z.leb_spec 0 l); [lia|reflexivity].
Qed.

Lemma single_bit_out_of_range (z : Zone) (this : nat) (len : Z) (d : nat)
    (ws : list Z) (i : Z) :
  is_bitvector z this len d ws → ¬ 0 ≤ i < len →
  BitVector.Add this i z = Fatal ∧ BitVector.Remove this i z = Fatal.
Proof.
  intros (Hobj & _) Hi. unfold BitVector.Add, BitVector.Remove.
  rewrite (deref_ok _ _ _ Hobj), !bind_Ret. simpl.
  destruct (Z.leb_spec 0 i), (Z.ltb_spec i len); simpl; auto; lia.
Qed.

Lemma mutate_returns_object (this : nat) (m : Mutation) (z z' : Zone) :
  mutate this m z = Ret z' → ∃ o, objects z !! this = Some o.
Proof.
  intros H. destruct (objects z !! this) as [o|] eqn:E; [eauto|]. exfalso.
  destruct m; simpl in H;
    unfold BitVector.Add, BitVector.Remove, BitVector.AddAll, BitVector.Clear,
      BitVector.Union, BitVector.UnionIsChanged, BitVector.Intersect,
      BitVector.IntersectIsChanged, BitVector.Subtract,
      BitVector.combine_words, BitVector.combine_words_changed,
      BitVector.CopyFrom, BitVector.Resize, deref in H;
    rewrite E in H; discriminate.
Qed.

(** A mutating operation that returns had its checks passed. *)
Lemma returns_in_contract (this : nat) (m : Mutation) (z z' : Zone) (len : Z)
    (d : nat) (ws : list Z) :
  (∀ b o, objects z !! b = Some o →
          ∃ xs, is_bitvector z b (length_ o) (data_ o) xs) →
  is_bitvector z this len d ws → mutate this m z = Ret z' →
  in_contract z len m.
Proof.
  intros Hall Hbv H. pose proof Hbv as (Hobj & _).
  destruct m as [i|i| | |other|other|other|other|other|other|n]; simpl in *;
    try exact I.
  - destruct (decide (0 ≤ i < len)) as [|Hn]; [assumption|].
    destruct (single_bit_out_of_range _ _ _ _ _ _ Hbv Hn) as [Hf _].
    congruence.
  - destruct (decide (0 ≤ i < len)) as [|Hn]; [assumption|].
    destruct (single_bit_out_of_range _ _ _ _ _ _ Hbv Hn) as [_ Hf].
    congruence.
  - unfold BitVector.Union, BitVector.combine_words in H.
    rewrite (deref_ok _ _ _ Hobj), bind_Ret in H. unfold deref in H.
    destruct (objects z !! other) as [oo|] eqn:E; [|discriminate].
    rewrite bind_Ret in H. cbn [length_] in H.
    destruct (Z.eqb_spec (length_ oo) len) as [Heq|]; [|discriminate].
    destruct (Hall other oo E) as [xs Hx]. rewrite Heq in Hx. eauto.
  - unfold BitVector.UnionIsChanged, BitVector.combine_words_changed in H.
    rewrite (deref_ok _ _ _ Hobj), bind_Ret in H. unfold deref in H.
    destruct (objects z !! other) as [oo|] eqn:E; [|discriminate].
    rewrite bind_Ret in H. cbn [length_] in H.
    destruct (Z.eqb_spec (length_ oo) len) as [Heq|]; [|discriminate].
    destruct (Hall other oo E) as [xs Hx]. rewrite Heq in Hx. eauto.
  - unfold BitVector.Intersect, BitVector.combine_words in H.
    rewrite (deref_ok _ _ _ Hobj), bind_Ret in H. unfold deref in H.
    destruct (objects z !! other) as [oo|] eqn:E; [|discriminate].
    rewrite bind_Ret in H. cbn [length_] in H.
    destruct (Z.eqb_spec (length_ oo) len) as [Heq|]; [|discriminate].
    destruct (Hall other oo E) as [xs Hx]. rewrite Heq in Hx. eauto.
  - unfold BitVector.IntersectIsChanged, BitVector.combine_words_changed in H.
    rewrite (deref_ok _ _ _ Hobj), bind_Ret in H. unfold deref in H.
    destruct (objects z !! other) as [oo|] eqn:E; [|discriminate].
    rewrite bind_Ret in H. cbn [length_] in H.
    destruct (Z.eqb_spec (length_ oo) len) as [Heq|]; [|discriminate].
    destruct (Hall other oo E) as [xs Hx]. rewrite Heq in Hx. eauto.
  - unfold BitVector.Subtract, BitVector.combine_words in H.
    rewrite (deref_ok _ _ _ Hobj), bind_Ret in H. unfold deref in H.
    destruct (objects z !! other) as [oo|] eqn:E; [|discriminate].
    rewrite bind_Ret in H. cbn [length_] in H.
    destruct (Z.eqb_spec (length_ oo) len) as [Heq|]; [|discriminate].
    destruct (Hall other oo E) as [xs Hx]. rewrite Heq in Hx. eauto.
  - unfold BitVector.CopyFrom in H.
    rewrite (deref_ok _ _ _ Hobj), bind_Ret in H. unfold deref in H.
    destruct (objects z !! other) as [oo|] eqn:E; [|discriminate].
    rewrite bind_Ret in H. cbn [length_] in H.
    destruct (Z.leb_spec (length_ oo) len) as [Hle|]; [|discriminate].
    destruct (Hall other oo E) as [xs Hx]. eauto.
  - unfold BitVector.Resize in H.
    rewrite (deref_ok _ _ _ Hobj), bind_Ret in H. cbn [length_] in H.
    destruct (Z.gtb_spec n len); [assumption|discriminate].
Qed.

(** Every mutating operation except [AddAll] keeps the padding zero. *)
Lemma mutation_keeps_padding (z : Zone) (this : nat) (len : Z) (d : nat)
    (ws : list Z) (m : Mutation) :
  is_bitvector z this len d ws → PaddingZero len ws → m ≠ MAddAll →
  in_contract z len m → argument_padding z m →
  ∃ z' d2 ws', mutate this m z = Ret z' ∧
               is_bitvector z' this (length_after len m) d2 ws' ∧
               PaddingZero (length_after len m) ws'.
Proof.
  intros Hbv Hpad Hne Hm Harg.
  assert (Z.of_nat (length ws) = BitVector.SizeFor len ∧ Forall word_ok ws)
    as [Hn Hok] by (split; apply Hbv).
  destruct m as [i|i| | |other|other|other|other|other|other|n];
    simpl in Hm, Harg; cbn [length_after mutate].
  - eexists _, _, _. split; [apply (Add_spec _ _ _ _ _ _ Hbv Hm)|].
    split; [apply is_bitvector_set_bit; exact Hbv|].
    apply PaddingZero_set_bit; auto.
  - eexists _, _, _. split; [apply (Remove_spec _ _ _ _ _ _ Hbv Hm)|].
    split; [apply is_bitvector_clear_bit; exact Hbv|].
    apply PaddingZero_clear_bit; auto.
  - contradiction.
  - eexists _, _, _. split; [apply (Clear_bitvector _ _ _ _ _ Hbv)|].
    split; [apply (is_bitvector_fill _ _ _ _ _ _ Hbv word_ok_0)|].
    apply PaddingZero_zeros.
  - destruct Hm as (d' & vs & Hother).
    pose proof (is_bitvector_length _ _ _ _ _ _ _ _ Hbv Hother) as Hl.
    eexists _, _, _.
    split; [apply (combine_words_spec _ _ _ _ _ _ _ _ _ Hbv Hother)|].
    split; [apply (is_bitvector_combine _ _ _ _ _ _ _ _ _ word_ok_lor
                     Hbv Hother)|].
    apply PaddingZero_lor; eauto.
  - destruct Hm as (d' & vs & Hother).
    pose proof (is_bitvector_length _ _ _ _ _ _ _ _ Hbv Hother) as Hl.
    eexists _, _, _. split.
    { unfold BitVector.UnionIsChanged.
      rewrite (combine_words_changed_spec _ _ _ _ _ _ _ _ _ Hbv Hother).
      reflexivity. }
    split; [apply (is_bitvector_combine _ _ _ _ _ _ _ _ _ word_ok_lor
                     Hbv Hother)|].
    apply PaddingZero_lor; eauto.
  - destruct Hm as (d' & vs & Hother).
    pose proof (is_bitvector_length _ _ _ _ _ _ _ _ Hbv Hother) as Hl.
    eexists _, _, _.
    split; [apply (combine_words_spec _ _ _ _ _ _ _ _ _ Hbv Hother)|].
    split; [apply (is_bitvector_combine _ _ _ _ _ _ _ _ _ word_ok_land2
                     Hbv Hother)|].
    apply PaddingZero_land; auto.
  - destruct Hm as (d' & vs & Hother).
    pose proof (is_bitvector_length _ _ _ _ _ _ _ _ Hbv Hother) as Hl.
    eexists _, _, _. split.
    { unfold BitVector.IntersectIsChanged.
      rewrite (combine_words_changed_spec _ _ _ _ _ _ _ _ _ Hbv Hother).
      reflexivity. }
    split; [apply (is_bitvector_combine _ _ _ _ _ _ _ _ _ word_ok_land2
                     Hbv Hother)|].
    apply PaddingZero_land; auto.
  - destruct Hm as (d' & vs & Hother).
    pose proof (is_bitvector_length _ _ _ _ _ _ _ _ Hbv Hother) as Hl.
    eexists _, _, _.
    split; [apply (combine_words_spec _ _ _ _ _ _ _ _ _ Hbv Hother)|].
    split; [apply (is_bitvector_combine _ _ _ _ _ _ _ _ _ word_ok_subtract
                     Hbv Hother)|].
    apply PaddingZero_subtract; auto.
  - destruct Hm as (len' & d' & vs & Hother & Hle).
    destruct (decide (d' = d)) as [->|Hd].
    { eexists _, _, _.
      split; [apply (CopyFrom_aliased _ _ _ _ _ _ _ _ Hbv Hother Hle)|].
      split; [exact Hbv|exact Hpad]. }
    destruct (CopyFrom_spec _ _ _ _ _ _ _ _ _ Hbv Hother Hle Hd) as [Hlen Hcp].
    eexists _, _, _. split; [exact Hcp|]. split.
    + apply (is_bitvector_update _ _ _ _ _ _ Hbv).
      * rewrite length_app, length_replicate. lia.
      * apply Forall_app. split; [apply Hother|].
        apply Forall_word_ok_replicate, word_ok_0.
    + intros j Hj. rewrite bit_app_zeros.
      apply (Harg _ _ _ Hother). lia.
  - eexists _, _, _. split; [apply (Resize_spec _ _ _ _ _ _ Hbv Hm)|].
    split; [apply (is_bitvector_Resize _ _ _ _ _ _ Hbv Hm)|].
    apply PaddingZero_resized; [lia|exact Hpad].
Qed.

Lemma is_bitvector_extend (z : Zone) (a : list (option Z)) (o : BitVector)
    (x : nat) (lx : Z) (dx : nat) (xs : list Z) :
  is_bitvector z x lx dx xs →
  is_bitvector (mkZone (arrays z ++ [a]) (objects z ++ [o])) x lx dx xs.
Proof.
  intros (Hobj & Harr & H).
  repeat split; try apply H; simpl; apply lookup_app_l_Some; assumption.
Qed.

Lemma all_padding_zero_extend (z : Zone) (a : list (option Z)) (l : Z)
    (ws : list Z) :
  all_padding_zero z →
  is_bitvector
    (mkZone (arrays z ++ [a])
       (objects z ++ [mkBitVector l (BitVector.SizeFor l) (length (arrays z))]))
    (length (objects z)) l (length (arrays z)) ws →
  PaddingZero l ws →
  all_padding_zero
    (mkZone (arrays z ++ [a])
       (objects z ++ [mkBitVector l (BitVector.SizeFor l) (length (arrays z))])).
Proof.
  intros [Hall Hdist] Hnew Hpad.
  assert (∀ b o, objects z !! b = Some o → (data_ o < length (arrays z))%nat)
    as Hbound.
  { intros b o Hb. destruct (Hall b o Hb) as (xs & (_ & Harr & _) & _).
    apply lookup_lt_Some in Harr. exact Harr. }
  assert (∀ b o,
            (objects z ++
               [mkBitVector l (BitVector.SizeFor l) (length (arrays z))]) !! b
            = Some o →
            objects z !! b = Some o ∨
            (b = length (objects z) ∧
             o = mkBitVector l (BitVector.SizeFor l) (length (arrays z))))
    as Hcases.
  { intros b o Hb. apply lookup_app_Some in Hb as [Hb|[Hge Hb]]; [auto|].
    right. destruct (b - length (objects z))%nat as [|k] eqn:E; simpl in Hb.
    - injection Hb as <-. split; [lia|reflexivity].
    - rewrite lookup_nil in Hb. discriminate. }
  split.
  - intros b o Hb. simpl in Hb. destruct (Hcases b o Hb) as [Hold|[-> ->]].
    + destruct (Hall b o Hold) as (xs & Hx & Hpx).
      exists xs. split; [apply is_bitvector_extend; exact Hx|exact Hpx].
    + exists ws. split; [exact Hnew|exact Hpad].
  - intros b b' o o' Hb Hb' Hne. simpl in Hb, Hb'.
    destruct (Hcases b o Hb) as [Hold|[-> ->]],
             (Hcases b' o' Hb') as [Hold'|[-> ->]].
    + eapply Hdist; eauto.
    + pose proof (Hbound _ _ Hold). simpl. lia.
    + pose proof (Hbound _ _ Hold'). simpl. lia.
    + contradiction.
Qed.

Lemma all_padding_zero_new (z : Zone) (l : Z) (b : nat) (z' : Zone) :
  all_padding_zero z → BitVector.new l z = Ret (b, z') → all_padding_zero z'.
Proof.
  intros Hall H. destruct (Z.lt_ge_cases l 0) as [Hneg|Hpos].
  { rewrite (new_negative l z Hneg) in H. discriminate. }
  rewrite new_spec in H by lia. injection H as <- <-.
  apply (all_padding_zero_extend z
           (Some <$> replicate (Z.to_nat (BitVector.SizeFor l)) 0) l
           (replicate (Z.to_nat (BitVector.SizeFor l)) 0) Hall).
  - apply (is_bitvector_new l z). lia.
  - apply PaddingZero_zeros.
Qed.

Lemma all_padding_zero_copy (z : Zone) (other b : nat) (z' : Zone) :
  all_padding_zero z → BitVector.new_copy other z = Ret (b, z') →
  all_padding_zero z'.
Proof.
  intros Hall H.
  assert (∃ oo, objects z !! other = Some oo) as [oo Hoo].
  { destruct (objects z !! other) as [oo|] eqn:E; [eauto|].
    unfold BitVector.new_copy, deref in H. rewrite E in H. discriminate. }
  destruct (proj1 Hall other oo Hoo) as (ws & Hbv & Hpad).
  rewrite (new_copy_spec _ _ _ _ _ Hbv) in H. injection H as <- <-.
  apply (all_padding_zero_extend z (Some <$> ws) (length_ oo) ws Hall).
  - apply (is_bitvector_copy _ _ _ _ _ Hbv).
  - exact Hpad.
Qed.

Lemma all_padding_zero_mutate (z : Zone) (this : nat) (m : Mutation)
    (z' : Zone) :
  all_padding_zero z → m ≠ MAddAll → mutate this m z = Ret z' →
  all_padding_zero z'.
Proof.
  intros [Hall Hdist] Hne H.
  destruct (mutate_returns_object _ _ _ _ H) as [o Ho].
  destruct (Hall this o Ho) as (ws & Hbv & Hpad).
  assert (in_contract z (length_ o) m) as Hm.
  { apply (returns_in_contract this m z z' (length_ o) (data_ o) ws);
      [|exact Hbv|exact H].
    intros b ob Hb. destruct (Hall b ob Hb) as (xs & Hx & _). eauto. }
  assert (argument_padding z m) as Harg.
  { assert (∀ other len' d' vs, is_bitvector z other len' d' vs →
                                PaddingZero len' vs) as Hany.
    { intros other len' d' vs Hother. pose proof Hother as (Hobj & _).
      destruct (Hall _ _ Hobj) as (xs & Hx & Hpx). simpl in Hx, Hpx.
      rewrite (is_bitvector_inj _ _ _ _ _ _ _ _ Hother Hx). exact Hpx. }
    destruct m; simpl; try exact I; apply Hany. }
  destruct (mutation_keeps_padding _ _ _ _ _ _ Hbv Hpad Hne Hm Harg)
    as (z1 & d2 & ws' & Hrun & Hbv' & Hpad').
  assert (z1 = z') as -> by congruence.
  pose proof (mutate_mutates_only _ _ _ _ _ Ho H) as Hmut.
  assert (∀ x ox, x ≠ this → objects z' !! x = Some ox →
                  objects z !! x = Some ox ∧ untouched x z z' ∧
                  separate x this z') as Hother.
  { intros x ox Hx Hox. destruct Hmut as (Hobjs & Hrest).
    rewrite (Hobjs x Hx) in Hox. split; [exact Hox|].
    apply mutates_only_separate; [|exact (conj Hobjs Hrest)].
    exists ox, o. split; [exact Hox|]. split; [exact Ho|].
    split; [exact Hx|]. split; [apply (Hdist x this); auto|].
    destruct (Hall x ox Hox) as (xs & (_ & Hax & _) & _).
    destruct Hbv as (_ & Hat & _).
    split; eapply lookup_lt_Some; eauto. }
  pose proof Hbv' as (Hobj' & _).
  split.
  - intros b ob Hb. destruct (decide (b = this)) as [->|Hb'].
    + rewrite Hobj' in Hb. injection Hb as <-. simpl. eauto.
    + destruct (Hother b ob Hb' Hb) as (Hold & Hun & _).
      destruct (Hall b ob Hold) as (xs & Hx & Hpx).
      exists xs. split; [|exact Hpx].
      apply (is_bitvector_untouched _ _ _ _ _ _ Hun Hx).
  - intros b b' ob ob' Hb Hb' Hbb.
    destruct (decide (b = this)) as [->|Hn1], (decide (b' = this)) as [->|Hn2].
    + contradiction.
    + destruct (Hother b' ob' Hn2 Hb') as (_ & _ & (ox & oy & H1 & H2 & _ & Hd & _)).
      intros Heq. apply Hd. congruence.
    + destruct (Hother b ob Hn1 Hb) as (_ & _ & (ox & oy & H1 & H2 & _ & Hd & _)).
      intros Heq. apply Hd. congruence.
    + destruct (Hother b ob Hn1 Hb) as (Hold & _).
      destruct (Hother b' ob' Hn2 Hb') as (Hold' & _).
      eapply Hdist; eauto.
Qed.

Lemma Equals_below_length (z : Zone) (this other : nat) (len : Z) (d d' : nat)
    (ws vs : list Z) :
  is_bitvector z this len d ws → is_bitvector z other len d' vs →
  PaddingZero len ws → PaddingZero len vs →
  ∃ e, BitVector.Equals this other z = Ret e ∧
       (e = true ↔
        ∀ j, 0 ≤ j < len →
             ∃ r, BitVector.Contains this j z = Ret r ∧
                  BitVector.Contains other j z = Ret r).
Proof.
  intros Hthis Hother Hpad Hpad'.
  pose proof (is_bitvector_length _ _ _ _ _ _ _ _ Hthis Hother) as Hl.
  eexists. split; [apply (Equals_spec _ _ _ _ _ _ _ _ Hthis Hother)|].
  rewrite bool_decide_eq_true.
  rewrite (words_eq_below_length len ws vs); auto;
    [|apply Hthis|apply Hother].
  split.
  - intros H j Hj. exists (bit ws j).
    rewrite (Contains_spec _ _ _ _ _ j Hthis), (Contains_spec _ _ _ _ _ j Hother)
      by lia.
    rewrite H by lia. split; reflexivity.
  - intros H j Hj. destruct (H j Hj) as (r & H1 & H2).
    rewrite (Contains_spec _ _ _ _ _ j Hthis) in H1 by lia.
    rewrite (Contains_spec _ _ _ _ _ j Hother) in H2 by lia.
    congruence.
Qed.

Lemma Count_below_length (z : Zone) (this : nat) (len : Z) (d : nat)
    (ws : list Z) :
  is_bitvector z this len d ws → PaddingZero len ws →
  BitVector.Count this z
  = Ret (Z.of_nat (length (List.filter (bit ws) (seqZ 0 len)))) ∧
  ∀ j, 0 ≤ j < len → BitVector.Contains this j z = Ret (bit ws j).
Proof.
  intros Hbv Hpad.
  assert (Z.of_nat (length ws) = BitVector.SizeFor len ∧ 0 ≤ len)
    as [Hn H0] by (split; apply Hbv).
  split.
  - rewrite (Count_spec _ _ _ _ _ Hbv), (set_bits_below_length len); auto.
    pose proof (SizeFor_covers len H0). lia.
  - intros j Hj. apply (Contains_spec _ _ _ _ _ j Hbv). lia.
Qed.

(** C10, as amended. PaddingZero: every bit of the word array at or past the
    length is zero. Construction establishes it, for any length and on any
    zone; copy-construction gives the copy the words of its source, so the
    copy has it exactly when the source has it. Every mutating operation
    except [AddAll] whose arguments pass its checks returns and keeps it:
    [Add(i)], [Remove(i)], [Clear], [Resize], [Subtract], [Intersect] and
    [IntersectIsChanged] whatever the argument, [Union], [UnionIsChanged]
    and [CopyFrom] when the argument has it too. So a zone in which
    [AddAll] is never called stays one in which every BitVector has it: the
    empty zone is one, and construction, copy-construction and every
    operation other than [AddAll] that returns lead from one to another.
    For BitVectors that have it, [Equals] is true exactly when both answer
    every valid [Contains] alike, and [Count] is the number of indices below
    the length that [Contains] accepts. *)
Theorem PaddingZero_invariant :
  (∀ z l, 0 ≤ l →
     ∃ b z' d ws, BitVector.new l z = Ret (b, z') ∧
                  is_bitvector z' b l d ws ∧ PaddingZero l ws) ∧
  (∀ z other len d ws, is_bitvector z other len d ws →
     ∃ b z' d2 ws2, BitVector.new_copy other z = Ret (b, z') ∧
                    is_bitvector z' b len d2 ws2 ∧
                    (PaddingZero len ws2 ↔ PaddingZero len ws)) ∧
  (∀ z this len d ws m,
     is_bitvector z this len d ws → PaddingZero len ws → m ≠ MAddAll →
     in_contract z len m → argument_padding z m →
     ∃ z' d2 ws', mutate this m z = Ret z' ∧
                  is_bitvector z' this (length_after len m) d2 ws' ∧
                  PaddingZero (length_after len m) ws') ∧
  all_padding_zero empty_zone ∧
  (∀ z l b z', all_padding_zero z → BitVector.new l z = Ret (b, z') →
               all_padding_zero z') ∧
  (∀ z other b z', all_padding_zero z →
                   BitVector.new_copy other z = Ret (b, z') →
                   all_padding_zero z') ∧
  (∀ z this m z', all_padding_zero z → m ≠ MAddAll →
                  mutate this m z = Ret z' → all_padding_zero z') ∧
  (∀ z this other len d d' ws vs,
     is_bitvector z this len d ws → is_bitvector z other len d' vs →
     PaddingZero len ws → PaddingZero len vs →
     ∃ e, BitVector.Equals this other z = Ret e ∧
          (e = true ↔
           ∀ j, 0 ≤ j < len →
                ∃ r, BitVector.Contains this j z = Ret r ∧
                     BitVector.Contains other j z = Ret r)) ∧
  (∀ z this len d ws,
     is_bitvector z this len d ws → PaddingZero len ws →
     BitVector.Count this z
     = Ret (Z.of_nat (length (List.filter (bit ws) (seqZ 0 len)))) ∧
     ∀ j, 0 ≤ j < len → BitVector.Contains this j z = Ret (bit ws j)).
Proof.
  split; [|split; [|split; [|split; [|split; [|split; [|split; [|split]]]]]]].
  - intros z l Hl. eexists _, _, _, _. split; [apply new_spec; exact Hl|].
    split; [apply is_bitvector_new; exact Hl|apply PaddingZero_zeros].
  - intros z other len d ws Hbv. eexists _, _, _, _.
    split; [apply (new_copy_spec _ _ _ _ _ Hbv)|].
    split; [apply (is_bitvector_copy _ _ _ _ _ Hbv)|reflexivity].
  - intros z this len d ws m. apply mutation_keeps_padding.
  - split; intros b; intros; simpl in *; rewrite lookup_nil in *; discriminate.
  - intros z l b z'. apply all_padding_zero_new.
  - intros z other b z'. apply all_padding_zero_copy.
  - intros z this m z'. apply all_padding_zero_mutate.
  - intros z this other len d d' ws vs. apply Equals_below_length.
  - intros z this len d ws. apply Count_below_length.
Qed.

End PaddingEverywhere.

(** ** Two operations in a row *)

Section Absorption.
Context {arch : Arch}.

Lemma after_update (z : Zone) (this other : nat) (len : Z) (d d' : nat)
    (ws vs new : list Z) :
  is_bitvector z this len d ws → is_bitvector z other len d' vs → d' ≠ d →
  length new = length ws → Forall word_ok new →
  is_bitvector (with_array d (Some <$> new) z) this len d new ∧
  is_bitvector (with_array d (Some <$> new) z) other len d' vs.
Proof.
  intros Hthis Hother Hne Hl Hok.
  split; [apply (is_bitvector_update _ _ _ _ _ _ Hthis Hl Hok)|].
  pose proof (is_bitvector_frame _ _ _ _ _ _ _ _ _ _ Hthis Hother Hl Hok) as H.
  destruct (decide (d' = d)); [contradiction|exact H].
Qed.

(** The absorption laws, on the receiver [this] and another BitVector
    [other] of the same length: after [Union(other)] then
    [Intersect(other)], and after [Intersect(other)] then [Union(other)],
    the receiver [Equals] the argument; after [Subtract(other)] then
    [Intersect(other)] it is empty. They hold on whole words, whatever the
    padding bits are. *)
Theorem absorption_laws (z : Zone) (this other : nat) (len : Z)
    (d d' : nat) (ws vs : list Z) :
  is_bitvector z this len d ws → is_bitvector z other len d' vs → d' ≠ d →
  (∃ z1 z2, BitVector.Union this other z = Ret z1 ∧
            BitVector.Intersect this other z1 = Ret z2 ∧
            BitVector.Equals this other z2 = Ret true) ∧
  (∃ z1 z2, BitVector.Intersect this other z = Ret z1 ∧
            BitVector.Union this other z1 = Ret z2 ∧
            BitVector.Equals this other z2 = Ret true) ∧
  (∃ z1 z2, BitVector.Subtract this other z = Ret z1 ∧
            BitVector.Intersect this other z1 = Ret z2 ∧
            BitVector.IsEmpty this z2 = Ret true).
Proof.
  intros Hthis Hother Hne.
  pose proof (is_bitvector_length _ _ _ _ _ _ _ _ Hthis Hother) as Hl.
  assert (Forall word_ok ws ∧ Forall word_ok vs) as [Hok Hok']
    by (split; [apply Hthis|apply Hother]).
  assert (∀ op : Z → Z → Z, length (zip_with op ws vs) = length ws) as Hlz
    by (intros op; rewrite length_zip_with; lia).
  assert (∀ (op : Z → Z → Z) (new : list Z), length new = length ws →
                    length (zip_with op new vs) = length new) as Hlz2
    by (intros op new Hn; rewrite length_zip_with; lia).
  pose proof (Forall_word_ok_zip_with Z.lor ws vs word_ok_lor Hok Hok') as Hor.
  pose proof (Forall_word_ok_zip_with Z.land ws vs word_ok_land2 Hok Hok')
    as Hand.
  pose proof (Forall_word_ok_ldiff ws vs Hok) as Hdiff.
  destruct (after_update _ _ _ _ _ _ _ _ _ Hthis Hother Hne (Hlz Z.lor) Hor)
    as [Ht1 Ho1].
  destruct (after_update _ _ _ _ _ _ _ _ _ Hthis Hother Hne (Hlz Z.land) Hand)
    as [Ht2 Ho2].
  destruct (after_update _ _ _ _ _ _ _ _ _ Hthis Hother Hne (Hlz Z.ldiff) Hdiff)
    as [Ht3 Ho3].
  unfold BitVector.Union, BitVector.Intersect.
  split; [|split]; eexists _, _.
  - split; [apply (combine_words_spec _ _ _ _ _ _ _ _ _ Hthis Hother)|].
    split; [apply (combine_words_spec _ _ _ _ _ _ _ _ _ Ht1 Ho1)|].
    rewrite with_array_twice.
    pose proof (Forall_word_ok_zip_with Z.land _ vs word_ok_land2 Hor Hok')
      as Hok2.
    destruct (after_update _ _ _ _ _ _ _ _ _ Hthis Hother Hne
                (eq_trans (Hlz2 Z.land _ (Hlz Z.lor)) (Hlz Z.lor)) Hok2)
      as [Ht Ho].
    rewrite (Equals_spec _ _ _ _ _ _ _ _ Ht Ho), bool_decide_true; [reflexivity|].
    apply words_eq_bits; auto; [rewrite !length_zip_with; lia|].
    intros j _. rewrite bit_land, bit_lor by (rewrite ?length_zip_with; lia).
    destruct (bit ws j), (bit vs j); reflexivity.
  - split; [apply (combine_words_spec _ _ _ _ _ _ _ _ _ Hthis Hother)|].
    split; [apply (combine_words_spec _ _ _ _ _ _ _ _ _ Ht2 Ho2)|].
    rewrite with_array_twice.
    pose proof (Forall_word_ok_zip_with Z.lor _ vs word_ok_lor Hand Hok')
      as Hok2.
    destruct (after_update _ _ _ _ _ _ _ _ _ Hthis Hother Hne
                (eq_trans (Hlz2 Z.lor _ (Hlz Z.land)) (Hlz Z.land)) Hok2)
      as [Ht Ho].
    rewrite (Equals_spec _ _ _ _ _ _ _ _ Ht Ho), bool_decide_true; [reflexivity|].
    apply words_eq_bits; auto; [rewrite !length_zip_with; lia|].
    intros j _. rewrite bit_lor, bit_land by (rewrite ?length_zip_with; lia).
    destruct (bit ws j), (bit vs j); reflexivity.
  - split; [apply (Subtract_spec _ _ _ _ _ _ _ _ Hthis Hother)|].
    split; [apply (combine_words_spec _ _ _ _ _ _ _ _ _ Ht3 Ho3)|].
    rewrite with_array_twice.
    pose proof (Forall_word_ok_zip_with Z.land _ vs word_ok_land2 Hdiff Hok')
      as Hok2.
    destruct (after_update _ _ _ _ _ _ _ _ _ Hthis Hother Hne
                (eq_trans (Hlz2 Z.land _ (Hlz Z.ldiff)) (Hlz Z.ldiff)) Hok2)
      as [Ht Ho].
    rewrite (IsEmpty_spec _ _ _ _ _ Ht). f_equal.
    apply (all_zero_bits _ Hok2). intros j _.
    rewrite bit_land, bit_ldiff by (rewrite ?length_zip_with; lia).
    destruct (bit ws j), (bit vs j); reflexivity.
Qed.

End Absorption.

(** ** The skipping loops of the iterator *)

Section SkipLoops.
Context {arch : Arch}.

Import BitVector.Iterator.

Lemma Skip_zero (fuel : nat) (it : t) :
  SkipZeroBytes fuel 0 it = OutOfFuel ∧ SkipZeroBits fuel 0 it = OutOfFuel.
Proof.
  revert it. induction fuel as [|fuel IH]; intros it; [split; reflexivity|].
  split; simpl; apply IH.
Qed.

(** On a word that is not zero, [SkipZeroBytes] followed by [SkipZeroBits]
    returns: the value is shifted down to its lowest set bit and [current_]
    goes up by the position of that bit. [SkipZeroBytes] alone moves by
    whole bytes. *)
Theorem Skip_finds_lowest_set_bit (fuel : nat) (val : Z) (it : t) :
  0 < val < 2 ^ kDataBits → kDataBits ≤ Z.of_nat fuel →
  ∃ j k val1 it1,
    SkipZeroBytes fuel val it = Ret (val1, it1) ∧
    val1 = Z.shiftr val (8 * j) ∧ current_ it1 = current_ it + 8 * j ∧
    0 ≤ 8 * j ≤ k ∧
    SkipZeroBits fuel val1 it1 = Ret (Z.shiftr val k, add_current k it) ∧
    current_ (add_current k it) = current_ it + k ∧
    0 ≤ k < kDataBits ∧
    Z.testbit val k = true ∧
    (∀ s, 0 ≤ s < k → Z.testbit val s = false) ∧
    Z.odd (Z.shiftr val k) = true.
Proof.
  intros Hval Hfuel. pose proof kDataBits_pos.
  assert (2 ^ kDataBits ≤ 2 ^ Z.of_nat fuel) by (apply Z.pow_le_mono_r; lia).
  assert (2 ^ Z.of_nat fuel ≤ 2 ^ (8 * Z.of_nat fuel))
    by (apply Z.pow_le_mono_r; lia).
  destruct (SkipZeroBytes_spec fuel val it ltac:(lia))
    as (j & Hj & Hbytes & Hlow & Hpos).
  assert (Z.shiftr val (8 * j) ≤ val).
  { rewrite Z.shiftr_div_pow2 by lia.
    apply Z.div_le_upper_bound; [lia|].
    assert (0 < 2 ^ (8 * j)) by (apply Z.pow_pos_nonneg; lia). nia. }
  destruct (SkipZeroBits_spec fuel (Z.shiftr val (8 * j)) (add_current (8 * j) it)
              ltac:(lia))
    as (k & Hk & Hbits & Hlow' & Hset).
  rewrite Z.shiftr_shiftr, add_current_add in Hbits by lia.
  rewrite Z.shiftr_spec in Hset by lia.
  assert (8 * j + k < kDataBits).
  { destruct (Z.lt_ge_cases (8 * j + k) kDataBits) as [|Hge]; [assumption|].
    rewrite Z.add_comm, (word_ok_high val) in Hset; [discriminate| |lia].
    unfold word_ok. lia. }
  exists j, (8 * j + k), (Z.shiftr val (8 * j)), (add_current (8 * j) it).
  split; [exact Hbytes|]. split; [reflexivity|]. split; [reflexivity|].
  split; [lia|]. split; [exact Hbits|]. split; [reflexivity|].
  split; [lia|]. split; [rewrite Z.add_comm; exact Hset|]. split.
  - intros s Hs. destruct (Z.lt_ge_cases s (8 * j)) as [Hlt|Hge].
    + apply Hlow. lia.
    + specialize (Hlow' (s - 8 * j) ltac:(lia)).
      rewrite Z.shiftr_spec in Hlow' by lia.
      replace (s - 8 * j + 8 * j) with s in Hlow' by lia. exact Hlow'.
  - rewrite <- Z.bit0_odd, Z.shiftr_spec by lia.
    rewrite Z.add_comm in Hset. exact Hset.
Qed.

(** The two loops return exactly on a value that is not zero: on zero they
    use up any budget. *)
Theorem Skip_loops_return_iff_nonzero (fuel : nat) (val : Z) (it : t) :
  0 ≤ val < 2 ^ kDataBits → kDataBits ≤ Z.of_nat fuel →
  ((∃ r, SkipZeroBytes fuel val it = Ret r) ↔ val ≠ 0) ∧
  ((∃ r, SkipZeroBits fuel val it = Ret r) ↔ val ≠ 0) ∧
  (val = 0 →
   ∀ n, SkipZeroBytes n val it = OutOfFuel ∧ SkipZeroBits n val it = OutOfFuel).
Proof.
  intros Hval Hfuel. pose proof kDataBits_pos.
  assert (2 ^ kDataBits ≤ 2 ^ Z.of_nat fuel) by (apply Z.pow_le_mono_r; lia).
  assert (2 ^ Z.of_nat fuel ≤ 2 ^ (8 * Z.of_nat fuel))
    by (apply Z.pow_le_mono_r; lia).
  split; [|split].
  - split.
    + intros [r Hr] ->. destruct (Skip_zero fuel it) as [Hz _]. congruence.
    + intros Hne. destruct (SkipZeroBytes_spec fuel val it ltac:(lia))
        as (j & _ & Hrun & _).
      eexists. exact Hrun.
  - split.
    + intros [r Hr] ->. destruct (Skip_zero fuel it) as [_ Hz]. congruence.
    + intros Hne. destruct (SkipZeroBits_spec fuel val it ltac:(lia))
        as (j & _ & Hrun & _).
      eexists. exact Hrun.
  - intros -> n. apply Skip_zero.
Qed.

End SkipLoops.

(** * Further properties of GrowableBitVector *)

Section GrowableMore.
Context {arch : Arch}.

Lemma is_growable_new (l : Z) (z : Zone) :
  0 < l ≤ INT_MAX →
  GrowableBitVector.new l z
  = Ret (GrowableBitVector.mk (Some (length (objects z))), zone_after_new l z) ∧
  is_growable (zone_after_new l z)
    (GrowableBitVector.mk (Some (length (objects z)))) l
    (replicate (Z.to_nat (BitVector.SizeFor l)) 0).
Proof.
  intros Hl. split.
  - unfold GrowableBitVector.new. rewrite new_spec by lia. reflexivity.
  - simpl. eexists. split; [apply is_bitvector_new; lia|].
    split; [apply PaddingZero_zeros|exact Hl].
Qed.

(** A GrowableBitVector constructed with a positive length is empty, and
    [Clear] empties one in either state: without a backing set it does
    nothing, with one the capacity stays. *)
Theorem Growable_new_and_Clear (z : Zone) (g : GrowableBitVector.t)
    (len : Z) (ws : list Z) (l : Z) :
  is_growable z g len ws → 0 < l ≤ INT_MAX →
  (∃ g0 z0, GrowableBitVector.new l z = Ret (g0, z0) ∧
            ∀ i, 0 ≤ i → GrowableBitVector.Contains g0 i z0 = Ret false) ∧
  (∃ z', GrowableBitVector.Clear g z = Ret z' ∧
         (∀ i, 0 ≤ i → GrowableBitVector.Contains g i z' = Ret false) ∧
         (GrowableBitVector.bits_ g = None → z' = z) ∧
         (∀ b, GrowableBitVector.bits_ g = Some b →
               BitVector.length b z' = Ret len)).
Proof.
  intros Hg Hl. split.
  - destruct (is_growable_new l z Hl) as [Hrun Hg0].
    eexists _, _. split; [exact Hrun|]. intros i Hi.
    rewrite (Growable_Contains_spec _ _ _ _ _ Hg0 Hi), bit_zeros. reflexivity.
  - unfold is_growable in Hg. unfold GrowableBitVector.Clear.
    destruct g as [[b|]]; simpl in *.
    + destruct Hg as (d & Hbv & Hpad & Hlen).
      pose proof (is_bitvector_fill _ _ _ _ _ 0 Hbv word_ok_0) as Hbv'.
      eexists. split; [apply (Clear_bitvector _ _ _ _ _ Hbv)|].
      split; [|split; [discriminate|]].
      * intros i Hi.
        rewrite (Growable_Contains_spec _ (GrowableBitVector.mk (Some b)) len
                   (replicate (length ws) 0)), bit_zeros; auto.
        simpl. eexists. split; [exact Hbv'|].
        split; [apply PaddingZero_zeros|exact Hlen].
      * intros b' [= <-]. apply (length_spec _ _ _ _ _ Hbv').
    + eexists. split; [reflexivity|]. split; [intros i Hi; reflexivity|].
      split; [reflexivity|discriminate].
Qed.

(** [Add(v)] on a GrowableBitVector in either state, for any [v] whose
    double fits an [int]: it returns, [v] is an element afterwards, and every
    other index is an element exactly when it was one. *)
Theorem Growable_Add_adds (z : Zone) (g : GrowableBitVector.t) (len : Z)
    (ws : list Z) (v : Z) (fuel : nat) :
  is_growable z g len ws → 0 ≤ v → 2 * v ≤ INT_MAX → (31 ≤ fuel)%nat →
  ∃ g' z', GrowableBitVector.Add g v fuel z = Ret (g', z') ∧
           GrowableBitVector.Contains g' v z' = Ret true ∧
           ∀ i, 0 ≤ i → i ≠ v →
                GrowableBitVector.Contains g' i z'
                = GrowableBitVector.Contains g i z.
Proof.
  intros Hg Hv Hv2 Hfuel.
  destruct (Growable_Add_spec z g len ws v fuel Hg Hv Hv2 Hfuel)
    as (g' & z' & len' & ws' & Hrun & Hg' & Hbits & _).
  exists g', z'. split; [exact Hrun|]. split.
  - rewrite (Growable_Contains_spec _ _ _ _ _ Hg' Hv), Hbits, Z.eqb_refl by lia.
    reflexivity.
  - intros i Hi Hne.
    rewrite (Growable_Contains_spec _ _ _ _ _ Hg' Hi),
      (Growable_Contains_spec _ _ _ _ _ Hg Hi), Hbits by lia.
    destruct (Z.eqb_spec i v); [contradiction|reflexivity].
Qed.

Lemma double_until_power (fuel : nat) (value : Z) :
  ∀ n n', GrowableBitVector.double_until fuel n value = Ret n' →
          ∃ k : nat, n' = n * 2 ^ Z.of_nat k.
Proof.
  induction fuel as [|fuel IH]; intros n n' H; simpl in H;
    destruct (Z.leb_spec n value); try discriminate.
  - injection H as <-. exists 0%nat. simpl. lia.
  - destruct (_ && _); [|discriminate].
    destruct (IH _ _ H) as [k ->]. exists (S k).
    rewrite Nat2Z.inj_succ, Z.pow_succ_r by lia. lia.
  - injection H as <-. exists 0%nat. simpl. lia.
Qed.

(** [EnsureCapacity(v)]: afterwards there is a backing set whose length is
    greater than [v]. When [v] was in range nothing changes. Otherwise the
    new length is the start length (the old length, or [kInitialLength]
    without a backing set) doubled as often as needed, so at most twice [v]
    when the start length was not enough, and the elements are as before. *)
Theorem EnsureCapacity_growth (z : Zone) (g : GrowableBitVector.t) (len : Z)
    (ws : list Z) (v : Z) (fuel : nat) :
  is_growable z g len ws → 0 ≤ v → 2 * v ≤ INT_MAX → (31 ≤ fuel)%nat →
  ∃ g' z' b len' start,
    GrowableBitVector.EnsureCapacity g v fuel z = Ret (g', z') ∧
    start = match GrowableBitVector.bits_ g with
            | Some _ => len
            | None => GrowableBitVector.kInitialLength
            end ∧
    GrowableBitVector.bits_ g' = Some b ∧
    BitVector.length b z' = Ret len' ∧
    v < len' ∧
    (∃ k : nat, len' = start * 2 ^ Z.of_nat k) ∧
    (v < start → len' = start) ∧
    (start ≤ v → len' ≤ 2 * v) ∧
    (v < len → g' = g ∧ z' = z) ∧
    (∀ i, 0 ≤ i → GrowableBitVector.Contains g' i z'
                  = GrowableBitVector.Contains g i z).
Proof.
  intros Hg Hv Hv2 Hfuel. pose proof Hg as Hg0. unfold is_growable in Hg.
  unfold GrowableBitVector.EnsureCapacity, GrowableBitVector.InBitsRange.
  destruct g as [[b|]]; cbn [GrowableBitVector.bits_] in *.
  - destruct Hg as (d & Hbv & Hpad & Hlen).
    rewrite (length_spec _ _ _ _ _ Hbv), !bind_Ret.
    destruct (Z.gtb_spec len v) as [Hin|Hout].
    + exists (GrowableBitVector.mk (Some b)), z, b, len, len.
      split; [reflexivity|]. split; [reflexivity|]. split; [reflexivity|].
      split; [apply (length_spec _ _ _ _ _ Hbv)|]. split; [lia|].
      split; [exists 0%nat; simpl; lia|]. repeat split; try lia.
    + destruct (double_until_31 fuel len v)
        as (n' & Hrun & Hlt & Hrange & Hbound & _); auto.
      destruct (double_until_power _ _ _ _ Hrun) as [k Hk].
      rewrite Hrun, bind_Ret.
      assert (len < n') as Hgrow by lia.
      pose proof (is_bitvector_Resize _ _ _ _ _ _ Hbv Hgrow) as Hbv1.
      rewrite (Resize_spec _ _ _ _ _ _ Hbv Hgrow), !bind_Ret.
      eexists (GrowableBitVector.mk (Some b)), _, b, n', len.
      split; [reflexivity|]. split; [reflexivity|]. split; [reflexivity|].
      split; [apply (length_spec _ _ _ _ _ Hbv1)|]. split; [lia|].
      split; [exists k; exact Hk|]. split; [lia|]. split; [exact Hbound|].
      split; [lia|]. intros i Hi.
      rewrite (Growable_Contains_spec _ _ _ _ _ Hg0 Hi).
      rewrite (Growable_Contains_spec _ (GrowableBitVector.mk (Some b)) n'
                 (resized_words len n' ws)), bit_resized_words; auto.
      simpl. eexists. split; [exact Hbv1|].
      split; [apply PaddingZero_resized; [lia|exact Hpad]|lia].
  - destruct Hg as [-> ->]. rewrite !bind_Ret.
    change GrowableBitVector.kInitialLength with 1024.
    destruct (double_until_31 fuel 1024 v)
      as (n' & Hrun & Hlt & Hrange & Hbound & Hsame); auto;
      [unfold INT_MAX; lia|].
    destruct (double_until_power _ _ _ _ Hrun) as [k Hk].
    rewrite Hrun, bind_Ret, new_spec, !bind_Ret by lia.
    destruct (is_growable_new n' z ltac:(lia)) as [_ Hg1].
    eexists _, _, _, n', 1024.
    split; [reflexivity|]. split; [reflexivity|]. split; [reflexivity|].
    split; [apply (length_spec _ _ _ _ _ (is_bitvector_new n' z ltac:(lia)))|].
    split; [lia|]. split; [exists k; exact Hk|]. split; [exact Hsame|].
    split; [exact Hbound|]. split; [lia|]. intros i Hi.
    rewrite (Growable_Contains_spec _ _ _ _ _ Hg1 Hi), bit_zeros. reflexivity.
Qed.

Lemma double_until_overflow (value : Z) (m : nat) :
  2 ^ 30 ≤ value →
  ∀ fuel n, n * 2 ^ Z.of_nat m = 2 ^ 30 → 0 < n → (m < fuel)%nat →
            GrowableBitVector.double_until fuel n value = Fatal.
Proof.
  intros Hv. induction m as [|m IH]; intros [|fuel] n Hn Hpos Hfuel; try lia.
  - simpl in Hn. simpl. destruct (Z.leb_spec n value); [|lia].
    unfold INT_MIN, INT_MAX.
    destruct (Z.leb_spec (n * 2) 2147483647); [lia|].
    rewrite andb_false_r. reflexivity.
  - rewrite Nat2Z.inj_succ, Z.pow_succ_r in Hn by lia.
    assert (0 < 2 ^ Z.of_nat m) by (apply Z.pow_pos_nonneg; lia).
    simpl. destruct (Z.leb_spec n value); [|nia].
    unfold INT_MIN, INT_MAX.
    destruct (Z.leb_spec (-2147483648) (n * 2)); [|lia].
    destruct (Z.leb_spec (n * 2) 2147483647); [|nia]. simpl.
    apply IH; lia.
Qed.

(** [Add(v)] with [v] of 2^30 or more on a GrowableBitVector without a
    backing set: the doubling from [kInitialLength] would have to reach
    2^31, which is no [int], so the call yields no set. *)
Theorem Growable_Add_overflow (z : Zone) (v : Z) (fuel : nat) :
  2 ^ 30 ≤ v → (21 ≤ fuel)%nat →
  GrowableBitVector.Add GrowableBitVector.empty v fuel z = Fatal ∧
  GrowableBitVector.EnsureCapacity GrowableBitVector.empty v fuel z = Fatal.
Proof.
  intros Hv Hfuel.
  assert (GrowableBitVector.EnsureCapacity GrowableBitVector.empty v fuel z
          = Fatal) as Hcap.
  { unfold GrowableBitVector.EnsureCapacity, GrowableBitVector.InBitsRange.
    cbn [GrowableBitVector.bits_ GrowableBitVector.empty].
    rewrite !bind_Ret. change GrowableBitVector.kInitialLength with 1024.
    rewrite (double_until_overflow v 20 Hv); try lia; reflexivity. }
  split; [|exact Hcap]. unfold GrowableBitVector.Add. rewrite Hcap.
  reflexivity.
Qed.

(** [Union], where it returns, with [Iterator::Advance] (declared in the
    header, body elsewhere) modelled as the traversal it is documented to
    be: afterwards the receiver contains an index exactly when it or the
    argument did, and the argument is as before. The argument has a length
    of at most 2^30 and does not share its backing set with the receiver. *)
Theorem Growable_Union_adds (z : Zone) (g h : GrowableBitVector.t)
    (len lenh : Z) (ws hs : list Z) (fuel : nat) :
  is_growable z g len ws → is_growable z h lenh hs →
  (∀ bh, GrowableBitVector.bits_ h = Some bh → apart bh g z) →
  lenh ≤ 2 ^ 30 → kDataBits ≤ Z.of_nat fuel →
  Z.of_nat (length hs) * kDataBits ≤ Z.of_nat fuel →
  ∃ g' z', GrowableBitVector.Union g h fuel z = Ret (g', z') ∧
           ∀ i, 0 ≤ i →
                ∃ a b, GrowableBitVector.Contains g i z = Ret a ∧
                       GrowableBitVector.Contains h i z = Ret b ∧
                       GrowableBitVector.Contains g' i z' = Ret (a || b) ∧
                       GrowableBitVector.Contains h i z' = Ret b.
Proof.
  intros Hg Hh Hapart Hlen Hfuel Hfuel'.
  destruct (Growable_Union_spec z g h len lenh ws hs fuel Hg Hh Hapart Hlen
              Hfuel Hfuel')
    as (g' & z' & len' & ws' & Hrun & _ & Hc' & Hc & Hch & Hch').
  exists g', z'. split; [exact Hrun|]. intros i Hi.
  exists (bit ws i), (bit hs i). auto.
Qed.

End GrowableMore.

(** * The properties at concrete inputs, on a 64-bit target *)

#[local] Existing Instance x64.

Ltac concrete_bitvector :=
  unfold is_bitvector; repeat split; try reflexivity; try lia;
  repeat constructor; vm_compute; intuition discriminate.

Ltac concrete_padding := apply padding_zerob_spec; vm_compute; reflexivity.

Lemma Add_Remove_Contains_witness :
  is_bitvector zone_10 0 10 0 [36] ∧ 0 ≤ 3 < 10 ∧
  ∃ z', BitVector.Add 0 3 zone_10 = Ret z' ∧
        BitVector.Contains 0 3 z' = Ret true.
Proof.
  assert (is_bitvector zone_10 0 10 0 [36]) as Hbv
    by concrete_bitvector.
  assert (0 ≤ 3 < 10) as Hi by lia.
  split; [exact Hbv|]. split; [exact Hi|].
  destruct (Add_Remove_Contains zone_10 0 10 0 [36] 3 Hbv Hi)
    as [(z' & Hadd & Hc & _) _].
  exists z'. split; assumption.
Defined.



Lemma AddAll_then_Resize_keeps_padding_witness :
  is_bitvector zone_10 0 10 0 [36] ∧
  10 mod BitVector.kDataBits ≠ 0 ∧ 10 < 100 ∧
  10 < BitVector.SizeFor 10 * BitVector.kDataBits.
Proof.
  assert (is_bitvector zone_10 0 10 0 [36]) as Hbv
    by concrete_bitvector.
  assert (10 mod BitVector.kDataBits ≠ 0) as Hmod
    by (vm_compute; discriminate).
  assert (10 < 100) as Hlt by lia.
  split; [exact Hbv|]. split; [exact Hmod|]. split; [exact Hlt|].
  exact (proj1 (AddAll_then_Resize_keeps_padding
                  zone_10 0 10 0 [36] 100 Hbv Hmod Hlt)).
Defined.

Lemma IsChanged_variants_witness :
  is_bitvector zone_10 0 10 0 [36] ∧
  is_bitvector zone_10 1 10 1 [40] ∧
  ∃ z' ws' changed,
    BitVector.Union 0 1 zone_10 = Ret z' ∧
    BitVector.UnionIsChanged 0 1 zone_10 = Ret (changed, z') ∧
    is_bitvector z' 0 10 0 ws' ∧
    (changed = false ↔ ws' = [36]).
Proof.
  assert (is_bitvector zone_10 0 10 0 [36]) as Ha
    by concrete_bitvector.
  assert (is_bitvector zone_10 1 10 1 [40]) as Hb
    by concrete_bitvector.
  split; [exact Ha|]. split; [exact Hb|].
  exact (proj1 (IsChanged_variants zone_10 0 1 10 0 1 [36] [40]
                  Ha Hb)).
Defined.

Lemma set_operations_algebra_witness :
  is_bitvector zone_10 0 10 0 [36] ∧
  is_bitvector zone_10 1 10 1 [40] ∧
  is_bitvector zone_10 2 10 2 [512] ∧
  is_bitvector zone_10 3 10 3 (replicate (length [36]) 0) ∧
  commutes (BitVector.Union) zone_10 0 1 10 0 1.
Proof.
  assert (is_bitvector zone_10 0 10 0 [36]) as Ha
    by concrete_bitvector.
  assert (is_bitvector zone_10 1 10 1 [40]) as Hb
    by concrete_bitvector.
  assert (is_bitvector zone_10 2 10 2 [512]) as Hc
    by concrete_bitvector.
  assert (is_bitvector zone_10 3 10 3 (replicate (length [36]) 0))
    as He by concrete_bitvector.
  split; [exact Ha|]. split; [exact Hb|]. split; [exact Hc|]. split; [exact He|].
  exact (proj1 (set_operations_algebra zone_10 0 1 2 3 10
                  0 1 2 3 [36] [40] [512] Ha Hb Hc He)).
Defined.

Lemma Iterator_traversal_witness :
  is_bitvector zone_10 0 10 0 [36] ∧
  Z.of_nat (length [36]) * BitVector.kDataBits ≤ Z.of_nat 64 ∧
  BitVector.Iterator.elements 0 64 zone_10
  = Ret (set_bits [36]).
Proof.
  assert (is_bitvector zone_10 0 10 0 [36]) as Hbv
    by concrete_bitvector.
  assert (Z.of_nat (length [36]) * BitVector.kDataBits ≤ Z.of_nat 64)
    as Hfuel by (vm_compute; discriminate).
  split; [exact Hbv|]. split; [exact Hfuel|].
  exact (proj1 (Iterator_traversal zone_10 0 10 0 [36] 64
                  Hbv Hfuel)).
Defined.

Lemma Growable_Contains_and_Add_witness :
  is_bitvector zone_10 0 10 0 [36] ∧ 0 ≤ 3 ∧ (1 ≤ 1)%nat ∧
  scenario_Add_2000 1 = Ret (2048, true, false).
Proof.
  assert (is_bitvector zone_10 0 10 0 [36]) as Hbv
    by concrete_bitvector.
  assert (0 ≤ 3) as Hi by lia.
  assert (1 ≤ 1)%nat as Hfuel by lia.
  split; [exact Hbv|]. split; [exact Hi|]. split; [exact Hfuel|].
  exact (proj2 (proj2 (proj2 (Growable_Contains_and_Add
                  zone_10 0 10 0 [36] 3 1 Hbv Hi Hfuel)))).
Defined.

Lemma copy_equal_and_independent_witness :
  is_bitvector zone_10 0 10 0 [36] ∧
  ∃ b2 z1 d2,
    BitVector.new_copy 0 zone_10 = Ret (b2, z1) ∧
    is_bitvector z1 b2 10 d2 [36] ∧
    BitVector.Equals b2 0 z1 = Ret true.
Proof.
  assert (is_bitvector zone_10 0 10 0 [36]) as Hbv
    by concrete_bitvector.
  split; [exact Hbv|].
  destruct (copy_equal_and_independent zone_10 0 10 0 [36] Hbv)
    as (b2 & z1 & d2 & Hcopy & _ & _ & _ & _ & Hb2 & _ & _ & Heq & _).
  exists b2, z1, d2. split; [exact Hcopy|]. split; assumption.
Defined.

(** C10 as stated fails on the copy of a BitVector of length 1 on which
    [AddAll()] was called: the copy, on which it never was, has set padding,
    and its [Count()] is 64. *)
Lemma copy_after_AddAll_counterexample :
  copy_after_AddAll = Ret (1%nat, zone_copy_all_ones, 64) ∧
  is_bitvector zone_copy_all_ones 1 1 1 [all_ones_64] ∧
  ¬ PaddingZero 1 [all_ones_64].
Proof.
  split; [vm_compute; reflexivity|]. split; [concrete_bitvector|].
  intros H. specialize (H 1 ltac:(lia)). vm_compute in H. discriminate.
Qed.

Lemma PaddingZero_invariant_witness :
  (0 ≤ 0 ∧
   ∃ b z' d ws, BitVector.new 0 empty_zone = Ret (b, z') ∧
                is_bitvector z' b 0 d ws ∧ PaddingZero 0 ws) ∧
  (is_bitvector zone_10 0 10 0 [36] ∧ PaddingZero 10 [36] ∧
   MResize 100 ≠ MAddAll ∧ in_contract zone_10 10 (MResize 100) ∧
   argument_padding zone_10 (MResize 100) ∧
   ∃ z' d2 ws', mutate 0 (MResize 100) zone_10 = Ret z' ∧
                is_bitvector z' 0 100 d2 ws' ∧ PaddingZero 100 ws') ∧
  (all_padding_zero empty_zone ∧
   ∃ b z', BitVector.new 0 empty_zone = Ret (b, z') ∧ all_padding_zero z') ∧
  BitVector.Count 0 zone_10
  = Ret (Z.of_nat (length (List.filter (bit [36]) (seqZ 0 10)))).
Proof.
  destruct PaddingZero_invariant
    as (Hnew & _ & Hmut & Hempty & Hznew & _ & _ & _ & Hcount).
  assert (0 ≤ 0) as H0 by lia.
  assert (is_bitvector zone_10 0 10 0 [36]) as Ha by concrete_bitvector.
  assert (PaddingZero 10 [36]) as Hpad by concrete_padding.
  assert (MResize 100 ≠ MAddAll) as Hne by discriminate.
  assert (in_contract zone_10 10 (MResize 100)) as Hm by (simpl; lia).
  assert (argument_padding zone_10 (MResize 100)) as Harg by exact I.
  assert (BitVector.new 0 empty_zone
          = Ret (0%nat, zone_after_new 0 empty_zone)) as Hrun
    by (apply new_spec; lia).
  split; [split; [exact H0|exact (Hnew empty_zone 0 H0)]|].
  split.
  { split; [exact Ha|]. split; [exact Hpad|]. split; [exact Hne|].
    split; [exact Hm|]. split; [exact Harg|].
    exact (Hmut zone_10 0%nat 10 0%nat [36] (MResize 100) Ha Hpad Hne Hm Harg). }
  split.
  { split; [exact Hempty|]. exists 0%nat, (zone_after_new 0 empty_zone).
    split; [exact Hrun|exact (Hznew _ _ _ _ Hempty Hrun)]. }
  exact (proj1 (Hcount zone_10 0%nat 10 0%nat [36] Ha Hpad)).
Defined.

(** ** The further properties at concrete inputs *)

Lemma SizeFor_is_word_count_witness :
  0 ≤ 100 ∧ 1 ≤ BitVector.SizeFor 100 ∧
  100 ≤ BitVector.SizeFor 100 * BitVector.kDataBits.
Proof.
  assert (0 ≤ 100) as H by lia. split; [exact H|].
  destruct (SizeFor_is_word_count 100 H) as (H1 & H2 & _). split; assumption.
Defined.

Lemma new_gives_empty_set_witness :
  0 ≤ 10 ∧
  ∃ b z', BitVector.new 10 empty_zone = Ret (b, z') ∧
          BitVector.IsEmpty b z' = Ret true.
Proof.
  assert (0 ≤ 10) as H by lia. split; [exact H|].
  destruct (new_gives_empty_set 10 empty_zone H)
    as [(b & z' & Hnew & _ & _ & He & _) _].
  exists b, z'. split; assumption.
Defined.

Lemma index_is_checked_witness :
  is_bitvector zone_10 0 10 0 [36] ∧
  ((∃ r, BitVector.Contains 0 10 zone_10 = Ret r) ↔ 0 ≤ 10 < 10).
Proof.
  assert (is_bitvector zone_10 0 10 0 [36]) as Hbv by concrete_bitvector.
  split; [exact Hbv|].
  exact (proj1 (index_is_checked zone_10 0 10 0 [36] 10 Hbv)).
Defined.

Lemma length_is_checked_witness :
  is_bitvector zone_mixed 0 3 0 [5] ∧ is_bitvector zone_mixed 1 100 1 [5; 9] ∧
  ((∃ z', BitVector.Union 0 1 zone_mixed = Ret z') ↔ 100 = 3) ∧
  ((∃ z', BitVector.CopyFrom 0 1 zone_mixed = Ret z') ↔ 100 ≤ 3) ∧
  ((∃ z', BitVector.Resize 0 64 zone_mixed = Ret z') ↔ 3 < 64).
Proof.
  assert (is_bitvector zone_mixed 0 3 0 [5]) as Ha by concrete_bitvector.
  assert (is_bitvector zone_mixed 1 100 1 [5; 9]) as Hb by concrete_bitvector.
  split; [exact Ha|]. split; [exact Hb|].
  destruct (length_is_checked zone_mixed 0 1 3 100 0 1 [5] [5; 9] 64 Ha Hb)
    as (Hu & _ & _ & _ & _ & Hc & Hr & _).
  split; [exact Hu|]. split; [exact Hc|exact Hr].
Defined.

Lemma Clear_and_AddAll_witness :
  is_bitvector zone_10 0 10 0 [36] ∧
  ∃ z', BitVector.AddAll 0 zone_10 = Ret z' ∧
        BitVector.IsEmpty 0 z' = Ret false.
Proof.
  assert (is_bitvector zone_10 0 10 0 [36]) as Hbv by concrete_bitvector.
  split; [exact Hbv|].
  destruct (Clear_and_AddAll zone_10 0 10 0 [36] Hbv)
    as [_ (z' & Hrun & _ & He & _)].
  exists z'. split; assumption.
Defined.

Lemma Add_Remove_round_trip_witness :
  is_bitvector zone_10 0 10 0 [36] ∧ 0 ≤ 2 < 10 ∧
  BitVector.Contains 0 2 zone_10 = Ret true ∧
  BitVector.Add 0 2 zone_10 = Ret zone_10.
Proof.
  assert (is_bitvector zone_10 0 10 0 [36]) as Hbv by concrete_bitvector.
  assert (0 ≤ 2 < 10) as Hi by lia.
  assert (BitVector.Contains 0 2 zone_10 = Ret true) as Hc
    by (vm_compute; reflexivity).
  split; [exact Hbv|]. split; [exact Hi|]. split; [exact Hc|].
  exact (proj1 (proj1 (Add_Remove_round_trip zone_10 0 10 0 [36] 2 Hbv Hi)
                  Hc)).
Defined.

Lemma single_bit_operations_commute_witness :
  is_bitvector zone_10 0 10 0 [36] ∧ 0 ≤ 1 < 10 ∧ 0 ≤ 3 < 10 ∧ 1 ≠ 3 ∧
  ∃ z1 z2 z', BitVector.Add 0 1 zone_10 = Ret z1 ∧
              BitVector.Add 0 3 z1 = Ret z' ∧
              BitVector.Add 0 3 zone_10 = Ret z2 ∧
              BitVector.Add 0 1 z2 = Ret z'.
Proof.
  assert (is_bitvector zone_10 0 10 0 [36]) as Hbv by concrete_bitvector.
  assert (0 ≤ 1 < 10) as Hi by lia.
  assert (0 ≤ 3 < 10) as Hj by lia.
  assert (1 ≠ 3) as Hne by lia.
  split; [exact Hbv|]. split; [exact Hi|]. split; [exact Hj|].
  split; [exact Hne|].
  exact (proj1 (single_bit_operations_commute zone_10 0 10 0 [36] 1 3
                  Hbv Hi Hj Hne)).
Defined.

Lemma set_operations_pointwise_witness :
  is_bitvector zone_10 0 10 0 [36] ∧ is_bitvector zone_10 1 10 1 [40] ∧
  ∃ z', BitVector.Subtract 0 1 zone_10 = Ret z' ∧
        BitVector.length 0 z' = Ret 10.
Proof.
  assert (is_bitvector zone_10 0 10 0 [36]) as Ha by concrete_bitvector.
  assert (is_bitvector zone_10 1 10 1 [40]) as Hb by concrete_bitvector.
  split; [exact Ha|]. split; [exact Hb|].
  destruct (set_operations_pointwise zone_10 0 1 10 0 1 [36] [40] Ha Hb)
    as (_ & _ & z' & Hrun & Hlen & _).
  exists z'. split; assumption.
Defined.

Lemma IsChanged_is_subset_test_witness :
  is_bitvector zone_10 0 10 0 [36] ∧ is_bitvector zone_10 3 10 3 [0] ∧
  ∃ c z', BitVector.UnionIsChanged 0 3 zone_10 = Ret (c, z').
Proof.
  assert (is_bitvector zone_10 0 10 0 [36]) as Ha by concrete_bitvector.
  assert (is_bitvector zone_10 3 10 3 [0]) as Hb by concrete_bitvector.
  split; [exact Ha|]. split; [exact Hb|].
  destruct (IsChanged_is_subset_test zone_10 0 3 10 0 3 [36] [0] Ha Hb)
    as [(c & z' & Hrun & _) _].
  exists c, z'. exact Hrun.
Defined.

Lemma set_operations_idempotent_witness :
  is_bitvector zone_10 0 10 0 [36] ∧ is_bitvector zone_10 1 10 1 [40] ∧
  ∃ c z', BitVector.UnionIsChanged 0 1 zone_10 = Ret (c, z') ∧
          BitVector.UnionIsChanged 0 1 z' = Ret (false, z').
Proof.
  assert (is_bitvector zone_10 0 10 0 [36]) as Ha by concrete_bitvector.
  assert (is_bitvector zone_10 1 10 1 [40]) as Hb by concrete_bitvector.
  split; [exact Ha|]. split; [exact Hb|].
  exact (proj1 (set_operations_idempotent zone_10 0 1 10 0 1 [36] [40] Ha Hb)).
Defined.

Lemma absorption_laws_witness :
  is_bitvector zone_10 0 10 0 [36] ∧ is_bitvector zone_10 1 10 1 [40] ∧
  1%nat ≠ 0%nat ∧
  ∃ z1 z2, BitVector.Union 0 1 zone_10 = Ret z1 ∧
           BitVector.Intersect 0 1 z1 = Ret z2 ∧
           BitVector.Equals 0 1 z2 = Ret true.
Proof.
  assert (is_bitvector zone_10 0 10 0 [36]) as Ha by concrete_bitvector.
  assert (is_bitvector zone_10 1 10 1 [40]) as Hb by concrete_bitvector.
  assert (1%nat ≠ 0%nat) as Hne by lia.
  split; [exact Ha|]. split; [exact Hb|]. split; [exact Hne|].
  exact (proj1 (absorption_laws zone_10 0 1 10 0 1 [36] [40] Ha Hb Hne)).
Defined.

Lemma IsEmpty_means_no_element_witness :
  is_bitvector zone_10 3 10 3 [0] ∧
  ∃ e, BitVector.IsEmpty 3 zone_10 = Ret e ∧
       (e = true →
        ∀ i, 0 ≤ i < 10 → BitVector.Contains 3 i zone_10 = Ret false).
Proof.
  assert (is_bitvector zone_10 3 10 3 [0]) as Hbv by concrete_bitvector.
  split; [exact Hbv|].
  destruct (IsEmpty_means_no_element zone_10 3 10 3 [0] Hbv)
    as (e & Hrun & Hno & _).
  exists e. split; assumption.
Defined.

Lemma Equals_is_equivalence_witness :
  is_bitvector zone_10 0 10 0 [36] ∧ is_bitvector zone_10 1 10 1 [40] ∧
  is_bitvector zone_10 2 10 2 [512] ∧
  BitVector.Equals 0 1 zone_10 = BitVector.Equals 1 0 zone_10.
Proof.
  assert (is_bitvector zone_10 0 10 0 [36]) as Ha by concrete_bitvector.
  assert (is_bitvector zone_10 1 10 1 [40]) as Hb by concrete_bitvector.
  assert (is_bitvector zone_10 2 10 2 [512]) as Hc by concrete_bitvector.
  split; [exact Ha|]. split; [exact Hb|]. split; [exact Hc|].
  exact (proj1 (proj2 (Equals_is_equivalence zone_10 0 1 2 10 0 1 2
                         [36] [40] [512] Ha Hb Hc))).
Defined.

Lemma Equals_ignores_length_witness :
  is_bitvector zone_mixed 0 3 0 [5] ∧ is_bitvector zone_mixed 1 100 1 [5; 9] ∧
  BitVector.SizeFor 3 ≤ BitVector.SizeFor 100 ∧
  ∃ e, BitVector.Equals 0 1 zone_mixed = Ret e ∧
       (e = true ↔ [5] = take (length [5]) [5; 9]).
Proof.
  assert (is_bitvector zone_mixed 0 3 0 [5]) as Ha by concrete_bitvector.
  assert (is_bitvector zone_mixed 1 100 1 [5; 9]) as Hb by concrete_bitvector.
  assert (BitVector.SizeFor 3 ≤ BitVector.SizeFor 100) as Hsz
    by (vm_compute; discriminate).
  split; [exact Ha|]. split; [exact Hb|]. split; [exact Hsz|].
  destruct (Equals_ignores_length zone_mixed 0 1 3 100 0 1 [5] [5; 9]
              Ha Hb Hsz) as (e & Hrun & Hiff & _).
  exists e. split; assumption.
Defined.

Lemma CopyFrom_copies_witness :
  is_bitvector zone_mixed 1 100 1 [5; 9] ∧ is_bitvector zone_mixed 0 3 0 [5] ∧
  3 ≤ 100 ∧ 0%nat ≠ 1%nat ∧
  ∃ z', BitVector.CopyFrom 1 0 zone_mixed = Ret z' ∧
        BitVector.length 1 z' = Ret 100.
Proof.
  assert (is_bitvector zone_mixed 1 100 1 [5; 9]) as Ha by concrete_bitvector.
  assert (is_bitvector zone_mixed 0 3 0 [5]) as Hb by concrete_bitvector.
  assert (3 ≤ 100) as Hle by lia.
  assert (0%nat ≠ 1%nat) as Hne by lia.
  split; [exact Ha|]. split; [exact Hb|]. split; [exact Hle|].
  split; [exact Hne|].
  destruct (CopyFrom_copies zone_mixed 1 0 100 3 1 0 [5; 9] [5] Ha Hb Hle Hne)
    as (z' & Hrun & Hlen & _).
  exists z'. split; assumption.
Defined.

Lemma Resize_allocation_witness :
  is_bitvector zone_10 0 10 0 [36] ∧ 10 < 100 ∧
  ∃ z', BitVector.Resize 0 100 zone_10 = Ret z' ∧
        BitVector.length 0 z' = Ret 100.
Proof.
  assert (is_bitvector zone_10 0 10 0 [36]) as Hbv by concrete_bitvector.
  assert (10 < 100) as Hlt by lia.
  split; [exact Hbv|]. split; [exact Hlt|].
  destruct (Resize_allocation zone_10 0 10 0 [36] 100 Hbv Hlt)
    as (z' & Hrun & Hlen & _).
  exists z'. split; assumption.
Defined.

Lemma mutations_leave_other_sets_witness :
  separate 1 0 zone_10 ∧
  ∃ z', mutate_all 0 [MAdd 3; MAddAll; MResize 100] zone_10 = Ret z' ∧
        ∀ i, BitVector.Contains 1 i z' = BitVector.Contains 1 i zone_10.
Proof.
  assert (separate 1 0 zone_10) as Hsep.
  { eexists _, _. split; [reflexivity|]. split; [reflexivity|].
    simpl. repeat split; lia. }
  split; [exact Hsep|]. eexists. split; [vm_compute; reflexivity|].
  refine (proj2 (mutations_leave_other_sets 1 0 [MAdd 3; MAddAll; MResize 100]
                   zone_10 _ Hsep _)).
  vm_compute. reflexivity.
Defined.

Lemma mutations_in_contract_return_witness :
  is_bitvector zone_10 0 10 0 [36] ∧ in_contract zone_10 10 (MUnion 1) ∧
  ∃ z' d2 ws', mutate 0 (MUnion 1) zone_10 = Ret z' ∧
               is_bitvector z' 0 10 d2 ws' ∧
               BitVector.length 0 z' = Ret 10.
Proof.
  assert (is_bitvector zone_10 0 10 0 [36]) as Ha by concrete_bitvector.
  assert (in_contract zone_10 10 (MUnion 1)) as Hm
    by (exists 1%nat, [40]; concrete_bitvector).
  split; [exact Ha|]. split; [exact Hm|].
  exact (mutations_in_contract_return zone_10 0 10 0 [36] (MUnion 1) Ha Hm).
Defined.

Lemma Skip_finds_lowest_set_bit_witness :
  0 < 36 < 2 ^ BitVector.kDataBits ∧ BitVector.kDataBits ≤ Z.of_nat 64 ∧
  ∃ j k val1 it1,
    BitVector.Iterator.SkipZeroBytes 64 36 iterator_36 = Ret (val1, it1) ∧
    val1 = Z.shiftr 36 (8 * j) ∧
    BitVector.Iterator.current_ it1
    = BitVector.Iterator.current_ iterator_36 + 8 * j ∧
    0 ≤ 8 * j ≤ k ∧
    BitVector.Iterator.SkipZeroBits 64 val1 it1
    = Ret (Z.shiftr 36 k, BitVector.Iterator.add_current k iterator_36).
Proof.
  assert (0 < 36 < 2 ^ BitVector.kDataBits) as Hval
    by (vm_compute; split; reflexivity).
  assert (BitVector.kDataBits ≤ Z.of_nat 64) as Hfuel
    by (vm_compute; discriminate).
  split; [exact Hval|]. split; [exact Hfuel|].
  destruct (Skip_finds_lowest_set_bit 64 36 iterator_36 Hval Hfuel)
    as (j & k & val1 & it1 & H1 & H2 & H3 & H4 & H5 & _).
  exists j, k, val1, it1. repeat split; try assumption; apply H4.
Defined.

Lemma Skip_loops_return_iff_nonzero_witness :
  0 ≤ 0 < 2 ^ BitVector.kDataBits ∧ BitVector.kDataBits ≤ Z.of_nat 64 ∧
  ((∃ r, BitVector.Iterator.SkipZeroBytes 64 0 iterator_36 = Ret r) ↔ 0 ≠ 0).
Proof.
  assert (0 ≤ 0 < 2 ^ BitVector.kDataBits) as Hval
    by (vm_compute; split; [discriminate|reflexivity]).
  assert (BitVector.kDataBits ≤ Z.of_nat 64) as Hfuel
    by (vm_compute; discriminate).
  split; [exact Hval|]. split; [exact Hfuel|].
  exact (proj1 (Skip_loops_return_iff_nonzero 64 0 iterator_36 Hval Hfuel)).
Defined.

Lemma Growable_new_and_Clear_witness :
  is_growable zone_10 (GrowableBitVector.mk (Some 0%nat)) 10 [36] ∧
  0 < 8 ≤ INT_MAX ∧
  ∃ z', GrowableBitVector.Clear (GrowableBitVector.mk (Some 0%nat)) zone_10
        = Ret z' ∧
        ∀ i, 0 ≤ i →
             GrowableBitVector.Contains (GrowableBitVector.mk (Some 0%nat)) i z'
             = Ret false.
Proof.
  assert (is_growable zone_10 (GrowableBitVector.mk (Some 0%nat)) 10 [36])
    as Hg.
  { exists 0%nat. split; [concrete_bitvector|].
    split; [concrete_padding|unfold INT_MAX; lia]. }
  assert (0 < 8 ≤ INT_MAX) as Hl by (unfold INT_MAX; lia).
  split; [exact Hg|]. split; [exact Hl|].
  destruct (Growable_new_and_Clear zone_10 (GrowableBitVector.mk (Some 0%nat))
              10 [36] 8 Hg Hl) as [_ (z' & Hrun & Hc & _)].
  exists z'. split; assumption.
Defined.

Lemma Growable_Add_adds_witness :
  is_growable empty_zone GrowableBitVector.empty 0 [] ∧
  0 ≤ 2000 ∧ 2 * 2000 ≤ INT_MAX ∧ (31 ≤ 31)%nat ∧
  ∃ g' z', GrowableBitVector.Add GrowableBitVector.empty 2000 31 empty_zone
           = Ret (g', z') ∧
           GrowableBitVector.Contains g' 2000 z' = Ret true.
Proof.
  assert (is_growable empty_zone GrowableBitVector.empty 0 []) as Hg
    by (split; reflexivity).
  assert (0 ≤ 2000) as Hv by lia.
  assert (2 * 2000 ≤ INT_MAX) as Hv2 by (unfold INT_MAX; lia).
  assert (31 ≤ 31)%nat as Hfuel by lia.
  split; [exact Hg|]. split; [exact Hv|]. split; [exact Hv2|].
  split; [exact Hfuel|].
  destruct (Growable_Add_adds empty_zone GrowableBitVector.empty 0 [] 2000 31
              Hg Hv Hv2 Hfuel) as (g' & z' & Hrun & Hc & _).
  exists g', z'. split; assumption.
Defined.

Lemma EnsureCapacity_growth_witness :
  is_growable zone_10 (GrowableBitVector.mk (Some 0%nat)) 10 [36] ∧
  0 ≤ 100 ∧ 2 * 100 ≤ INT_MAX ∧ (31 ≤ 31)%nat ∧
  ∃ g' z' b len',
    GrowableBitVector.EnsureCapacity (GrowableBitVector.mk (Some 0%nat)) 100 31
      zone_10 = Ret (g', z') ∧
    GrowableBitVector.bits_ g' = Some b ∧
    BitVector.length b z' = Ret len' ∧ 100 < len' ∧
    ∃ k : nat, len' = 10 * 2 ^ Z.of_nat k.
Proof.
  assert (is_growable zone_10 (GrowableBitVector.mk (Some 0%nat)) 10 [36])
    as Hg.
  { exists 0%nat. split; [concrete_bitvector|].
    split; [concrete_padding|unfold INT_MAX; lia]. }
  assert (0 ≤ 100) as Hv by lia.
  assert (2 * 100 ≤ INT_MAX) as Hv2 by (unfold INT_MAX; lia).
  assert (31 ≤ 31)%nat as Hfuel by lia.
  split; [exact Hg|]. split; [exact Hv|]. split; [exact Hv2|].
  split; [exact Hfuel|].
  destruct (EnsureCapacity_growth zone_10 (GrowableBitVector.mk (Some 0%nat))
              10 [36] 100 31 Hg Hv Hv2 Hfuel)
    as (g' & z' & b & len' & start & Hrun & -> & Hb & Hlen & Hlt & Hk & _).
  exists g', z', b, len'. repeat split; assumption.
Defined.

Lemma Growable_Add_overflow_witness :
  2 ^ 30 ≤ 2 ^ 30 ∧ (21 ≤ 21)%nat ∧
  GrowableBitVector.Add GrowableBitVector.empty (2 ^ 30) 21 empty_zone = Fatal.
Proof.
  assert (2 ^ 30 ≤ 2 ^ 30) as Hv by lia.
  assert (21 ≤ 21)%nat as Hfuel by lia.
  split; [exact Hv|]. split; [exact Hfuel|].
  exact (proj1 (Growable_Add_overflow empty_zone (2 ^ 30) 21 Hv Hfuel)).
Defined.

Lemma Growable_Union_adds_witness :
  is_growable zone_10 GrowableBitVector.empty 0 [] ∧
  is_growable zone_10 (GrowableBitVector.mk (Some 0%nat)) 10 [36] ∧
  (∀ bh, GrowableBitVector.bits_ (GrowableBitVector.mk (Some 0%nat)) = Some bh →
         apart bh GrowableBitVector.empty zone_10) ∧
  10 ≤ 2 ^ 30 ∧ BitVector.kDataBits ≤ Z.of_nat 64 ∧
  Z.of_nat (length [36]) * BitVector.kDataBits ≤ Z.of_nat 64 ∧
  ∃ g' z', GrowableBitVector.Union GrowableBitVector.empty
             (GrowableBitVector.mk (Some 0%nat)) 64 zone_10 = Ret (g', z').
Proof.
  assert (is_growable zone_10 GrowableBitVector.empty 0 []) as Hg
    by (split; reflexivity).
  assert (is_growable zone_10 (GrowableBitVector.mk (Some 0%nat)) 10 [36])
    as Hh.
  { exists 0%nat. split; [concrete_bitvector|].
    split; [concrete_padding|unfold INT_MAX; lia]. }
  assert (∀ bh, GrowableBitVector.bits_ (GrowableBitVector.mk (Some 0%nat))
                = Some bh → apart bh GrowableBitVector.empty zone_10) as Hap.
  { intros bh [= <-]. eexists. split; [reflexivity|]. simpl. lia. }
  assert (10 ≤ 2 ^ 30) as Hlen by lia.
  assert (BitVector.kDataBits ≤ Z.of_nat 64) as Hfuel
    by (vm_compute; discriminate).
  assert (Z.of_nat (length [36]) * BitVector.kDataBits ≤ Z.of_nat 64)
    as Hfuel' by (vm_compute; discriminate).
  split; [exact Hg|]. split; [exact Hh|]. split; [exact Hap|].
  split; [exact Hlen|]. split; [exact Hfuel|]. split; [exact Hfuel'|].
  destruct (Growable_Union_adds zone_10 GrowableBitVector.empty
              (GrowableBitVector.mk (Some 0%nat)) 0 10 [] [36] 64
              Hg Hh Hap Hlen Hfuel Hfuel') as (g' & z' & Hrun & _).
  exists g', z'. exact Hrun.
Defined.
